(** * DSPBB: integer rate changers, polyphase interpolation and rational resampling

    A shallow embedding of [include/dspbb/Filtering/Interpolation.hpp]:
    [Decimate], [Expand], [Interpolate], [impl::lcm], the helpers of
    namespace [resample] and [Resample], and of [fir::MirrorResponse] of
    [include/dspbb/Filtering/FIR/BandTransforms.hpp], together with the
    properties the specification states about them and further properties
    of the code: outcomes of the contract checks, compositions and round
    trips.

    Conventions.
    - A signal (owned buffer or view) is a [list] of samples; writing through
      an index or an iterator is a list update that is checked against the
      buffer bounds.
    - The sample type is a parameter, as in the templates.  Only the few
      identities the algorithms rely on are required of it ([Scalar]).
    - [assert] is a contract check: a failed check ends the call with
      [Fault AssertionFailure].
    - [int64_t], [ptrdiff_t] and [size_t] values are integers in [Z]; every
      conversion between them is written with its wrap-around.  The sizes and
      rates of [Decimate] and [Expand] are natural numbers with their exact
      arithmetic, which is the arithmetic of [size_t] for values that stay
      below 2^64. *)

From Stdlib Require Import ZArith QArith Qcanon Qround Lia Lqa.
From stdpp Require Import base tactics option list numbers.

(** ** Results of calls that can fail *)

Inductive fault : Type :=
| AssertionFailure   (* an [assert] of the source did not hold *)
| OutOfRange         (* an element access outside the buffer *)
| DivisionByZero.    (* integer or rational division by zero *)

Inductive result (A : Type) : Type :=
| Ok (a : A)
| Fault (f : fault).
Arguments Ok {A} a.
Arguments Fault {A} f.

#[global] Instance result_ret : MRet result := fun A a => Ok a.
#[global] Instance result_bind : MBind result := fun A B f m =>
  match m with
  | Ok a => f a
  | Fault e => Fault e
  end.

Definition assert (b : bool) : result unit :=
  if b then Ok tt else Fault AssertionFailure.

(** ** Samples *)

(** The arithmetic the templates use on samples: [0], [1], [+], [*], [/] and
    the conversion [CommonType(weight)] of an integer weight.  The laws are the
    identities of zero and one; they hold for the integers and for any field. *)
Class Scalar (T : Type) : Type := {
  zero : T;
  one : T;
  add : T -> T -> T;
  mul : T -> T -> T;
  div : T -> T -> T;
  of_weight : Z -> T;
  add_0_l : forall x, add zero x = x;
  add_0_r : forall x, add x zero = x;
  mul_0_l : forall x, mul zero x = zero;
  mul_0_r : forall x, mul x zero = zero;
  mul_1_r : forall x, mul x one = x;
  div_1_r : forall x, div x one = x;
  of_weight_0 : of_weight 0 = zero;
  of_weight_1 : of_weight 1 = one
}.

(** Integer samples, with the truncating division of C++. *)
#[global, refine] Instance Z_Scalar : Scalar Z := {|
  zero := 0%Z; one := 1%Z; add := Z.add; mul := Z.mul; div := Z.quot;
  of_weight := fun w => w
|}.
Proof.
  all: intros; try reflexivity; try lia.
  apply Z.quot_1_r.
Defined.

(** Element access [s[i]] and element write [s[i] = v], both bounds-checked. *)
Definition read {T} (s : list T) (i : nat) : result T :=
  match s !! i with
  | Some v => Ok v
  | None => Fault OutOfRange
  end.

Definition write {T} (s : list T) (i : nat) (v : T) : result (list T) :=
  if decide (i < length s)%nat then Ok (<[i := v]> s) else Fault OutOfRange.

(** ** Decimate and Expand *)

Section RateChangers.
Context {T : Type} `{Scalar T}.

(** The loop of [Decimate]: [for (auto& o : output) { o = input[readIdx];
      readIdx += rate; }].  The elements already visited are in front. *)
Fixpoint Decimate_loop (output input : list T) (rate readIdx : nat)
    : result (list T) :=
    match output with
    | [] => Ok []
    | _ :: output' =>
        v ← read input readIdx;
        rest ← Decimate_loop output' input rate (readIdx + rate);
        Ok (v :: rest)
    end.

(** [void Decimate(output, input, rate)].  The size
      [(input.Size() + rate - 1) / rate] is computed on natural numbers: it
      is the value the source computes when [input.Size() + rate] is below
      2^64, the range in which the theorems about [Decimate] are stated. *)
Definition Decimate (output input : list T) (rate : nat) : result (list T) :=
    if decide (rate = 0)%nat then Fault DivisionByZero else
    _ ← assert (bool_decide (length output = (length input + rate - 1) / rate)%nat);
    Decimate_loop output input rate 0.

(** [auto Decimate(input, rate)]: allocates the output and fills it. *)
Definition Decimate_alloc (input : list T) (rate : nat) : result (list T) :=
    Decimate (replicate ((length input + rate - 1) / rate) zero) input rate.

(** The inner loop of [Expand]: [for (size_t i = rate; i > 1; --i)
      { *writeIt = 0; ++writeIt; }]. *)
Fixpoint Expand_zeros (output : list T) (writeIt i : nat)
    : result (list T * nat) :=
    match i with
    | S (S _ as i') =>
        output' ← write output writeIt zero;
        Expand_zeros output' (S writeIt) i'
    | _ => Ok (output, writeIt)
    end.

(** The outer loop of [Expand], over the input samples. *)
Fixpoint Expand_loop (output : list T) (writeIt : nat) (input : list T)
    (rate : nat) : result (list T) :=
    match input with
    | [] => Ok output
    | i :: input' =>
        output1 ← write output writeIt i;
        '(output2, writeIt2) ← Expand_zeros output1 (S writeIt) rate;
        Expand_loop output2 writeIt2 input' rate
    end.

(** [void Expand(output, input, rate)]. *)
Definition Expand (output input : list T) (rate : nat) : result (list T) :=
    _ ← assert (bool_decide (length output = length input * rate)%nat);
    Expand_loop output 0 input rate.

(** [auto Expand(input, rate)].  The size [input.Size() * rate] is
      computed on natural numbers: it is the value the source computes when
      the product is below 2^64, the range in which the theorems about
      [Expand] are stated. *)
Definition Expand_alloc (input : list T) (rate : nat) : result (list T) :=
    Expand (replicate (length input * rate) zero) input rate.

(** The samples that [Expand] stores, one block per input sample. *)
Definition expanded (input : list T) (rate : nat) : list T :=
    concat ((fun i => i :: replicate (rate - 1) zero) <$> input).

(** The zero-stuffed signal, written as the specification describes it:
      every [rate]th sample is the corresponding input sample, the others are
      zero. *)
Definition zero_stuffed (input : list T) (rate : nat) (j : nat) : T :=
    if decide (j mod rate = 0)%nat then default zero (input !! (j / rate)%nat)
    else zero.

End RateChangers.

(** [ceil(n / rate)], the output length the specification gives for
    [Decimate]. *)
Definition ceiling_quotient (n rate : nat) : nat :=
  if decide (n mod rate = 0)%nat then (n / rate)%nat else S (n / rate).

(** ** Machine integers *)

(** Conversion to [size_t] (unsigned, 64 bits) and to [int64_t] / [ptrdiff_t]
    (two's complement, 64 bits). *)
Definition size_t (z : Z) : Z := z mod 2 ^ 64.
Definition int64_t (z : Z) : Z := (z + 2 ^ 63) mod 2 ^ 64 - 2 ^ 63.
Definition ptrdiff_t (z : Z) : Z := int64_t z.

(** ** Exact rationals *)

(** Modelled from the spec: [Math/Rational.hpp] is not among the sources.
    The specification describes [Rational<I>] as a pair of a numerator and a
    positive denominator kept in canonical reduced form, the sign carried by
    the numerator, with exact [+], [-], [*], comparisons, [floor] (greatest
    integer below the value) and [frac] (value minus floor).  That is the type
    [Qc] of canonical rationals.  A denominator is never zero: building a
    rational with denominator zero, or dividing by the zero rational, is
    outside the type's contract and reported as [Fault DivisionByZero].
    Overflow of the 64-bit components is the caller's responsibility and is
    not part of the model. *)
Abbreviation Rational := Qc.

Module Rational.

Definition Numerator (x : Rational) : Z := Qnum (this x).
Definition Denominator (x : Rational) : Z := Zpos (Qden (this x)).

(** [Rational{n}] *)
Definition of_int (n : Z) : Rational := Qc_of_Z n.

(** [Rational{num, den}] *)
Definition make (num den : Z) : result Rational :=
    if decide (den = 0)%Z then Fault DivisionByZero
    else Ok (Q2Qc (inject_Z num / inject_Z den)).

(** [x / y] *)
Definition quot (x y : Rational) : result Rational :=
    if decide (y = Q2Qc 0) then Fault DivisionByZero else Ok (x / y)%Qc.

Definition floor (x : Rational) : Z := Qfloor (this x).
Definition frac (x : Rational) : Rational := (x - of_int (floor x))%Qc.

(** [x <= y] and [x < y] *)
Definition leb (x y : Rational) : bool := Qle_bool (this x) (this y).
Definition ltb (x y : Rational) : bool := negb (Qle_bool (this y) (this x)).

End Rational.

(** ** Collaborators of the resampler *)

(** Modelled from the spec: [Utility/Interval.hpp] is not among the sources.
    A half-open index range [first, last), its size, the intersection of two
    ranges (the clipping of a window to the available bounds) and the shift of
    a range by an offset. *)
Record Interval : Type := { first : Z; last : Z }.

Definition Interval_Size (a : Interval) : Z := last a - first a.
Definition Intersection (a b : Interval) : Interval :=
  {| first := Z.max (first a) (first b); last := Z.min (last a) (last b) |}.
Definition Interval_minus (a : Interval) (d : Z) : Interval :=
  {| first := first a - d; last := last a - d |}.

(** Modelled from the spec: [Filtering/Convolution.hpp] is not among the
    sources.  The length of the full convolution of signals of lengths [u]
    and [v], a [size_t]. *)
Definition ConvolutionLength (u v : Z) : Z := size_t (u + v - 1).

Section Collaborators.
Context {T : Type} `{Scalar T}.

(** Modelled from the spec: the signal views are not among the sources.
      [s.SubSignal(offset, count)] is the window of [count] elements of [s]
      that starts at [offset]; both arguments are [size_t], and the window
      must lie inside [s]. *)
Definition SubSignal (s : list T) (offset count : Z) : result (list T) :=
    if decide (0 <= offset /\ 0 <= count /\ offset + count <= Z.of_nat (length s))%Z
    then Ok (take (Z.to_nat count) (drop (Z.to_nat offset) s))
    else Fault OutOfRange.

(** Modelled from the spec: [Math/DotProduct.hpp] is not among the sources.
      The dot product of two windows, accumulated from the first element on. *)
Definition DotProduct (a b : list T) : T :=
    foldl (fun acc p => add acc (mul (fst p) (snd p))) zero (zip a b).

(** Modelled from the spec: [Filtering/Polyphase.hpp] is not among the
      sources.  A polyphase view is a read-only view of a filter of
      [OriginalSize] taps as [FilterCount] phases.  Phase [i] holds every
      [FilterCount]th tap starting at tap [i], reversed, so that its dot
      product with an input window is a convolution sample; phases are at
      most [PhaseSize = ceil(OriginalSize / FilterCount)] long. *)
Record PolyphaseView : Type := {
    bufferView : list T;     (* the taps of the original filter *)
    numFilters : nat
  }.

Definition FilterCount (p : PolyphaseView) : nat := numFilters p.
Definition OriginalSize (p : PolyphaseView) : nat := length (bufferView p).
Definition PhaseSize (p : PolyphaseView) : nat :=
    ((OriginalSize p + FilterCount p - 1) / FilterCount p)%nat.

(** The number of taps of phase [i]: the indices [i], [i + P], ... below
      [F]. *)
Definition phase_taps (F P i : nat) : nat :=
    if decide (i < F)%nat then ((F - 1 - i) / P + 1)%nat else 0%nat.

(** [polyphase[i]] *)
Definition phase (p : PolyphaseView) (i : nat) : list T :=
    (fun c => default zero (bufferView p !! (i + c * FilterCount p)%nat))
      <$> reverse (seq 0 (phase_taps (OriginalSize p) (FilterCount p) i)).

End Collaborators.
Arguments PolyphaseView T : clear implicits.

(** ** Interpolate *)

Section Interpolation.
Context {T : Type} `{Scalar T}.

(** The body of the loop of [Interpolate] for one absolute output index:
      the value to store, or [None] when the clipped window is empty and
      nothing is stored. *)
Definition Interpolate_sample (lrInput : list T) (polyphase : PolyphaseView T)
    (hrOutputIdx : Z) : result (option T) :=
    let rate := ptrdiff_t (Z.of_nat (FilterCount polyphase)) in
    let hrFilterSize := ptrdiff_t (Z.of_nat (OriginalSize polyphase)) in
    let lrPhaseSize := ptrdiff_t (Z.of_nat (PhaseSize polyphase)) in
    let hrInputIdx := ptrdiff_t (1 - hrFilterSize + hrOutputIdx) in
    let lrInputIdx := ((hrInputIdx + hrFilterSize - 1) ÷ rate - lrPhaseSize + 1)%Z in
    let polyphaseIdx := ((hrInputIdx + hrFilterSize - 1) `rem` rate)%Z in
    let phase := phase polyphase (Z.to_nat (size_t polyphaseIdx)) in
    let inputSpan := {| first := 0; last := ptrdiff_t (Z.of_nat (length lrInput)) |} in
    let lrInputInterval := {| first := lrInputIdx; last := lrInputIdx + lrPhaseSize |} in
    let lrPhaseInterval :=
      {| first := last lrInputInterval - ptrdiff_t (Z.of_nat (length phase));
         last := last lrInputInterval |} in
    let lrInputProductInterval :=
      Intersection inputSpan (Intersection lrInputInterval lrPhaseInterval) in
    let lrPhaseProductInterval := Interval_minus lrInputProductInterval lrInputIdx in
    if decide (Interval_Size lrInputProductInterval > 0)%Z then
      lrInputView ← SubSignal lrInput (size_t (first lrInputProductInterval))
        (size_t (last lrInputProductInterval - first lrInputProductInterval));
      lrPhaseView ← SubSignal phase
        (size_t (first lrPhaseProductInterval - lrPhaseSize
                 + ptrdiff_t (Z.of_nat (length phase))))
        (size_t (last lrPhaseProductInterval - first lrPhaseProductInterval));
      Ok (Some (DotProduct lrInputView lrPhaseView))
    else Ok None.

(** The loop [for (hrOutputIdx = hrOffset; hrOutputIdx < hrOffset +
      hrOutputSize; ++hrOutputIdx)], with the iterations that remain: one
      per output element, which is what the loop test gives when
      [hrOffset + hrOutputSize] is below 2^64, the range in which the
      theorems about [Interpolate] are stated. *)
Fixpoint Interpolate_loop (remaining : nat) (hrOutput lrInput : list T)
    (polyphase : PolyphaseView T) (hrOffset hrOutputIdx : Z) : result (list T) :=
    match remaining with
    | O => Ok hrOutput
    | S remaining' =>
        value ← Interpolate_sample lrInput polyphase hrOutputIdx;
        hrOutput' ← match value with
                    | Some v => write hrOutput (Z.to_nat (size_t (hrOutputIdx - hrOffset))) v
                    | None => Ok hrOutput
                    end;
        Interpolate_loop remaining' hrOutput' lrInput polyphase hrOffset
          (size_t (hrOutputIdx + 1))
    end.

(** [void Interpolate(hrOutput, lrInput, polyphase, hrOffset)].  A bank
      without phases makes the index arithmetic divide by zero. *)
Definition Interpolate (hrOutput lrInput : list T) (polyphase : PolyphaseView T)
    (hrOffset : Z) : result (list T) :=
    if decide (FilterCount polyphase = 0)%nat then Fault DivisionByZero else
    let rate := ptrdiff_t (Z.of_nat (FilterCount polyphase)) in
    let hrFilterSize := ptrdiff_t (Z.of_nat (OriginalSize polyphase)) in
    let hrOutputSize := ptrdiff_t (Z.of_nat (length hrOutput)) in
    let lrInputSize := ptrdiff_t (Z.of_nat (length lrInput)) in
    let hrInputSize := (lrInputSize * rate)%Z in
    let hrOutputMaxSize := ptrdiff_t (ConvolutionLength hrInputSize hrFilterSize) in
    _ ← assert (bool_decide (ptrdiff_t hrOffset + hrOutputSize <= hrOutputMaxSize)%Z);
    Interpolate_loop (length hrOutput) hrOutput lrInput polyphase hrOffset hrOffset.

(** [auto Interpolate(lrInput, polyphase, hrOffset, hrLength)]: the output
      is allocated with [hrLength] zeros. *)
Definition Interpolate_alloc (lrInput : list T) (polyphase : PolyphaseView T)
    (hrOffset : Z) (hrLength : nat) : result (list T) :=
    Interpolate (replicate hrLength zero) lrInput polyphase hrOffset.

(** The clipped convolution window of the high-rate output index [n]: the
      theoretical window, the input samples [q + 1 - taps, q + 1) that the
      taps of phase [n mod P] reach back from [q = n / P], cut to the bounds
      [0, length lrInput) of the available input. *)
Definition clipped_window (lrInput : list T) (polyphase : PolyphaseView T)
    (n : nat) : nat * nat :=
    let q := (n / FilterCount polyphase)%nat in
    let taps := phase_taps (OriginalSize polyphase) (FilterCount polyphase)
                  (n mod FilterCount polyphase) in
    ((q + 1 - taps)%nat, (length lrInput `min` (q + 1))%nat).

(** The dot product of the clipped input window with the taps of the phase
      that face it. *)
Definition window_product (lrInput : list T) (polyphase : PolyphaseView T)
    (n : nat) : T :=
    let q := (n / FilterCount polyphase)%nat in
    let taps := phase_taps (OriginalSize polyphase) (FilterCount polyphase)
                  (n mod FilterCount polyphase) in
    let '(lo, hi) := clipped_window lrInput polyphase n in
    DotProduct (take (hi - lo) (drop lo lrInput))
      (take (hi - lo)
         (drop (lo + taps - (q + 1))
            (phase polyphase (n mod FilterCount polyphase)))).

(** Summation from the first index on, as [DotProduct] accumulates. *)
Definition sum_from (acc : T) (g : nat -> T) (l : list nat) : T :=
    foldl (fun a m => add a (g m)) acc l.

(** The full convolution of two signals at index [n], as a sum over the
      first signal from its first element on; samples outside either signal
      count as zero. *)
Definition convolution (u v : list T) (n : nat) : T :=
    sum_from zero
      (fun m => mul (default zero (u !! m)) (default zero (v !! (n - m)%nat)))
      (seq 0 (S n)).

End Interpolation.

(** ** Namespace [impl] *)

(** [impl::lcm(x, y)] and [impl::lcm(head, tail...)]: the two-argument
    overload is [std::lcm] of the C++ standard library, the least common
    multiple of the absolute values (0 when an argument is 0); the variadic
    overload folds it from the right.  [std::lcm] is defined only when the
    absolute values of its arguments and of its result are representable in
    the common type of the arguments: [impl_lcm] is the value of the call
    when every number of [impl_lcm_values] is representable, and says
    nothing about the other calls. *)
Fixpoint impl_lcm (head second : Z) (rest : list Z) {struct rest} : Z :=
  match rest with
  | [] => Z.lcm head second
  | third :: rest' => Z.lcm head (impl_lcm second third rest')
  end.

(** The numbers that a call of [impl::lcm] passes to [std::lcm] or receives
    from it: every argument and the result of every [std::lcm] call. *)
Fixpoint impl_lcm_values (head second : Z) (rest : list Z) {struct rest}
  : list Z :=
  match rest with
  | [] => [head; second; Z.lcm head second]
  | third :: rest' =>
      head :: Z.lcm head (impl_lcm second third rest')
        :: impl_lcm_values second third rest'
  end.

(** ** Namespace [resample] *)

Record PhaseSample : Type := {
  inputIndex : Z;
  phaseIndex : Z;
  weight : Z
}.

Record ContinuationParams : Type := {
  firstInputSample : Z;
  startPoint : Rational
}.

(** [ResamplingLength(inputSize, filterSize, numPhases, sampleRates,
    CONV_FULL)] *)
Definition ResamplingLength (inputSize filterSize numPhases : Z)
  (sampleRates : Rational) : result Rational :=
  let interpolatedSize := int64_t (int64_t numPhases * inputSize) in
  let filteredInterpolatedSize :=
    int64_t (ConvolutionLength interpolatedSize filterSize) in
  q ← Rational.quot (Rational.of_int filteredInterpolatedSize) sampleRates;
  Rational.quot q (Rational.of_int (int64_t numPhases)).

Definition ChangeSampleRate (sourceRate targetRate : Z) (sample : Rational)
  : result Rational :=
  ratio ← Rational.make targetRate sourceRate;
  Ok (sample * ratio)%Qc.

(** A phase count of zero makes [% numPhases] divide by zero. *)
Definition InputIndex2Sample (inputIndex : Rational) (numPhases : Z)
  : result (PhaseSample * PhaseSample) :=
  if decide (numPhases = 0)%Z then Fault DivisionByZero else
  let indexFrac := Rational.frac inputIndex in
  let firstPhase :=
    size_t (Rational.floor (indexFrac * Rational.of_int (int64_t numPhases))%Qc) in
  let secondPhase := (size_t (firstPhase + 1) mod numPhases)%Z in
  let t := Rational.frac (indexFrac * Rational.of_int (int64_t numPhases))%Qc in
  let secondWeight := size_t (Rational.Numerator t) in
  let firstWeight := size_t (Rational.Denominator t - Rational.Numerator t) in
  let firstIndex := size_t (Rational.floor inputIndex) in
  let secondIndex :=
    if decide (secondPhase = 0)%Z then size_t (firstIndex + 1) else firstIndex in
  Ok ({| inputIndex := firstIndex; phaseIndex := firstPhase; weight := firstWeight |},
      {| inputIndex := secondIndex; phaseIndex := secondPhase; weight := secondWeight |}).

Definition Continuation (nextOutputSample : Rational) (filterSize numPhases : Z)
  (sampleRates : Rational) : result ContinuationParams :=
  nextInputSample ← ChangeSampleRate (Rational.Denominator sampleRates)
                      (Rational.Numerator sampleRates) nextOutputSample;
  convolutionOffset ← Rational.make (int64_t filterSize - 1) (int64_t numPhases);
  let firstInputSample := (nextInputSample - convolutionOffset)%Qc in
  if Rational.leb firstInputSample (Rational.of_int 0) then
    Ok {| firstInputSample := 0; startPoint := nextOutputSample |}
  else
    let firstInputSampleWhole := size_t (Rational.floor firstInputSample) in
    let inputStartPoint := (Rational.frac firstInputSample + convolutionOffset)%Qc in
    outputStartPoint ← ChangeSampleRate (Rational.Numerator sampleRates)
                         (Rational.Denominator sampleRates) inputStartPoint;
    Ok {| firstInputSample := firstInputSampleWhole; startPoint := outputStartPoint |}.

(** [ResamplingDelay(filterSize, numPhases, sampleRates)] *)
Definition ResamplingDelay (filterSize numPhases : Z) (sampleRates : Rational)
  : result Rational :=
  halfOffset ← Rational.make (int64_t filterSize - 1) (2 * int64_t numPhases);
  Rational.quot halfOffset sampleRates.

(** The input-domain position of an output position, as the output loop of
    [Resample] computes it: [ChangeSampleRate(sampleRates.Denominator(),
    sampleRates.Numerator(), outputIndex)]. *)
Definition Resample_position (sampleRates outputIndex : Rational) : result Rational :=
  ChangeSampleRate (Rational.Denominator sampleRates)
    (Rational.Numerator sampleRates) outputIndex.

Section Resampling.
Context {T : Type} `{Scalar T}.

Definition DotProductSample (input filter : list T) (inputReverseFirst : Z)
    : result T :=
    let desiredFirst :=
      ptrdiff_t (ptrdiff_t inputReverseFirst - Z.of_nat (length filter) + 1) in
    let desiredLast := (ptrdiff_t inputReverseFirst + 1)%Z in
    let possibleFirst := Z.max 0 desiredFirst in
    let possibleLast := Z.min (ptrdiff_t (Z.of_nat (length input))) desiredLast in
    let count := (possibleLast - possibleFirst)%Z in
    _ ← assert (bool_decide (count >= 0)%Z);
    let offset := (possibleFirst - desiredFirst)%Z in
    inputView ← SubSignal input (size_t possibleFirst) (size_t count);
    filterView ← SubSignal filter (size_t offset) (size_t count);
    Ok (DotProduct inputView filterView).

(** A signal read at any integer index: zero outside its range. *)
Definition zero_padded (s : list T) (z : Z) : T :=
    if decide (0 <= z)%Z then default zero (s !! Z.to_nat z) else zero.

(** The cross-fade of the two candidate values by their integer weights. *)
Definition blend (firstSampleVal secondSampleVal : T) (firstWeight secondWeight : Z)
    : T :=
    div (add (mul firstSampleVal (of_weight firstWeight))
             (mul secondSampleVal (of_weight secondWeight)))
        (add (of_weight firstWeight) (of_weight secondWeight)).

(** The body of the output loop of [Resample]: the value stored at the
      output position [outputIndex]. *)
Definition Resample_sample (input : list T) (polyphase : PolyphaseView T)
    (sampleRates outputIndex : Rational) : result T :=
    inputIndex_ ← Resample_position sampleRates outputIndex;
    '(firstSampleLoc, secondSampleLoc) ←
      InputIndex2Sample inputIndex_ (Z.of_nat (FilterCount polyphase));
    firstSampleVal ← DotProductSample input
      (phase polyphase (Z.to_nat (phaseIndex firstSampleLoc)))
      (inputIndex firstSampleLoc);
    secondSampleVal ← DotProductSample input
      (phase polyphase (Z.to_nat (phaseIndex secondSampleLoc)))
      (inputIndex secondSampleLoc);
    Ok (blend firstSampleVal secondSampleVal
          (weight firstSampleLoc) (weight secondSampleLoc)).

(** The output loop: [written] holds the elements already stored, [todo]
      the elements of the buffer not yet reached.  A failing iteration leaves
      the buffer as it is at that point. *)
Fixpoint Resample_loop (written todo input : list T) (polyphase : PolyphaseView T)
    (sampleRates outputIndex : Rational) : list T * result Rational :=
    match todo with
    | [] => (written, Ok outputIndex)
    | old :: todo' =>
        match Resample_sample input polyphase sampleRates outputIndex with
        | Ok v =>
            Resample_loop (written ++ [v]) todo' input polyphase sampleRates
              (outputIndex + Rational.of_int 1)%Qc
        | Fault f => (written ++ old :: todo', Fault f)
        end
    end.

(** The contract checks at the head of [Resample], in source order. *)
Definition Resample_contract (output input : list T) (polyphase : PolyphaseView T)
    (sampleRates startPoint : Rational) : result unit :=
    _ ← assert (Rational.leb (Rational.of_int 0) sampleRates);
    _ ← assert (Rational.leb (Rational.of_int 0) startPoint);
    _ ← assert (bool_decide (0 < FilterCount polyphase)%nat);
    maxLength ← ResamplingLength (Z.of_nat (length input))
                  (Z.of_nat (OriginalSize polyphase))
                  (Z.of_nat (FilterCount polyphase)) sampleRates;
    assert (Rational.ltb
              (startPoint + Rational.of_int (int64_t (Z.of_nat (length output))))%Qc
              maxLength).

(** [Resample(output, input, polyphase, sampleRates, startPoint)]: the
      output buffer after the call and the continuation parameters. *)
Definition Resample (output input : list T) (polyphase : PolyphaseView T)
    (sampleRates startPoint : Rational) : list T * result ContinuationParams :=
    match Resample_contract output input polyphase sampleRates startPoint with
    | Fault f => (output, Fault f)
    | Ok _ =>
        let '(output', r) :=
          Resample_loop [] output input polyphase sampleRates startPoint in
        (output',
         outputIndex ← r;
         Continuation outputIndex (Z.of_nat (OriginalSize polyphase))
           (Z.of_nat (FilterCount polyphase)) sampleRates)
    end.

(** [auto Resample(input, polyphase, sampleRates, startPoint, orLength)] *)
Definition Resample_alloc (input : list T) (polyphase : PolyphaseView T)
    (sampleRates startPoint : Rational) (orLength : nat) : list T :=
    fst (Resample (replicate orLength zero) input polyphase sampleRates startPoint).

End Resampling.

(** ** Band transforms *)

(** [fir::MirrorResponse] of [Filtering/FIR/BandTransforms.hpp].  [T(1)] and
    [T(-1)] are the conversions of the integers 1 and -1 to the sample type. *)
Section BandTransforms.
Context {T : Type} `{Scalar T}.

(** The loop [for (size_t i = 0; i < filter.Size(); ++i, sign *= T(-1))
      { mirrored[i] = R(sign * filter[i]); }], with the iterations that
      remain. *)
Fixpoint MirrorResponse_loop (remaining : nat) (mirrored filter : list T)
    (i : nat) (sign : T) : result (list T) :=
    match remaining with
    | O => Ok mirrored
    | S remaining' =>
        v ← read filter i;
        mirrored' ← write mirrored i (mul sign v);
        MirrorResponse_loop remaining' mirrored' filter (S i)
          (mul sign (of_weight (-1)))
    end.

(** [void MirrorResponse(mirrored, filter)] *)
Definition MirrorResponse (mirrored filter : list T) : result (list T) :=
    _ ← assert (bool_decide (length mirrored = length filter));
    MirrorResponse_loop (length filter) mirrored filter 0 (of_weight 1).

(** The value of [sign] when the loop reaches index [i]. *)
Fixpoint alternating_sign (i : nat) : T :=
    match i with
    | O => of_weight 1
    | S i' => mul (alternating_sign i') (of_weight (-1))
    end.

End BandTransforms.

(** The identity-like bank of the specification: a single phase with a
    single tap equal to 1. *)
Definition identity_bank_of {T : Type} (one : T) : PolyphaseView T :=
  {| bufferView := [one]; numFilters := 1 |}.

(** ** Example data *)

(** A six-tap filter seen as two phases, and an identity-like bank with one
    phase of one tap. *)
Definition example_bank : PolyphaseView Z :=
  {| bufferView := [1; 2; 3; 4; 5; 6]%Z; numFilters := 2 |}.
Definition example_input : list Z := [10; 20; 30; 40; 50; 60; 70; 80]%Z.
Definition identity_bank : PolyphaseView Z :=
  {| bufferView := [1]%Z; numFilters := 1 |}.

(** * Properties *)

(** ** The result monad *)

Lemma bind_Ok {A B} (f : A -> result B) (a : A) : (Ok a ≫= f) = f a.
Proof. reflexivity. Qed.

Lemma assert_true (b : bool) : b = true -> assert b = Ok tt.
Proof. by intros ->. Qed.

Lemma assert_false (b : bool) : b = false -> assert b = Fault AssertionFailure.
Proof. by intros ->. Qed.

Lemma read_lookup {T} (s : list T) (i : nat) (v : T) : s !! i = Some v -> read s i = Ok v.
Proof. unfold read. by intros ->. Qed.

Lemma write_ok {T} (s : list T) (i : nat) (v : T) :
  (i < length s)%nat -> write s i v = Ok (<[i := v]> s).
Proof. intros. unfold write. by rewrite decide_True. Qed.

(** ** Decimate and Expand *)

Section RateChangerProofs.
Context {T : Type} `{Scalar T}.

Lemma length_expanded (input : list T) (rate : nat) :
    (1 <= rate)%nat -> length (expanded input rate) = (length input * rate)%nat.
Proof.
    intros Hr. unfold expanded. induction input as [|a input IH]; [done|].
    rewrite fmap_cons, concat_cons, length_app. simpl length at 1.
    rewrite length_replicate, IH, length_cons. lia.
Qed.

Lemma lookup_expanded (input : list T) (rate j : nat) :
    (1 <= rate)%nat -> (j < length input * rate)%nat ->
    expanded input rate !! j = Some (zero_stuffed input rate j).
Proof.
    intros Hr. revert j. unfold expanded.
    induction input as [|a input IH]; intros j Hj; [simpl in *; lia|].
    rewrite fmap_cons, concat_cons. rewrite length_cons in Hj.
    destruct (decide (j < rate)%nat) as [Hlt|Hge].
    - unfold zero_stuffed. rewrite Nat.div_small, Nat.mod_small by done.
      destruct j as [|j]; simpl; [done|].
      rewrite lookup_app_l by (rewrite length_replicate; lia).
      rewrite lookup_replicate_2 by lia. done.
    - assert (exists k, j = (k + 1 * rate)%nat) as [k ->] by (exists (j - rate)%nat; lia).
      rewrite lookup_app_r by (rewrite length_cons, length_replicate; lia).
      rewrite length_cons, length_replicate.
      replace (k + 1 * rate - S (rate - 1))%nat with k by lia.
      rewrite IH by lia. f_equal. unfold zero_stuffed.
      rewrite Nat.Div0.mod_add, Nat.div_add by lia.
      replace ((k / rate + 1)%nat) with (S (k / rate)) by lia.
      done.
Qed.

Lemma write_middle (pre post : list T) (old v : T) :
    write (pre ++ old :: post) (length pre) v = Ok (pre ++ v :: post).
Proof.
    rewrite write_ok by (rewrite length_app, length_cons; lia).
    f_equal. rewrite insert_app_r_alt by lia. by rewrite Nat.sub_diag.
Qed.

Lemma Expand_zeros_step (output : list T) (writeIt i : nat) :
    Expand_zeros output writeIt (S (S i)) =
      write output writeIt zero ≫= fun output' => Expand_zeros output' (S writeIt) (S i).
Proof. reflexivity. Qed.

Lemma Expand_zeros_spec (i : nat) (pre mid post : list T) :
    length mid = (i - 1)%nat ->
    Expand_zeros (pre ++ mid ++ post) (length pre) i =
      Ok (pre ++ replicate (i - 1) zero ++ post, (length pre + (i - 1))%nat).
Proof.
    revert pre mid. induction i as [|i IH]; intros pre mid Hmid.
    - destruct mid; [|done]. simpl. by rewrite Nat.add_0_r.
    - destruct i as [|i].
      + destruct mid; [|done]. simpl. by rewrite Nat.add_0_r.
      + destruct mid as [|m mid]; [done|].
        rewrite Expand_zeros_step, <- app_comm_cons, write_middle, bind_Ok.
        replace (S (length pre)) with (length (pre ++ [zero]))
          by (rewrite length_app; simpl; lia).
        rewrite (cons_middle zero pre), app_assoc.
        rewrite IH by (simpl in *; lia).
        rewrite length_app. simpl. rewrite Nat.sub_0_r, <- app_assoc.
        do 2 f_equal. lia.
Qed.

Lemma Expand_loop_spec (input pre mid post : list T) (rate : nat) :
    (1 <= rate)%nat -> length mid = (length input * rate)%nat ->
    Expand_loop (pre ++ mid ++ post) (length pre) input rate =
      Ok (pre ++ expanded input rate ++ post).
Proof.
    intros Hr. revert pre mid.
    induction input as [|a input IH]; intros pre mid Hmid.
    - destruct mid; [|done]. done.
    - rewrite length_cons in Hmid.
      destruct mid as [|m mid]; [simpl in Hmid; lia|].
      cbn [Expand_loop]. rewrite <- app_comm_cons, write_middle, bind_Ok.
      rewrite <- (take_drop (rate - 1) mid), <- app_assoc.
      replace (S (length pre)) with (length (pre ++ [a]))
        by (rewrite length_app; simpl; lia).
      rewrite (cons_middle a pre), app_assoc.
      rewrite Expand_zeros_spec by (rewrite length_take; simpl in Hmid; lia).
      rewrite bind_Ok.
      replace (length (pre ++ [a]) + (rate - 1))%nat
        with (length ((pre ++ [a]) ++ replicate (rate - 1) zero))
        by (rewrite !length_app, length_replicate; done).
      rewrite app_assoc.
      rewrite IH by (rewrite length_drop; simpl in Hmid; lia).
      f_equal. unfold expanded. rewrite fmap_cons, concat_cons.
      rewrite <- !app_assoc. simpl. done.
Qed.

(** [Expand] into a buffer of the right length overwrites all of it. *)
Lemma Expand_spec (output input : list T) (rate : nat) :
    (1 <= rate)%nat -> length output = (length input * rate)%nat ->
    Expand output input rate = Ok (expanded input rate).
Proof.
    intros Hr Hlen. unfold Expand.
    rewrite assert_true by (by apply bool_decide_eq_true).
    rewrite bind_Ok.
    pose proof (Expand_loop_spec input [] output [] rate Hr Hlen) as Hloop.
    simpl in Hloop. by rewrite !app_nil_r in Hloop.
Qed.

Lemma Decimate_loop_spec (output input : list T) (rate readIdx : nat) :
    (forall i, (i < length output)%nat -> (readIdx + i * rate < length input)%nat) ->
    exists output',
      Decimate_loop output input rate readIdx = Ok output'
      /\ length output' = length output
      /\ forall i, (i < length output)%nat ->
           output' !! i = input !! (readIdx + i * rate)%nat.
Proof.
    revert readIdx. induction output as [|o output IH]; intros readIdx Hin; simpl.
    - exists []. split_and!; [done..|]. intros; lia.
    - destruct (lookup_lt_is_Some_2 input readIdx) as [v Hv].
      { specialize (Hin 0%nat). simpl in Hin. lia. }
      rewrite (read_lookup _ _ _ Hv), bind_Ok.
      destruct (IH (readIdx + rate)%nat) as (rest & -> & Hlen & Hrest).
      { intros i Hi. specialize (Hin (S i)). simpl in Hin. lia. }
      rewrite bind_Ok. exists (v :: rest). split_and!; [done|simpl; lia|].
      intros [|i] Hi; simpl.
      + by rewrite Nat.add_0_r.
      + rewrite Hrest by lia. f_equal. lia.
Qed.

(** The last index that [Decimate] reads lies inside the input. *)
Lemma Decimate_reads_in_range (n rate i : nat) :
    (1 <= rate)%nat -> (i < (n + rate - 1) / rate)%nat -> (i * rate < n)%nat.
Proof.
    intros Hr Hi.
    assert ((n + rate - 1) / rate * rate <= n + rate - 1)%nat
      by (rewrite Nat.mul_comm; apply Nat.Div0.mul_div_le).
    nia.
Qed.

Lemma Decimate_spec (output input : list T) (rate : nat) :
    (1 <= rate)%nat -> length output = ((length input + rate - 1) / rate)%nat ->
    exists output',
      Decimate output input rate = Ok output'
      /\ length output' = length output
      /\ forall i, (i < length output)%nat -> output' !! i = input !! (i * rate)%nat.
Proof.
    intros Hr Hlen. unfold Decimate.
    rewrite decide_False by lia.
    rewrite assert_true by (by apply bool_decide_eq_true).
    rewrite bind_Ok.
    destruct (Decimate_loop_spec output input rate 0) as (output' & ? & ? & ?).
    { intros i Hi. simpl. apply Decimate_reads_in_range; [done|]. by rewrite <- Hlen. }
    by exists output'.
Qed.

Lemma ceiling_quotient_eq (n rate : nat) :
    (1 <= rate)%nat -> ceiling_quotient n rate = ((n + rate - 1) / rate)%nat.
Proof.
    intros Hr. unfold ceiling_quotient.
    pose proof (Nat.div_mod_eq n rate) as Hn.
    pose proof (Nat.mod_upper_bound n rate ltac:(lia)) as Hm.
    case_decide as H0.
    - apply (Nat.div_unique _ _ _ (rate - 1)); lia.
    - apply (Nat.div_unique _ _ _ (n mod rate - 1)); lia.
Qed.

(** C7.  For an input of length at least 1 and a rate of at least 1,
      with the size computation [input.Size() + rate - 1] in the range of
      [size_t], [Decimate] called with an output buffer of length
      ceil(n / rate) succeeds, and every output element [i] is the input
      element at index [i * rate]. *)
Theorem Decimate_every_rate_th (output input : list T) (rate : nat) :
    (1 <= length input)%nat -> (1 <= rate)%nat ->
    (Z.of_nat (length input) + Z.of_nat rate < 2 ^ 64)%Z ->
    length output = ceiling_quotient (length input) rate ->
    exists output',
      Decimate output input rate = Ok output'
      /\ length output' = ceiling_quotient (length input) rate
      /\ forall i, (i < length output')%nat ->
           exists v, output' !! i = Some v /\ input !! (i * rate)%nat = Some v.
Proof.
    intros _ Hr _ Hlen. rewrite ceiling_quotient_eq in * by done.
    destruct (Decimate_spec output input rate Hr Hlen) as (output' & Hd & Hl & Hi).
    exists output'. split_and!; [done|congruence|].
    intros i Hlt. destruct (lookup_lt_is_Some_2 output' i Hlt) as [v Hv].
    exists v. split; [done|]. rewrite <- Hi by lia. done.
Qed.

(** C6.  For every signal [x] and every rate of at least 1, with the
      sizes [input.Size() * rate] of [Expand] and [input.Size() + rate - 1]
      of [Decimate] in the range of [size_t], [Expand] yields a signal of
      length [length x * rate] whose every [rate]th sample is the
      corresponding sample of [x] and whose other samples are zero, and
      [Decimate] of that signal by the same rate is [x].  The in-place
      overloads give the same results whatever their output buffers held:
      the zeros are stored by [Expand], not found in the buffer. *)
Theorem Decimate_Expand_round_trip (x : list T) (rate : nat) :
    (1 <= rate)%nat ->
    (Z.of_nat (length x) * Z.of_nat rate + Z.of_nat rate < 2 ^ 64)%Z ->
    exists e,
      Expand_alloc x rate = Ok e
      /\ length e = (length x * rate)%nat
      /\ (forall j, (j < length e)%nat -> e !! j = Some (zero_stuffed x rate j))
      /\ Decimate_alloc e rate = Ok x
      /\ (forall buffer, length buffer = (length x * rate)%nat ->
            Expand buffer x rate = Ok e)
      /\ (forall buffer, length buffer = length x ->
            Decimate buffer e rate = Ok x).
Proof.
    intros Hr _. exists (expanded x rate).
    assert (Hlen : length (expanded x rate) = (length x * rate)%nat)
      by by apply length_expanded.
    assert (Hq : ((length (expanded x rate) + rate - 1) / rate)%nat = length x).
    { rewrite Hlen. symmetry. apply (Nat.div_unique _ _ _ (rate - 1)); lia. }
    assert (forall buffer, length buffer = length x ->
              Decimate buffer (expanded x rate) rate = Ok x) as Hdec.
    { intros buffer Hb.
      destruct (Decimate_spec buffer (expanded x rate) rate Hr) as (out & -> & Hl & Hi).
      { by rewrite Hq. }
      f_equal. rewrite Hb in *.
      apply list_eq. intros i.
      destruct (decide (i < length x)%nat) as [Hlt|Hge].
      + rewrite Hi by done. rewrite lookup_expanded by (done || nia).
        unfold zero_stuffed. rewrite Nat.Div0.mod_mul, Nat.div_mul by lia.
        rewrite decide_True by done.
        destruct (lookup_lt_is_Some_2 x i Hlt) as [v ->]. done.
      + rewrite !lookup_ge_None_2 by lia. done. }
    split_and!.
    - apply Expand_spec; [done|]. by rewrite length_replicate.
    - done.
    - intros j Hj. apply lookup_expanded; [done|]. by rewrite <- Hlen.
    - unfold Decimate_alloc. apply Hdec. by rewrite length_replicate.
    - intros buffer Hb. by apply Expand_spec.
    - done.
Qed.

End RateChangerProofs.

Lemma Decimate_every_rate_th_witness :
  exists output',
    Decimate [0; 0; 0]%Z [1; 2; 3; 4; 5; 6; 7]%Z 3 = Ok output'
    /\ length output' = ceiling_quotient 7 3
    /\ forall i, (i < length output')%nat ->
         exists v, output' !! i = Some v
                   /\ [1; 2; 3; 4; 5; 6; 7]%Z !! (i * 3)%nat = Some v.
Proof.
  apply (Decimate_every_rate_th (T := Z) [0; 0; 0]%Z [1; 2; 3; 4; 5; 6; 7]%Z 3);
    [simpl; lia | lia | vm_compute; reflexivity | reflexivity].
Defined.

Lemma Decimate_Expand_round_trip_witness :
  exists e,
    Expand_alloc [1; 5; 1]%Z 2 = Ok e
    /\ length e = 6%nat
    /\ (forall j, (j < length e)%nat -> e !! j = Some (zero_stuffed [1; 5; 1]%Z 2 j))
    /\ Decimate_alloc e 2 = Ok [1; 5; 1]%Z
    /\ (forall buffer, length buffer = (length [1; 5; 1]%Z * 2)%nat ->
          Expand buffer [1; 5; 1]%Z 2 = Ok e)
    /\ (forall buffer, length buffer = length [1; 5; 1]%Z ->
          Decimate buffer e 2 = Ok [1; 5; 1]%Z).
Proof.
  apply (Decimate_Expand_round_trip (T := Z) [1; 5; 1]%Z 2);
    [lia | vm_compute; reflexivity].
Defined.

(** ** Exact rationals *)

Module RationalFacts.
Import Rational.
  Local Open Scope Qc_scope.

(** Transfer of a statement on canonical rationals to plain rationals,
      where [lra] decides linear arithmetic. *)
Ltac unfold_Qc :=
    unfold frac, of_int, Qc_of_Z, Qcle, Qclt, Qcminus, Qcplus, Qcopp, Qcmult, Q2Qc in *;
    cbn [this] in *;
    repeat (rewrite Qred_correct in * );
    repeat match goal with
      | H : context [Qred _] |- _ => setoid_rewrite Qred_correct in H
      end.

Ltac to_Q :=
    unfold_Qc;
    rewrite ?inject_Z_plus, ?inject_Z_mult, ?inject_Z_opp in *;
    change (inject_Z 0) with 0%Q in *; change (inject_Z 1) with 1%Q in *.

Lemma floor_le (x : Rational) : of_int (floor x) <= x.
Proof. unfold_Qc. apply Qfloor_le. Qed.

Lemma floor_lt (x : Rational) : x < of_int (floor x + 1).
Proof. unfold_Qc. apply Qlt_floor. Qed.

Lemma of_int_le (a b : Z) : (a <= b)%Z <-> of_int a <= of_int b.
Proof. unfold_Qc. by rewrite Zle_Qle. Qed.

Lemma of_int_lt (a b : Z) : (a < b)%Z <-> of_int a < of_int b.
Proof. unfold_Qc. by rewrite Zlt_Qlt. Qed.

Lemma of_int_add (a b : Z) : of_int (a + b) = of_int a + of_int b.
Proof. apply Qc_is_canon. to_Q. reflexivity. Qed.

Lemma of_int_mul (a b : Z) : of_int (a * b) = of_int a * of_int b.
Proof. apply Qc_is_canon. to_Q. reflexivity. Qed.

Lemma of_int_0 : of_int 0 = Q2Qc 0.
Proof. by apply Qc_is_canon. Qed.

Lemma of_int_1 : of_int 1 = Q2Qc 1.
Proof. by apply Qc_is_canon. Qed.

(** [floor] is characterised by its two bounds. *)
Lemma floor_unique (x : Rational) (n : Z) :
    of_int n <= x -> x < of_int (n + 1) -> floor x = n.
Proof.
    intros Hle Hlt.
    pose proof (floor_le x) as H1. pose proof (floor_lt x) as H2.
    assert (of_int n < of_int (floor x + 1)) as H3
      by (eapply Qcle_lt_trans; eauto).
    assert (of_int (floor x) < of_int (n + 1)) as H4
      by (eapply Qcle_lt_trans; eauto).
    apply <- of_int_lt in H3. apply <- of_int_lt in H4. lia.
Qed.

Lemma floor_of_int (n : Z) : floor (of_int n) = n.
Proof. apply Qfloor_Z. Qed.

Lemma floor_add_int (x : Rational) (n : Z) : floor (x + of_int n) = (floor x + n)%Z.
Proof.
    apply floor_unique.
    - rewrite of_int_add. apply Qcplus_le_mono_r, floor_le.
    - replace (floor x + n + 1)%Z with ((floor x + 1) + n)%Z by lia.
      rewrite of_int_add. apply Qcplus_lt_mono_r, floor_lt.
Qed.

Lemma frac_nonneg (x : Rational) : of_int 0 <= frac x.
Proof. pose proof (floor_le x). to_Q. lra. Qed.

Lemma frac_lt_1 (x : Rational) : frac x < of_int 1.
Proof. pose proof (floor_lt x). to_Q. lra. Qed.

Lemma Denominator_pos (x : Rational) : (0 < Denominator x)%Z.
Proof. unfold Denominator. lia. Qed.

(** A rational in [0, 1) has a numerator between zero and its denominator. *)
Lemma Numerator_range (t : Rational) :
    of_int 0 <= t -> t < of_int 1 -> (0 <= Numerator t < Denominator t)%Z.
Proof.
    unfold Numerator, Denominator, Qcle, Qclt, Qle, Qlt. simpl. lia.
Qed.

(** Reduction to lowest terms does not enlarge the denominator. *)
Lemma Qred_den_le (q : Q) : (Zpos (Qden (Qred q)) <= Zpos (Qden q))%Z.
Proof.
    destruct q as [n d]. unfold Qred.
    pose proof (Z.ggcd_correct_divisors n (Zpos d)) as Hd.
    pose proof (Z.ggcd_gcd n (Zpos d)) as Hg.
    pose proof (Z.gcd_nonneg n (Zpos d)) as Hn.
    destruct (Z.ggcd n (Zpos d)) as [g [a b]]. simpl in *.
    destruct Hd as [_ Hb]. subst g.
    pose proof (Pos2Z.is_pos d) as Hd.
    generalize dependent (Z.gcd n (Z.pos d)). intros g Hb Hn.
    generalize dependent (Z.pos d). intros D Hb HD.
    assert (0 < b)%Z.
    { destruct (Z_lt_le_dec 0 b); [done|].
      assert (g * b <= 0)%Z by (apply Z.mul_nonneg_nonpos; lia). lia. }
    assert (1 <= g)%Z by (destruct (decide (g = 0%Z)); [subst; lia | lia]).
    rewrite Z2Pos.id by done. nia.
Qed.

Lemma Denominator_sub_int (x : Rational) (n : Z) :
    (Denominator (x - of_int n) <= Denominator x)%Z.
Proof.
    unfold Denominator, Qcminus, Qcplus, Qcopp, Q2Qc, of_int, Qc_of_Z. cbn [this].
    etrans; [apply Qred_den_le|].
    change (- inject_Z n)%Q with (inject_Z (- n)). rewrite inject_Z_Qred.
    simpl. lia.
Qed.

Lemma Denominator_mul_int (x : Rational) (n : Z) :
    (Denominator (x * of_int n) <= Denominator x)%Z.
Proof.
    unfold Denominator, Qcmult, Q2Qc, of_int, Qc_of_Z. cbn [this].
    etrans; [apply Qred_den_le|]. simpl. lia.
Qed.

Lemma Denominator_frac (x : Rational) : (Denominator (frac x) <= Denominator x)%Z.
Proof. apply Denominator_sub_int. Qed.

Lemma frac_add_int (x : Rational) (n : Z) : frac (x + of_int n) = frac x.
Proof.
    unfold frac. rewrite floor_add_int, of_int_add. ring.
Qed.

Lemma make_ok (num den : Z) :
    den <> 0%Z -> make num den = Ok (of_int num / of_int den).
Proof.
    intros Hden. unfold make. rewrite decide_False by done. f_equal.
    apply Qc_is_canon. unfold Qcdiv, Qcinv, Qcmult, Q2Qc, of_int, Qc_of_Z.
    cbn [this]. rewrite !Qred_correct. reflexivity.
Qed.

(** Rebuilding a rational from its own components gives it back. *)
Lemma make_components (x : Rational) :
    make (Numerator x) (Denominator x) = Ok x.
Proof.
    unfold make, Numerator, Denominator. rewrite decide_False by done. f_equal.
    apply Qc_is_canon. unfold Q2Qc. cbn [this]. rewrite Qred_correct.
    destruct x as [[n d] Hx]. simpl. symmetry. apply Qmake_Qdiv.
Qed.

Lemma quot_ok (x y : Rational) : y <> Q2Qc 0 -> quot x y = Ok (x / y).
Proof. intros. unfold quot. by rewrite decide_False. Qed.

Lemma leb_le (x y : Rational) : leb x y = true <-> x <= y.
Proof. unfold leb. apply Qle_bool_iff. Qed.

Lemma ltb_lt (x y : Rational) : ltb x y = true <-> x < y.
Proof.
    unfold ltb. rewrite negb_true_iff, <- not_true_iff_false, Qle_bool_iff.
    unfold Qclt. split; [apply Qnot_le_lt | apply Qlt_not_le].
Qed.

End RationalFacts.

(** ** Machine integers *)

Lemma size_t_small (z : Z) : (0 <= z < 2 ^ 64)%Z -> size_t z = z.
Proof. intros. unfold size_t. by apply Z.mod_small. Qed.

Lemma int64_t_small (z : Z) : (- 2 ^ 63 <= z < 2 ^ 63)%Z -> int64_t z = z.
Proof. intros. unfold int64_t. rewrite Z.mod_small; lia. Qed.

Lemma ptrdiff_t_small (z : Z) : (- 2 ^ 63 <= z < 2 ^ 63)%Z -> ptrdiff_t z = z.
Proof. apply int64_t_small. Qed.

(** ** Phase selection *)

Module PhaseSelection.
Import Rational RationalFacts.
  Local Open Scope Qc_scope.

(** The scaled fractional position lies in [0, P). *)
Lemma scaled_frac_range (x : Rational) (P : Z) :
    (0 < P)%Z ->
    (0 <= floor (frac x * of_int P) < P)%Z.
Proof.
    intros HP.
    pose proof (frac_nonneg x) as H0. pose proof (frac_lt_1 x) as H1.
    pose proof (floor_le (frac x * of_int P)) as Hl.
    pose proof (floor_lt (frac x * of_int P)) as Hu.
    assert (of_int 0 < of_int P) as HP' by (apply -> of_int_lt; lia).
    rewrite of_int_0 in *. rewrite of_int_1 in *.
    assert (0 <= frac x * of_int P) as Hnn.
    { pose proof (Qcmult_le_compat_r _ _ (of_int P) H0 (Qclt_le_weak _ _ HP')) as Hm.
      by rewrite Qcmult_0_l in Hm. }
    assert (frac x * of_int P < of_int P) as Hlt.
    { pose proof (Qcmult_lt_compat_r _ _ (of_int P) HP' H1) as Hm.
      by rewrite Qcmult_1_l in Hm. }
    rewrite <- of_int_0 in *.
    split.
    - assert (of_int 0 < of_int (floor (frac x * of_int P) + 1)) as H2
        by (eapply Qcle_lt_trans; eauto).
      apply <- of_int_lt in H2. lia.
    - assert (of_int (floor (frac x * of_int P)) < of_int P) as H2
        by (eapply Qcle_lt_trans; eauto).
      by apply <- of_int_lt in H2.
Qed.

(** What [InputIndex2Sample] returns, with the conversions of the phases
      resolved: both phases lie below the phase count. *)
Lemma InputIndex2Sample_phases (x : Rational) (P : Z) :
    (1 <= P < 2 ^ 63)%Z ->
    let t := frac (frac x * of_int P) in
    let firstPhase := floor (frac x * of_int P) in
    let secondPhase := ((firstPhase + 1) mod P)%Z in
    InputIndex2Sample x P =
      Ok ({| inputIndex := size_t (floor x);
             phaseIndex := firstPhase;
             weight := size_t (Denominator t - Numerator t) |},
          {| inputIndex := if decide (secondPhase = 0)%Z
                           then size_t (size_t (floor x) + 1)
                           else size_t (floor x);
             phaseIndex := secondPhase;
             weight := size_t (Numerator t) |}).
Proof.
    intros HP t firstPhase secondPhase. unfold InputIndex2Sample.
    rewrite decide_False by lia.
    rewrite (int64_t_small P) by lia.
    pose proof (scaled_frac_range x P ltac:(lia)) as Hph.
    fold firstPhase in Hph |- *. fold t.
    rewrite (size_t_small firstPhase) by lia.
    rewrite (size_t_small (firstPhase + 1)) by lia.
    done.
Qed.

(** The weights as well, for a position whose denominator is a 64-bit
      value. *)
Lemma InputIndex2Sample_spec (x : Rational) (P : Z) :
    (1 <= P < 2 ^ 63)%Z -> (Denominator x < 2 ^ 63)%Z ->
    let t := frac (frac x * of_int P) in
    let firstPhase := floor (frac x * of_int P) in
    let secondPhase := ((firstPhase + 1) mod P)%Z in
    InputIndex2Sample x P =
      Ok ({| inputIndex := size_t (floor x);
             phaseIndex := firstPhase;
             weight := (Denominator t - Numerator t)%Z |},
          {| inputIndex := if decide (secondPhase = 0)%Z
                           then size_t (size_t (floor x) + 1)
                           else size_t (floor x);
             phaseIndex := secondPhase;
             weight := Numerator t |}).
Proof.
    intros HP Hx t firstPhase secondPhase.
    rewrite InputIndex2Sample_phases by done. cbv zeta. fold t.
    pose proof (Numerator_range t (frac_nonneg _) (frac_lt_1 _)) as Ht.
    assert (Denominator t <= Denominator x)%Z as Hden.
    { unfold t. etrans; [apply Denominator_frac|].
      etrans; [apply Denominator_mul_int|]. apply Denominator_frac. }
    rewrite (size_t_small (Numerator t)) by lia.
    rewrite (size_t_small (Denominator t - Numerator t)) by lia.
    done.
Qed.

(** The high-rate index of a position splits into the anchor sample and the
      phase. *)
Lemma floor_scaled (x : Rational) (P : Z) :
    floor (x * of_int P) = (floor x * P + floor (frac x * of_int P))%Z.
Proof.
    replace (x * of_int P) with (frac x * of_int P + of_int (floor x * P)).
    - rewrite floor_add_int. lia.
    - unfold frac. rewrite of_int_mul. ring.
Qed.

End PhaseSelection.

(** ** Resample: positions, phases and weights *)

Section ResamplePositions.
Context {T : Type} `{Scalar T}.
Import Rational RationalFacts PhaseSelection.
  Local Open Scope Qc_scope.

(** The rate change that [Resample] applies to an output position is a
      multiplication by [sampleRates]. *)
Lemma Resample_position_eq (sampleRates outputIndex : Rational) :
    Resample_position sampleRates outputIndex = Ok (outputIndex * sampleRates).
Proof.
    unfold Resample_position, ChangeSampleRate. by rewrite make_components.
Qed.

Lemma Resample_sample_unfold (input : list T) (polyphase : PolyphaseView T)
    (sampleRates outputIndex : Rational) :
    Resample_sample input polyphase sampleRates outputIndex =
      InputIndex2Sample (outputIndex * sampleRates) (Z.of_nat (FilterCount polyphase))
      ≫= fun '(firstSampleLoc, secondSampleLoc) =>
      DotProductSample input (phase polyphase (Z.to_nat (phaseIndex firstSampleLoc)))
        (inputIndex firstSampleLoc)
      ≫= fun firstSampleVal =>
      DotProductSample input (phase polyphase (Z.to_nat (phaseIndex secondSampleLoc)))
        (inputIndex secondSampleLoc)
      ≫= fun secondSampleVal =>
      Ok (blend firstSampleVal secondSampleVal
            (weight firstSampleLoc) (weight secondSampleLoc)).
Proof.
    unfold Resample_sample. by rewrite Resample_position_eq.
Qed.

(** The output loop stores, at offset [k] behind what was already written,
      the sample computed at the output position [outputIndex + k]. *)
Lemma Resample_loop_spec (input : list T) (polyphase : PolyphaseView T)
    (sampleRates : Rational) (todo written : list T) (outputIndex : Rational)
    (output' : list T) (next : Rational) :
    Resample_loop written todo input polyphase sampleRates outputIndex
      = (output', Ok next) ->
    exists stored,
      output' = written ++ stored
      /\ length stored = length todo
      /\ next = outputIndex + of_int (Z.of_nat (length todo))
      /\ forall k v, stored !! k = Some v ->
           Resample_sample input polyphase sampleRates
             (outputIndex + of_int (Z.of_nat k)) = Ok v.
Proof.
    revert written outputIndex.
    induction todo as [|old todo IH]; intros written outputIndex Hloop; simpl in Hloop.
    - inversion Hloop; subst. exists []. split_and!; try done.
      + by rewrite app_nil_r.
      + change (Z.of_nat (length (@nil T))) with 0%Z. rewrite of_int_0. ring.
    - destruct (Resample_sample input polyphase sampleRates outputIndex)
        as [v0|f] eqn:Hs; [|done].
      apply IH in Hloop as (stored & -> & Hlen & -> & Hk).
      exists (v0 :: stored). split_and!.
      + by rewrite <- app_assoc.
      + simpl. lia.
      + rewrite length_cons, Nat2Z.inj_succ, <- Z.add_1_l, of_int_add. ring.
      + intros [|k] v Hv; simpl in Hv.
        * inversion Hv; subst. change (Z.of_nat 0) with 0%Z. rewrite of_int_0.
          by replace (outputIndex + 0) with outputIndex by ring.
        * apply Hk in Hv. rewrite <- Hv. f_equal.
          rewrite Nat2Z.inj_succ, <- Z.add_1_l, of_int_add. ring.
Qed.

(** A successful call ran the contract checks, the loop and the
      continuation. *)
Lemma Resample_Ok_inv (output input : list T) (polyphase : PolyphaseView T)
    (sampleRates startPoint : Rational) (output' : list T) (tok : ContinuationParams) :
    Resample output input polyphase sampleRates startPoint = (output', Ok tok) ->
    Resample_contract output input polyphase sampleRates startPoint = Ok tt
    /\ exists next,
         Resample_loop [] output input polyphase sampleRates startPoint
           = (output', Ok next)
         /\ Continuation next (Z.of_nat (OriginalSize polyphase))
              (Z.of_nat (FilterCount polyphase)) sampleRates = Ok tok.
Proof.
    unfold Resample. intros Hr.
    destruct (Resample_contract _ _ _ _ _) as [[]|f]; [|done].
    split; [done|].
    destruct (Resample_loop _ _ _ _ _ _) as [out r]. inversion Hr; subst.
    destruct r as [next|f]; [|done]. by exists next.
Qed.

(** C3 (amended).  For every output sample that [Resample] stores, at
      output index [k] with absolute output position [startPoint + k], the
      input-domain position used to select the anchor input sample and the
      phases is the output position multiplied by [sampleRates]; the stored
      value is the blend of the two dot products taken at the locations
      derived from that position. *)
Theorem Resample_input_position (output input : list T)
    (polyphase : PolyphaseView T) (sampleRates startPoint : Rational)
    (output' : list T) (tok : ContinuationParams) (k : nat) (v : T) :
    Resample output input polyphase sampleRates startPoint = (output', Ok tok) ->
    output' !! k = Some v ->
    let outputIndex := startPoint + of_int (Z.of_nat k) in
    Resample_position sampleRates outputIndex = Ok (outputIndex * sampleRates)
    /\ exists firstSampleLoc secondSampleLoc firstSampleVal secondSampleVal,
         InputIndex2Sample (outputIndex * sampleRates)
           (Z.of_nat (FilterCount polyphase)) = Ok (firstSampleLoc, secondSampleLoc)
         /\ DotProductSample input
              (phase polyphase (Z.to_nat (phaseIndex firstSampleLoc)))
              (inputIndex firstSampleLoc) = Ok firstSampleVal
         /\ DotProductSample input
              (phase polyphase (Z.to_nat (phaseIndex secondSampleLoc)))
              (inputIndex secondSampleLoc) = Ok secondSampleVal
         /\ v = blend firstSampleVal secondSampleVal
                  (weight firstSampleLoc) (weight secondSampleLoc).
Proof.
    intros Hr Hk outputIndex. split; [apply Resample_position_eq|].
    apply Resample_Ok_inv in Hr as (_ & next & Hloop & _).
    apply Resample_loop_spec in Hloop as (stored & -> & _ & _ & Hstored).
    simpl in Hk. apply Hstored in Hk. fold outputIndex in Hk.
    rewrite Resample_sample_unfold in Hk.
    destruct (InputIndex2Sample _ _) as [[l1 l2]|] eqn:Hl; [|done].
    simpl in Hk.
    destruct (DotProductSample input _ (inputIndex l1)) as [v1|] eqn:H1; [|done].
    simpl in Hk.
    destruct (DotProductSample input _ (inputIndex l2)) as [v2|] eqn:H2; [|done].
    simpl in Hk. inversion Hk; subst.
    by exists l1, l2, v1, v2.
Qed.

(** C4 (amended).  For every input position and every phase count of at
      least 1 (both 64-bit values), the two polyphase candidates are adjacent,
      [secondPhase = (firstPhase + 1) mod P]; their integer weights are the
      numerator of [t = frac(frac(inputIndex) * P)] in lowest terms and its
      complement to the denominator, so they add up to the denominator of [t];
      and the output sample is the weighted average of the two dot products,
      normalised by the sum of the two weights. *)
Theorem InputIndex2Sample_candidates (input : list T) (polyphase : PolyphaseView T)
    (sampleRates outputIndex : Rational) :
    let P := Z.of_nat (FilterCount polyphase) in
    let inputIndex_ := outputIndex * sampleRates in
    let t := frac (frac inputIndex_ * of_int P) in
    (1 <= P < 2 ^ 63)%Z -> (Denominator inputIndex_ < 2 ^ 63)%Z ->
    exists firstSampleLoc secondSampleLoc,
      InputIndex2Sample inputIndex_ P = Ok (firstSampleLoc, secondSampleLoc)
      /\ (0 <= phaseIndex firstSampleLoc < P)%Z
      /\ phaseIndex secondSampleLoc = ((phaseIndex firstSampleLoc + 1) mod P)%Z
      /\ weight secondSampleLoc = Numerator t
      /\ (0 <= weight secondSampleLoc < Denominator t)%Z
      /\ (weight firstSampleLoc + weight secondSampleLoc)%Z = Denominator t
      /\ Resample_sample input polyphase sampleRates outputIndex =
           DotProductSample input
             (phase polyphase (Z.to_nat (phaseIndex firstSampleLoc)))
             (inputIndex firstSampleLoc)
           ≫= fun firstSampleVal =>
           DotProductSample input
             (phase polyphase (Z.to_nat (phaseIndex secondSampleLoc)))
             (inputIndex secondSampleLoc)
           ≫= fun secondSampleVal =>
           Ok (div (add (mul firstSampleVal (of_weight (weight firstSampleLoc)))
                        (mul secondSampleVal (of_weight (weight secondSampleLoc))))
                   (add (of_weight (weight firstSampleLoc))
                        (of_weight (weight secondSampleLoc)))).
Proof.
    intros P inputIndex_ t HP Hden.
    pose proof (InputIndex2Sample_spec inputIndex_ P HP Hden) as Hspec.
    cbv zeta in Hspec. fold t in Hspec.
    pose proof (Numerator_range t (frac_nonneg _) (frac_lt_1 _)) as Ht.
    pose proof (scaled_frac_range inputIndex_ P ltac:(lia)) as Hph.
    eexists _, _. split; [exact Hspec|]. cbn [phaseIndex weight inputIndex].
    split_and!; try done; try lia.
    rewrite Resample_sample_unfold. fold inputIndex_ P. rewrite Hspec. done.
Qed.

End ResamplePositions.

Section PhaseSelectionClaims.
Import Rational RationalFacts PhaseSelection.
  Local Open Scope Qc_scope.

(** C10.  For every input position that the output loop of [Resample]
      passes to [InputIndex2Sample] (a 64-bit rational, with a phase count of
      at least 1), the two weights are non-negative and their sum, the divisor
      of the blend, is the denominator of the reduced scaled fractional
      position and therefore at least 1; for integer samples the divisor of
      the blend is that positive number. *)
Theorem weights_sum_positive (inputIndex_ : Rational) (P : Z) :
    (1 <= P < 2 ^ 63)%Z -> (Denominator inputIndex_ < 2 ^ 63)%Z ->
    exists firstSampleLoc secondSampleLoc,
      InputIndex2Sample inputIndex_ P = Ok (firstSampleLoc, secondSampleLoc)
      /\ (0 <= weight firstSampleLoc)%Z
      /\ (0 <= weight secondSampleLoc)%Z
      /\ (weight firstSampleLoc + weight secondSampleLoc)%Z
         = Denominator (frac (frac inputIndex_ * of_int P))
      /\ (1 <= weight firstSampleLoc + weight secondSampleLoc)%Z
      /\ (1 <= add (of_weight (weight firstSampleLoc))
                  (of_weight (weight secondSampleLoc)))%Z.
Proof.
    intros HP Hden.
    pose proof (InputIndex2Sample_spec inputIndex_ P HP Hden) as Hspec.
    cbv zeta in Hspec.
    pose proof (Numerator_range (frac (frac inputIndex_ * of_int P))
                  (frac_nonneg _) (frac_lt_1 _)) as Ht.
    eexists _, _. split; [exact Hspec|]. cbn [weight add of_weight Z_Scalar].
    lia.
Qed.

Lemma weights_sum_positive_witness :
    exists firstSampleLoc secondSampleLoc,
      InputIndex2Sample (Q2Qc (7 # 3)) 4 = Ok (firstSampleLoc, secondSampleLoc)
      /\ (0 <= weight firstSampleLoc)%Z
      /\ (0 <= weight secondSampleLoc)%Z
      /\ (weight firstSampleLoc + weight secondSampleLoc)%Z
         = Denominator (frac (frac (Q2Qc (7 # 3)) * of_int 4))
      /\ (1 <= weight firstSampleLoc + weight secondSampleLoc)%Z
      /\ (1 <= add (of_weight (weight firstSampleLoc))
                  (of_weight (weight secondSampleLoc)))%Z.
Proof.
    apply (weights_sum_positive (Q2Qc (7 # 3)) 4); [lia | vm_compute; reflexivity].
Defined.

(** C4, as stated, fails: at the input position 0 with two phases the
      weights are 1 and 0, and their sum is 1, not the phase count. *)
Lemma weights_sum_is_not_phase_count :
    ~ (forall (inputIndex_ : Rational) (P : Z) (firstSampleLoc secondSampleLoc : PhaseSample),
         (1 <= P)%Z ->
         InputIndex2Sample inputIndex_ P = Ok (firstSampleLoc, secondSampleLoc) ->
         phaseIndex secondSampleLoc = ((phaseIndex firstSampleLoc + 1) mod P)%Z
         /\ (weight firstSampleLoc + weight secondSampleLoc)%Z = P).
Proof.
    intros Hclaim.
    destruct (Hclaim (of_int 0) 2%Z
                {| inputIndex := 0; phaseIndex := 0; weight := 1 |}
                {| inputIndex := 0; phaseIndex := 1; weight := 0 |}
                ltac:(lia) eq_refl) as [_ Hsum].
    discriminate Hsum.
Qed.

(** C3, as stated, fails: with [sampleRates = 2] the output position 1 is
      mapped to the input position 2, not to 1/2. *)
Lemma position_is_not_divided_by_sampleRates :
    ~ (forall sampleRates outputIndex : Rational,
         0 < sampleRates ->
         Resample_position sampleRates outputIndex = Ok (outputIndex / sampleRates)).
Proof.
    intros Hclaim.
    specialize (Hclaim (of_int 2) (of_int 1) eq_refl).
    rewrite Resample_position_eq in Hclaim.
    inversion Hclaim.
Qed.

End PhaseSelectionClaims.

Lemma Resample_input_position_witness :
  Resample_position (Q2Qc (2 # 3)) (Q2Qc 0 + Rational.of_int 2)%Qc
    = Ok ((Q2Qc 0 + Rational.of_int 2) * Q2Qc (2 # 3))%Qc
  /\ exists firstSampleLoc secondSampleLoc firstSampleVal secondSampleVal,
       InputIndex2Sample ((Q2Qc 0 + Rational.of_int 2) * Q2Qc (2 # 3))%Qc 2
         = Ok (firstSampleLoc, secondSampleLoc)
       /\ DotProductSample example_input
            (phase example_bank (Z.to_nat (phaseIndex firstSampleLoc)))
            (inputIndex firstSampleLoc) = Ok firstSampleVal
       /\ DotProductSample example_input
            (phase example_bank (Z.to_nat (phaseIndex secondSampleLoc)))
            (inputIndex secondSampleLoc) = Ok secondSampleVal
       /\ 70%Z = blend firstSampleVal secondSampleVal
                   (weight firstSampleLoc) (weight secondSampleLoc).
Proof.
  eapply (Resample_input_position (T := Z) [0; 0; 0; 0]%Z example_input example_bank
            (Q2Qc (2 # 3)) (Q2Qc 0) _ _ 2 70%Z).
  - vm_compute. reflexivity.
  - reflexivity.
Defined.

Lemma InputIndex2Sample_candidates_witness :
  exists firstSampleLoc secondSampleLoc,
    InputIndex2Sample (Q2Qc (7 # 2) * Q2Qc (2 # 3))%Qc 2
      = Ok (firstSampleLoc, secondSampleLoc)
    /\ (0 <= phaseIndex firstSampleLoc < 2)%Z
    /\ phaseIndex secondSampleLoc = ((phaseIndex firstSampleLoc + 1) mod 2)%Z
    /\ weight secondSampleLoc
       = Rational.Numerator
           (Rational.frac (Rational.frac (Q2Qc (7 # 2) * Q2Qc (2 # 3))
                           * Rational.of_int 2))%Qc
    /\ (0 <= weight secondSampleLoc
         < Rational.Denominator
             (Rational.frac (Rational.frac (Q2Qc (7 # 2) * Q2Qc (2 # 3))
                             * Rational.of_int 2))%Qc)%Z
    /\ (weight firstSampleLoc + weight secondSampleLoc)%Z
       = Rational.Denominator
           (Rational.frac (Rational.frac (Q2Qc (7 # 2) * Q2Qc (2 # 3))
                           * Rational.of_int 2))%Qc
    /\ Resample_sample example_input example_bank (Q2Qc (2 # 3)) (Q2Qc (7 # 2)) =
         DotProductSample example_input
           (phase example_bank (Z.to_nat (phaseIndex firstSampleLoc)))
           (inputIndex firstSampleLoc)
         ≫= fun firstSampleVal =>
         DotProductSample example_input
           (phase example_bank (Z.to_nat (phaseIndex secondSampleLoc)))
           (inputIndex secondSampleLoc)
         ≫= fun secondSampleVal =>
         Ok (div (add (mul firstSampleVal (of_weight (weight firstSampleLoc)))
                      (mul secondSampleVal (of_weight (weight secondSampleLoc))))
                 (add (of_weight (weight firstSampleLoc))
                      (of_weight (weight secondSampleLoc)))).
Proof.
  apply (InputIndex2Sample_candidates (T := Z) example_input example_bank
           (Q2Qc (2 # 3)) (Q2Qc (7 # 2))).
  - simpl. lia.
  - vm_compute. reflexivity.
Defined.

(** ** Resample: the dot-product windows *)

Section Windows.
Context {T : Type} `{Scalar T}.
Import Rational RationalFacts PhaseSelection.

Lemma SubSignal_ok (s : list T) (offset count : Z) :
    (0 <= offset)%Z -> (0 <= count)%Z -> (offset + count <= Z.of_nat (length s))%Z ->
    SubSignal s offset count = Ok (take (Z.to_nat count) (drop (Z.to_nat offset) s)).
Proof. intros. unfold SubSignal. by rewrite decide_True. Qed.

(** [DotProductSample] with its conversions resolved, for an index and
      buffers far below the 64-bit range. *)
Lemma DotProductSample_eq (input filter : list T) (inputReverseFirst : Z) :
    (0 <= inputReverseFirst < 2 ^ 62)%Z ->
    (Z.of_nat (length filter) < 2 ^ 62)%Z ->
    (Z.of_nat (length input) < 2 ^ 62)%Z ->
    let desiredFirst := (inputReverseFirst - Z.of_nat (length filter) + 1)%Z in
    let possibleFirst := Z.max 0 desiredFirst in
    let possibleLast := Z.min (Z.of_nat (length input)) (inputReverseFirst + 1) in
    DotProductSample input filter inputReverseFirst =
      if decide (possibleFirst <= possibleLast)%Z then
        Ok (DotProduct
              (take (Z.to_nat (possibleLast - possibleFirst))
                 (drop (Z.to_nat possibleFirst) input))
              (take (Z.to_nat (possibleLast - possibleFirst))
                 (drop (Z.to_nat (possibleFirst - desiredFirst)) filter)))
      else Fault AssertionFailure.
Proof.
    intros Hidx Hf Hi desiredFirst possibleFirst possibleLast.
    unfold DotProductSample. cbv zeta.
    rewrite (ptrdiff_t_small inputReverseFirst) by lia.
    rewrite (ptrdiff_t_small (_ - _ + 1)) by lia.
    rewrite (ptrdiff_t_small (Z.of_nat (length input))) by lia.
    fold desiredFirst. fold possibleFirst. fold possibleLast.
    case_decide as Hc.
    - rewrite assert_true by (apply bool_decide_eq_true; lia).
      rewrite bind_Ok.
      rewrite (size_t_small possibleFirst) by lia.
      rewrite (size_t_small (possibleLast - possibleFirst)) by lia.
      rewrite (size_t_small (possibleFirst - desiredFirst)) by lia.
      rewrite !SubSignal_ok by lia. done.
    - rewrite assert_false by (apply bool_decide_eq_false; lia). done.
Qed.

(** Dropping [w] leading input samples and lowering the index by [w] does
      not change the sample, provided the window starts at or after [w]. *)
Lemma DotProductSample_shift (input filter : list T) (inputReverseFirst w : Z) :
    (0 <= w <= Z.of_nat (length input))%Z ->
    (w <= inputReverseFirst - Z.of_nat (length filter) + 1)%Z ->
    (w <= inputReverseFirst < 2 ^ 62)%Z ->
    (Z.of_nat (length filter) < 2 ^ 62)%Z ->
    (Z.of_nat (length input) < 2 ^ 62)%Z ->
    DotProductSample (drop (Z.to_nat w) input) filter (inputReverseFirst - w)
    = DotProductSample input filter inputReverseFirst.
Proof.
    intros Hw Hwin Hidx Hf Hi.
    rewrite !DotProductSample_eq by (rewrite ?length_drop; lia).
    cbv zeta. rewrite length_drop.
    replace (Z.of_nat (length input - Z.to_nat w)) with (Z.of_nat (length input) - w)%Z
      by lia.
    repeat case_decide; try lia; try done; [].
    f_equal. f_equal.
    - rewrite drop_drop. f_equal; [lia|]. f_equal. lia.
    - f_equal; [lia|]. f_equal. lia.
Qed.

Lemma length_phase (polyphase : PolyphaseView T) (i : nat) :
    length (phase polyphase i)
    = phase_taps (OriginalSize polyphase) (FilterCount polyphase) i.
Proof. unfold phase. by rewrite length_fmap, length_reverse, length_seq. Qed.

(** Tap [j] of phase [i], counted from the back, is tap [i + j * P] of the
      filter. *)
Lemma lookup_phase (polyphase : PolyphaseView T) (i j : nat) :
    (j < phase_taps (OriginalSize polyphase) (FilterCount polyphase) i)%nat ->
    phase polyphase i !! j
    = Some (default zero
              (bufferView polyphase
                 !! (i + (phase_taps (OriginalSize polyphase) (FilterCount polyphase) i
                          - 1 - j) * FilterCount polyphase)%nat)).
Proof.
    intros Hj. unfold phase. rewrite list_lookup_fmap.
    rewrite reverse_lookup by (rewrite length_seq; lia).
    rewrite length_seq, lookup_seq_lt by lia. simpl. do 4 f_equal. lia.
Qed.

End Windows.

(** ** Resample: the windows stay inside the contract *)

Section WindowBounds.

Lemma phase_taps_Z (F P : nat) (p : Z) :
    (0 < P)%nat -> (0 <= p)%Z ->
    Z.of_nat (phase_taps F P (Z.to_nat p)) =
      if decide (p < Z.of_nat F)%Z
      then ((Z.of_nat F - 1 - p) / Z.of_nat P + 1)%Z else 0%Z.
Proof.
    intros HP Hp. unfold phase_taps.
    destruct (decide (Z.to_nat p < F)%nat); case_decide; try lia.
    rewrite Nat2Z.inj_add, Nat2Z.inj_div. do 2 f_equal. lia.
Qed.

(** A high-rate index inside the full convolution has a window that starts
      at or before the end of the input. *)
Lemma window_upper (N F P : nat) (idx p : Z) :
    (0 <= p < Z.of_nat P)%Z ->
    (idx * Z.of_nat P + p <= Z.of_nat N * Z.of_nat P + Z.of_nat F - 1)%Z ->
    (idx - Z.of_nat (phase_taps F P (Z.to_nat p)) + 1 <= Z.of_nat N)%Z.
Proof.
    intros Hp Hidx. rewrite phase_taps_Z by lia. case_decide.
    - assert (idx - Z.of_nat N <= (Z.of_nat F - 1 - p) / Z.of_nat P)%Z; [|lia].
      apply Z.div_le_lower_bound; lia.
    - nia.
Qed.

(** A high-rate index at least [F - 1] beyond the high-rate index of input
      sample [w] has a window that starts at or after [w]. *)
Lemma window_lower (F P : nat) (idx p w : Z) :
    (1 <= F)%nat -> (0 <= p < Z.of_nat P)%Z ->
    (w * Z.of_nat P + Z.of_nat F - 1 <= idx * Z.of_nat P + p)%Z ->
    (w <= idx - Z.of_nat (phase_taps F P (Z.to_nat p)) + 1)%Z /\ (w <= idx)%Z.
Proof.
    intros HF Hp Hidx. rewrite phase_taps_Z by lia. case_decide.
    - assert ((Z.of_nat F - 1 - p) / Z.of_nat P <= idx - w)%Z; [|split; nia].
      apply Z.div_le_upper_bound; lia.
    - split; nia.
Qed.

Lemma phase_taps_le (F P i : nat) : (phase_taps F P i <= F)%nat.
Proof.
    unfold phase_taps. case_decide; [|lia].
    destruct P as [|P]; [simpl; lia|].
    pose proof (Nat.Div0.div_le_upper_bound (F - 1 - i) (S P) (F - 1 - i)) as Hd.
    assert ((F - 1 - i) / S P <= F - 1 - i)%nat by (apply Hd; nia).
    lia.
Qed.

End WindowBounds.

Section SampleSafety.
Context {T : Type} `{Scalar T}.
Import Rational RationalFacts PhaseSelection.
  Local Open Scope Qc_scope.

Lemma floor_nonneg (x : Rational) : of_int 0 <= x -> (0 <= floor x)%Z.
Proof.
    intros Hx. pose proof (floor_lt x) as Hlt.
    assert (of_int 0 < of_int (floor x + 1)) as H0 by (eapply Qcle_lt_trans; eauto).
    apply <- of_int_lt in H0. lia.
Qed.

Lemma floor_lt_int (x : Rational) (n : Z) : x < of_int n -> (floor x < n)%Z.
Proof.
    intros Hx. pose proof (floor_le x) as Hle.
    assert (of_int (floor x) < of_int n) as H0 by (eapply Qcle_lt_trans; eauto).
    by apply <- of_int_lt in H0.
Qed.

Lemma floor_ge_int (x : Rational) (n : Z) : of_int n <= x -> (n <= floor x)%Z.
Proof.
    intros Hx. pose proof (floor_lt x) as Hlt.
    assert (of_int n < of_int (floor x + 1)) as H0 by (eapply Qcle_lt_trans; eauto).
    apply <- of_int_lt in H0. lia.
Qed.

(** The second candidate is the next high-rate index. *)
Lemma second_location (P idx firstPhase : Z) :
    (0 <= firstPhase < P)%Z ->
    let secondPhase := ((firstPhase + 1) mod P)%Z in
    let idx2 := if decide (secondPhase = 0)%Z then (idx + 1)%Z else idx in
    (0 <= secondPhase < P)%Z
    /\ (idx2 * P + secondPhase = idx * P + firstPhase + 1)%Z
    /\ (idx <= idx2 <= idx + 1)%Z.
Proof.
    intros Hp secondPhase idx2. subst secondPhase idx2.
    destruct (decide (firstPhase + 1 = P)%Z) as [Heq|Hne].
    - rewrite Heq, Z.mod_same by lia. rewrite decide_True by done. lia.
    - rewrite Z.mod_small by lia. rewrite decide_False by lia. lia.
Qed.

(** A sample whose position lies inside the contract is computed without
      a failing check. *)
Lemma Resample_sample_defined (input : list T) (polyphase : PolyphaseView T)
    (sampleRates outputIndex : Rational) :
    let N := Z.of_nat (length input) in
    let F := Z.of_nat (OriginalSize polyphase) in
    let P := Z.of_nat (FilterCount polyphase) in
    (1 <= P < 2 ^ 62)%Z -> (N + F < 2 ^ 61)%Z ->
    of_int 0 <= outputIndex * sampleRates ->
    outputIndex * sampleRates * of_int P < of_int (N * P + F - 1) ->
    exists v, Resample_sample input polyphase sampleRates outputIndex = Ok v.
Proof.
    intros N F P HP Hsize Hpos Hlt.
    rewrite Resample_sample_unfold. fold P.
    rewrite InputIndex2Sample_phases by lia. cbv zeta. simpl.
    set (pos := outputIndex * sampleRates) in *.
    pose proof (floor_nonneg pos Hpos) as Hidx0.
    pose proof (floor_lt_int _ _ Hlt) as HH. rewrite floor_scaled in HH.
    pose proof (scaled_frac_range pos P ltac:(lia)) as Hfp.
    set (idx := floor pos) in *. set (fp := floor (frac pos * of_int P)) in *.
    destruct (second_location P idx fp Hfp) as (Hsp & Hidx2 & Hrange).
    cbv zeta in Hsp, Hidx2, Hrange.
    set (sp := ((fp + 1) mod P)%Z) in *.
    assert (idx < N + F)%Z as Hidx by nia.
    rewrite (size_t_small idx) by lia. rewrite (size_t_small (idx + 1)) by lia.
    set (idx2 := if decide (sp = 0%Z) then (idx + 1)%Z else idx) in *.
    assert (Z.of_nat (length input) = N) as HN by done.
    assert (Z.of_nat (OriginalSize polyphase) = F) as HF by done.
    pose proof (phase_taps_le (OriginalSize polyphase) (FilterCount polyphase)
                  (Z.to_nat fp)) as Hl1.
    pose proof (phase_taps_le (OriginalSize polyphase) (FilterCount polyphase)
                  (Z.to_nat sp)) as Hl2.
    pose proof (window_upper (length input) (OriginalSize polyphase)
                  (FilterCount polyphase) idx fp Hfp ltac:(fold N F P; lia)) as Hw1.
    pose proof (window_upper (length input) (OriginalSize polyphase)
                  (FilterCount polyphase) idx2 sp Hsp ltac:(fold N F P; lia)) as Hw2.
    rewrite (DotProductSample_eq input (phase polyphase (Z.to_nat fp)) idx)
      by (rewrite ?length_phase; lia).
    cbv zeta. rewrite length_phase. rewrite decide_True by lia. simpl.
    rewrite (DotProductSample_eq input (phase polyphase (Z.to_nat sp)) idx2)
      by (rewrite ?length_phase; lia).
    cbv zeta. rewrite length_phase. rewrite decide_True by lia. simpl.
    eauto.
Qed.

(** Dropping [w] whole input samples and moving the position back by [w]
      gives the same sample, when the position lies at least the filter
      length behind [w]. *)
Lemma Resample_sample_shift (input : list T) (polyphase : PolyphaseView T)
    (sampleRates outputIndex outputIndex' : Rational) (w : Z) :
    let N := Z.of_nat (length input) in
    let F := Z.of_nat (OriginalSize polyphase) in
    let P := Z.of_nat (FilterCount polyphase) in
    (1 <= P < 2 ^ 62)%Z -> (1 <= F)%Z -> (N + F < 2 ^ 61)%Z -> (0 <= w <= N)%Z ->
    outputIndex' * sampleRates = outputIndex * sampleRates + of_int (- w) ->
    of_int (w * P + F - 1) <= outputIndex * sampleRates * of_int P ->
    outputIndex * sampleRates * of_int P < of_int (N * P + F - 1) ->
    Resample_sample (drop (Z.to_nat w) input) polyphase sampleRates outputIndex'
    = Resample_sample input polyphase sampleRates outputIndex.
Proof.
    intros N F P HP HF1 Hsize Hw Heq Hlow Hlt.
    rewrite !Resample_sample_unfold. fold P. rewrite Heq.
    rewrite !InputIndex2Sample_phases by lia. cbv zeta.
    rewrite frac_add_int, floor_add_int. simpl.
    set (pos := outputIndex * sampleRates) in *.
    pose proof (floor_lt_int _ _ Hlt) as HH. rewrite floor_scaled in HH.
    pose proof (floor_ge_int _ _ Hlow) as HL. rewrite floor_scaled in HL.
    pose proof (scaled_frac_range pos P ltac:(lia)) as Hfp.
    set (idx := floor pos) in *. set (fp := floor (frac pos * of_int P)) in *.
    destruct (second_location P idx fp Hfp) as (Hsp & Hidx2 & Hrange).
    cbv zeta in Hsp, Hidx2, Hrange.
    set (sp := ((fp + 1) mod P)%Z) in *.
    assert (idx < N + F)%Z as Hidx by nia.
    assert (Z.of_nat (length input) = N) as HN by done.
    assert (Z.of_nat (OriginalSize polyphase) = F) as HF by done.
    pose proof (phase_taps_le (OriginalSize polyphase) (FilterCount polyphase)
                  (Z.to_nat fp)) as Hl1.
    pose proof (phase_taps_le (OriginalSize polyphase) (FilterCount polyphase)
                  (Z.to_nat sp)) as Hl2.
    destruct (window_lower (OriginalSize polyphase) (FilterCount polyphase)
                idx fp w ltac:(lia) Hfp ltac:(fold F P; lia)) as [Hw1 Hw1'].
    rewrite (size_t_small idx) by lia. rewrite (size_t_small (idx + 1)) by lia.
    rewrite (size_t_small (idx + - w)) by lia.
    rewrite (size_t_small (idx + - w + 1)) by lia.
    set (idx2 := if decide (sp = 0%Z) then (idx + 1)%Z else idx) in *.
    destruct (window_lower (OriginalSize polyphase) (FilterCount polyphase)
                idx2 sp w ltac:(lia) Hsp ltac:(fold F P; lia)) as [Hw2 Hw2'].
    replace (if decide (sp = 0%Z) then (idx + - w + 1)%Z else (idx + - w)%Z)
      with (idx2 - w)%Z by (unfold idx2; case_decide; lia).
    replace (idx + - w)%Z with (idx - w)%Z by lia.
    rewrite (DotProductSample_shift input (phase polyphase (Z.to_nat fp)) idx w)
      by (rewrite ?length_phase; lia).
    destruct (DotProductSample input (phase polyphase (Z.to_nat fp)) idx); [|done].
    simpl.
    rewrite (DotProductSample_shift input (phase polyphase (Z.to_nat sp)) idx2 w)
      by (rewrite ?length_phase; lia).
    done.
Qed.

End SampleSafety.

(** ** Resample: contract and continuation *)

Module ContractFacts.
Import Rational RationalFacts.
  Local Open Scope Qc_scope.

Lemma of_int_pos (n : Z) : (0 < n)%Z -> 0 < of_int n.
Proof. intros. rewrite <- of_int_0. by apply -> of_int_lt. Qed.

Lemma pos_nonzero (x : Rational) : 0 < x -> x <> 0.
Proof. intros Hx ->. by apply Qclt_not_eq in Hx. Qed.

(** [a < m / r / p] is [a * r * p < m] for positive [r] and [p]. *)
Lemma lt_quotients (a m r p : Rational) :
    0 < r -> 0 < p -> a < m / r / p <-> a * r * p < m.
Proof.
    intros Hr Hp.
    assert (0 < r * p) as Hrp.
    { pose proof (Qcmult_lt_compat_r _ _ p Hp Hr) as Hm. by rewrite Qcmult_0_l in Hm. }
    rewrite (Qcmult_lt_mono_pos_r a (m / r / p) (r * p) Hrp).
    replace (m / r / p * (r * p)) with m
      by (field; split; by apply pos_nonzero).
    by replace (a * (r * p)) with (a * r * p) by ring.
Qed.

Lemma components (r : Rational) : r = of_int (Numerator r) / of_int (Denominator r).
Proof.
    pose proof (make_components r) as Hm.
    rewrite make_ok in Hm by (pose proof (Denominator_pos r); lia).
    congruence.
Qed.

Lemma Numerator_nonzero (r : Rational) : r <> 0 -> Numerator r <> 0%Z.
Proof.
    intros Hr Hnum. apply Hr. rewrite (components r), Hnum, of_int_0.
    unfold Qcdiv. apply Qcmult_0_l.
Qed.

(** The rate change from the input domain back to the output domain is a
      division by [sampleRates]. *)
Lemma ChangeSampleRate_to_output (sampleRates sample : Rational) :
    sampleRates <> 0 ->
    ChangeSampleRate (Numerator sampleRates) (Denominator sampleRates) sample
    = Ok (sample / sampleRates).
Proof.
    intros Hr. unfold ChangeSampleRate.
    pose proof (Numerator_nonzero _ Hr) as Hnum.
    rewrite make_ok by done. simpl. f_equal.
    rewrite (components sampleRates) at 3.
    assert (of_int (Numerator sampleRates) <> 0) as Hn.
    { rewrite <- of_int_0. intros Heq. apply (f_equal floor) in Heq.
      by rewrite !floor_of_int in Heq. }
    assert (of_int (Denominator sampleRates) <> 0) as Hd.
    { apply pos_nonzero, of_int_pos, Denominator_pos. }
    field. done.
Qed.

End ContractFacts.

Section ContractAndLoop.
Context {T : Type} `{Scalar T}.
Import Rational RationalFacts PhaseSelection ContractFacts.
  Local Open Scope Qc_scope.

Lemma ResamplingLength_eq (N F P : Z) (sampleRates : Rational) :
    0 < sampleRates -> (1 <= P)%Z -> (1 <= F)%Z -> (0 <= N)%Z ->
    ((N + 1) * P + F < 2 ^ 61)%Z ->
    ResamplingLength N F P sampleRates
    = Ok (of_int (N * P + F - 1) / sampleRates / of_int P).
Proof.
    intros Hr HP HF HN Hsize. unfold ResamplingLength.
    rewrite (int64_t_small P) by nia.
    rewrite (int64_t_small (P * N)) by nia.
    unfold ConvolutionLength.
    rewrite (size_t_small (P * N + F - 1)) by nia.
    rewrite (int64_t_small (P * N + F - 1)) by nia.
    rewrite quot_ok by by apply pos_nonzero. simpl.
    rewrite quot_ok by (apply pos_nonzero, of_int_pos; lia).
    by rewrite (Z.mul_comm P N).
Qed.

(** The contract of [Resample] for a positive rate: the start point is not
      negative and the position after the last output, scaled to the high
      rate, lies inside the full convolution. *)
Lemma Resample_contract_iff (output input : list T) (polyphase : PolyphaseView T)
    (sampleRates startPoint : Rational) :
    let N := Z.of_nat (length input) in
    let F := Z.of_nat (OriginalSize polyphase) in
    let P := Z.of_nat (FilterCount polyphase) in
    0 < sampleRates -> (1 <= P)%Z -> (1 <= F)%Z ->
    ((N + 1) * P + F < 2 ^ 61)%Z ->
    (Z.of_nat (length output) < 2 ^ 63)%Z ->
    Resample_contract output input polyphase sampleRates startPoint = Ok tt
    <-> (of_int 0 <= startPoint
         /\ (startPoint + of_int (Z.of_nat (length output))) * sampleRates * of_int P
            < of_int (N * P + F - 1)).
Proof.
    intros N F P Hr HP HF Hsize Hout. unfold Resample_contract.
    rewrite (assert_true (leb _ sampleRates))
      by (apply leb_le; rewrite of_int_0; by apply Qclt_le_weak).
    rewrite bind_Ok.
    rewrite (assert_true (bool_decide _)) by (apply bool_decide_eq_true; lia).
    fold N F P. rewrite ResamplingLength_eq by (done || lia).
    rewrite (int64_t_small (Z.of_nat (length output))) by lia.
    rewrite <- lt_quotients by (done || (apply of_int_pos; lia)).
    rewrite <- leb_le, <- ltb_lt.
    destruct (leb (of_int 0) startPoint); simpl; [|split; [done|by intros []]].
    destruct (ltb _ _); simpl; [done|]. split; [done|by intros []].
Qed.

(** When every sample is computed, the loop stores them all. *)
Lemma Resample_loop_samples (input : list T) (polyphase : PolyphaseView T)
    (sampleRates : Rational) (todo : list T) :
    forall (f : nat -> T) (written : list T) (outputIndex : Rational),
    (forall k, (k < length todo)%nat ->
       Resample_sample input polyphase sampleRates
         (outputIndex + of_int (Z.of_nat k)) = Ok (f k)) ->
    Resample_loop written todo input polyphase sampleRates outputIndex
    = (written ++ (f <$> seq 0 (length todo)),
       Ok (outputIndex + of_int (Z.of_nat (length todo)))).
Proof.
    induction todo as [|old todo IH]; intros f written outputIndex Hf.
    - simpl. rewrite app_nil_r. do 2 f_equal.
      change (Z.of_nat 0) with 0%Z. rewrite of_int_0. ring.
    - cbn [Resample_loop].
      pose proof (Hf 0%nat ltac:(simpl; lia)) as H0.
      change (Z.of_nat 0) with 0%Z in H0. rewrite of_int_0 in H0.
      replace (outputIndex + 0) with outputIndex in H0 by ring.
      rewrite H0.
      rewrite (IH (fun k => f (S k))).
      + rewrite <- app_assoc. cbn [length seq fmap list_fmap app].
        rewrite <- fmap_S_seq, <- list_fmap_compose. do 2 f_equal.
        rewrite Nat2Z.inj_succ, <- Z.add_1_l, of_int_add. ring.
      + intros k Hk. rewrite <- (Hf (S k)) by (simpl; lia). f_equal.
        rewrite Nat2Z.inj_succ, <- Z.add_1_l, of_int_add. ring.
Qed.

Lemma Continuation_eq (nextOutputSample : Rational) (F P : Z)
    (sampleRates : Rational) :
    0 < sampleRates -> (1 <= P < 2 ^ 63)%Z -> (1 <= F < 2 ^ 63)%Z ->
    let convolutionOffset := of_int (F - 1) / of_int P in
    let firstInputSample_ := nextOutputSample * sampleRates - convolutionOffset in
    Continuation nextOutputSample F P sampleRates =
      if leb firstInputSample_ (of_int 0)
      then Ok {| firstInputSample := 0; startPoint := nextOutputSample |}
      else Ok {| firstInputSample := size_t (floor firstInputSample_);
                 startPoint :=
                   (frac firstInputSample_ + convolutionOffset) / sampleRates |}.
Proof.
    intros Hr HP HF convolutionOffset firstInputSample_. unfold Continuation.
    fold (Resample_position sampleRates nextOutputSample).
    rewrite Resample_position_eq, bind_Ok.
    rewrite !int64_t_small by lia.
    rewrite make_ok by lia. rewrite bind_Ok.
    fold convolutionOffset. fold firstInputSample_.
    destruct (leb firstInputSample_ (of_int 0)); [done|].
    rewrite ChangeSampleRate_to_output by by apply pos_nonzero.
    done.
Qed.

End ContractAndLoop.

(** ** Resample: streaming continuity *)

Module StreamingFacts.
Import Rational RationalFacts ContractFacts.
  Local Open Scope Qc_scope.

Lemma of_int_opp (n : Z) : of_int (- n) = - of_int n.
Proof. apply Z2Qc_inj_opp. Qed.

Lemma of_int_nonneg (n : Z) : (0 <= n)%Z -> 0 <= of_int n.
Proof. intros. rewrite <- of_int_0. by apply -> of_int_le. Qed.

Lemma scaled_nonneg (a c : Rational) : 0 <= a -> 0 < c -> 0 <= a * c.
Proof.
    intros Ha Hc. rewrite <- (Qcmult_0_l c).
    apply Qcmult_le_mono_nonneg_r; [by apply Qclt_le_weak|done].
Qed.

Lemma scaled_mono (a b c : Rational) : a <= b -> 0 < c -> a * c <= b * c.
Proof. intros Hab Hc. apply Qcmult_le_mono_nonneg_r; [by apply Qclt_le_weak|done]. Qed.

(** Positions grow with the output index. *)
Lemma position_mono (s r p : Rational) (k n : Z) :
    (k <= n)%Z -> 0 < r -> 0 < p ->
    (s + of_int k) * r * p <= (s + of_int n) * r * p.
Proof.
    intros Hkn Hr Hp. apply scaled_mono; [|done]. apply scaled_mono; [|done].
    apply Qcplus_le_mono_l. by apply -> of_int_le.
Qed.

Lemma position_nonneg (s r : Rational) (k : Z) :
    of_int 0 <= s -> (0 <= k)%Z -> 0 < r -> of_int 0 <= (s + of_int k) * r.
Proof.
    intros Hs Hk Hr. rewrite of_int_0 in *. apply scaled_nonneg; [|done].
    apply Qcplus_nonneg_nonneg; [done|by apply of_int_nonneg].
Qed.

Lemma offset_scaled (F P : Z) :
    (1 <= P)%Z -> of_int (F - 1) / of_int P * of_int P = of_int (F - 1).
Proof. intros. field. apply pos_nonzero, of_int_pos. lia. Qed.

Lemma offset_nonneg (F P : Z) :
    (1 <= P)%Z -> (1 <= F)%Z -> 0 <= of_int (F - 1) / of_int P.
Proof.
    intros HP HF.
    apply (Qcmult_le_mono_pos_r _ _ (of_int P)); [apply of_int_pos; lia|].
    rewrite Qcmult_0_l, offset_scaled by done. apply of_int_nonneg. lia.
Qed.

(** The facts about the continuation that the second call relies on. *)
Section Token.
Variables (s r : Rational) (n1 : Z) (F P : Z).
Hypothesis (Hr : 0 < r) (HP : (1 <= P)%Z) (HF : (1 <= F)%Z).

Local Abbreviation X := ((s + of_int n1) * r).
Local Abbreviation off := (of_int (F - 1) / of_int P).
Local Abbreviation first_ := (X - off).
Local Abbreviation w := (floor first_).
Local Abbreviation s' := ((frac first_ + off) / r).

Lemma token_start_scaled : s' * r = X + of_int (- w).
Proof.
      unfold frac. rewrite of_int_opp.
      set (o := off). set (fl := of_int (floor _)).
      field. by apply pos_nonzero.
Qed.

Lemma token_whole_le : of_int w + off <= X.
Proof.
      pose proof (floor_le first_) as Hle.
      apply (Qcplus_le_mono_r _ _ off) in Hle.
      set (o := off) in *. set (fl := of_int (floor _)) in *.
      by replace (X - o + o) with X in Hle by ring.
Qed.

Lemma token_start_nonneg : 0 <= s'.
Proof.
      apply (Qcmult_le_mono_pos_r _ _ r Hr).
      rewrite Qcmult_0_l, token_start_scaled, of_int_opp.
      pose proof token_whole_le as Hle. pose proof (offset_nonneg F P HP HF) as Hoff.
      apply (Qcplus_le_mono_r _ _ (- of_int w)) in Hle.
      set (o := off) in *. set (fl := of_int (floor _)) in *.
      replace (fl + o + - fl) with o in Hle by ring.
      by etrans.
Qed.

Lemma token_position (k : Z) :
      (s' + of_int k) * r = (s + of_int (n1 + k)) * r + of_int (- w).
Proof.
      replace ((s' + of_int k) * r) with (s' * r + of_int k * r)
        by (set (q := s'); ring).
      rewrite token_start_scaled. rewrite of_int_add.
      set (fl := of_int (- floor _)). ring.
Qed.

Lemma token_lower (k : Z) :
      (0 <= k)%Z ->
      of_int (w * P + F - 1) <= (s + of_int (n1 + k)) * r * of_int P.
Proof.
      intros Hk.
      assert (0 < of_int P) as HPq by (apply of_int_pos; lia).
      etrans; [|apply (position_mono s r (of_int P) n1 (n1 + k)); (done || lia)].
      pose proof (scaled_mono _ _ (of_int P) token_whole_le HPq) as Hm.
      rewrite Qcmult_plus_distr_l, offset_scaled in Hm by done.
      rewrite <- of_int_mul, <- of_int_add in Hm.
      by replace (w * P + (F - 1))%Z with (w * P + F - 1)%Z in Hm by lia.
Qed.

Lemma token_upper (n2 N : Z) :
      (s + of_int (n1 + n2)) * r * of_int P < of_int (N * P + F - 1) ->
      (s' + of_int n2) * r * of_int P < of_int ((N - w) * P + F - 1).
Proof.
      intros Hlen. rewrite token_position.
      replace ((N - w) * P + F - 1)%Z with ((N * P + F - 1) + - w * P)%Z by lia.
      rewrite (of_int_add (N * P + F - 1) (- w * P)), (of_int_mul (- w) P).
      rewrite Qcmult_plus_distr_l.
      by apply Qcplus_lt_mono_r.
Qed.

End Token.

End StreamingFacts.

Section Streaming.
Context {T : Type} `{Scalar T}.
Import Rational RationalFacts PhaseSelection ContractFacts StreamingFacts.
  Local Open Scope Qc_scope.

(** Under its contract, [Resample] at a positive rate computes every
      sample: the loop and the continuation complete. *)
Lemma Resample_completes (output input : list T) (polyphase : PolyphaseView T)
    (sampleRates startPoint : Rational) :
    let N := Z.of_nat (length input) in
    let F := Z.of_nat (OriginalSize polyphase) in
    let P := Z.of_nat (FilterCount polyphase) in
    0 < sampleRates -> (1 <= P)%Z -> (1 <= F)%Z ->
    ((N + 1) * P + F < 2 ^ 61)%Z ->
    (Z.of_nat (length output) < 2 ^ 63)%Z ->
    Resample_contract output input polyphase sampleRates startPoint = Ok tt ->
    exists (f : nat -> T) (tok : ContinuationParams),
      (forall k, (k < length output)%nat ->
         Resample_sample input polyphase sampleRates
           (startPoint + of_int (Z.of_nat k)) = Ok (f k))
      /\ Continuation (startPoint + of_int (Z.of_nat (length output))) F P sampleRates
         = Ok tok
      /\ Resample output input polyphase sampleRates startPoint
         = (f <$> seq 0 (length output), Ok tok).
Proof.
    intros N F P Hr HP HF Hsize Hout Hcontract.
    pose proof Hcontract as Hc.
    apply Resample_contract_iff in Hc as [Hs Hlen]; [|done..].
    fold N F P in Hlen.
    assert (0 < of_int P) as HPq by (apply of_int_pos; lia).
    set (f := fun k : nat =>
                match Resample_sample input polyphase sampleRates
                        (startPoint + of_int (Z.of_nat k)) with
                | Ok v => v
                | Fault _ => zero
                end).
    assert (forall k, (k < length output)%nat ->
              Resample_sample input polyphase sampleRates
                (startPoint + of_int (Z.of_nat k)) = Ok (f k)) as Hf.
    { intros k Hk.
      destruct (Resample_sample_defined input polyphase sampleRates
                  (startPoint + of_int (Z.of_nat k))) as [v Hv].
      - fold P. nia.
      - fold N F. nia.
      - apply position_nonneg; [done|lia|done].
      - fold N F P. eapply Qcle_lt_trans; [|exact Hlen].
        apply position_mono; [lia|done..].
      - unfold f. by rewrite Hv. }
    pose proof (Continuation_eq (startPoint + of_int (Z.of_nat (length output)))
                  F P sampleRates Hr ltac:(nia) ltac:(nia)) as Hcont.
    cbv zeta in Hcont.
    assert (exists tok,
              Continuation (startPoint + of_int (Z.of_nat (length output)))
                F P sampleRates = Ok tok) as [tok Htok].
    { rewrite Hcont. destruct (leb _ _); eauto. }
    exists f, tok. split_and!; [done..|].
    unfold Resample. rewrite Hcontract.
    rewrite (Resample_loop_samples input polyphase sampleRates output f [] startPoint Hf).
    simpl. fold F P. by rewrite Htok.
Qed.

Lemma fmap_seq_split (f f1 f2 : nat -> T) (n1 n2 : nat) :
    (forall k, (k < n1)%nat -> f1 k = f k) ->
    (forall k, (k < n2)%nat -> f2 k = f (n1 + k)%nat) ->
    f <$> seq 0 (n1 + n2) = (f1 <$> seq 0 n1) ++ (f2 <$> seq 0 n2).
Proof.
    intros H1 H2. rewrite seq_app, fmap_app. f_equal.
    - apply list_eq. intros i. rewrite !list_lookup_fmap.
      destruct (decide (i < n1)%nat).
      + rewrite lookup_seq_lt by done. simpl. by rewrite H1.
      + by rewrite lookup_seq_ge by lia.
    - apply list_eq. intros i. rewrite !list_lookup_fmap.
      destruct (decide (i < n2)%nat).
      + rewrite !lookup_seq_lt by done. simpl. by rewrite H2.
      + by rewrite !lookup_seq_ge by lia.
Qed.

Lemma Ok_inj {A} (a b : A) : Ok a = Ok b -> a = b.
Proof. congruence. Qed.

(** C1.  Streaming continuity.  For every input, polyphase bank and
      positive rate (sizes in the 64-bit range, a filter of at least one tap),
      and every split of the output buffer in two parts: if the contract of
      [Resample] holds for the whole buffer, then the call for the first part
      succeeds and returns a continuation token, the call for the second part
      on the input that starts at the token's [firstInputSample], from the
      token's [startPoint], succeeds as well, and the two outputs put
      together are exactly the output of the single call. *)
Theorem Resample_streaming_continuity (output1 output2 input : list T)
    (polyphase : PolyphaseView T) (sampleRates startPoint_ : Rational) :
    let N := Z.of_nat (length input) in
    let F := Z.of_nat (OriginalSize polyphase) in
    let P := Z.of_nat (FilterCount polyphase) in
    0 < sampleRates -> (1 <= P)%Z -> (1 <= F)%Z ->
    ((N + 1) * P + F < 2 ^ 61)%Z ->
    (Z.of_nat (length (output1 ++ output2)) < 2 ^ 63)%Z ->
    Resample_contract (output1 ++ output2) input polyphase sampleRates startPoint_
      = Ok tt ->
    exists (result1 result2 : list T) (tok1 tok2 tok : ContinuationParams),
      Resample output1 input polyphase sampleRates startPoint_ = (result1, Ok tok1)
      /\ Resample output2 (drop (Z.to_nat (firstInputSample tok1)) input) polyphase
           sampleRates (startPoint tok1) = (result2, Ok tok2)
      /\ Resample (output1 ++ output2) input polyphase sampleRates startPoint_
         = (result1 ++ result2, Ok tok).
Proof.
    intros N F P Hr HP HF Hsize Hout Hcontract.
    assert (0 < of_int P) as HPq by (apply of_int_pos; lia).
    (* the single call *)
    destruct (Resample_completes _ _ _ _ _ Hr HP HF Hsize Hout Hcontract)
      as (f & tok & Hf & _ & Hres).
    apply Resample_contract_iff in Hcontract as [Hs Hlen]; [|done..].
    rewrite length_app in Hf, Hres, Hlen, Hout.
    rewrite Nat2Z.inj_add in Hlen, Hout.
    set (n1 := length output1) in *. set (n2 := length output2) in *.
    assert (length output1 = n1) as Hn1 by done.
    assert (length output2 = n2) as Hn2 by done.
    clearbody n1 n2.
    fold N F P in Hlen.
    (* the first call *)
    assert (Resample_contract output1 input polyphase sampleRates startPoint_ = Ok tt)
      as Hc1.
    { apply Resample_contract_iff; [done|done|done|done|lia|].
      split; [done|]. fold N F P. rewrite Hn1. eapply Qcle_lt_trans; [|exact Hlen].
      apply position_mono; [lia|done..]. }
    destruct (Resample_completes output1 input polyphase sampleRates startPoint_
                Hr HP HF Hsize ltac:(lia) Hc1)
      as (f1 & tok1 & Hf1 & Htok1 & Hres1).
    fold F P in Hf1, Htok1, Hres1. rewrite Hn1 in Hf1, Htok1, Hres1.
    assert (forall k, (k < n1)%nat -> f1 k = f k) as Hf1f.
    { intros k Hk. apply Ok_inj. rewrite <- Hf1 by done. apply Hf. lia. }
    (* the second call *)
    assert (exists (f2 : nat -> T) tok2,
              (forall k, (k < n2)%nat -> f2 k = f (n1 + k)%nat)
              /\ Resample output2 (drop (Z.to_nat (firstInputSample tok1)) input)
                   polyphase sampleRates (startPoint tok1)
                 = (f2 <$> seq 0 n2, Ok tok2)) as (f2 & tok2 & Hf2f & Hres2).
    { rewrite Continuation_eq in Htok1 by (done || nia). cbv zeta in Htok1.
      destruct (leb _ (of_int 0)) eqn:Hfirst; apply Ok_inj in Htok1; subst tok1;
        cbn [firstInputSample startPoint].
      - (* the window of the next output still starts at input sample 0 *)
        change (Z.to_nat 0) with 0%nat. rewrite drop_0.
        assert (Resample_contract output2 input polyphase sampleRates
                  (startPoint_ + of_int (Z.of_nat n1)) = Ok tt) as Hc2.
        { apply Resample_contract_iff; [done|done|done|done|lia|].
          split.
          - rewrite of_int_0 in *. apply Qcplus_nonneg_nonneg; [done|].
            apply of_int_nonneg. lia.
          - fold N F P. rewrite Hn2. rewrite of_int_add in Hlen.
            by replace (startPoint_ + of_int (Z.of_nat n1) + of_int (Z.of_nat n2))
              with (startPoint_ + (of_int (Z.of_nat n1) + of_int (Z.of_nat n2)))
              by ring. }
        destruct (Resample_completes output2 input polyphase sampleRates
                    (startPoint_ + of_int (Z.of_nat n1)) Hr HP HF Hsize ltac:(lia) Hc2)
          as (f2 & tok2 & Hf2 & _ & Hres2).
        rewrite Hn2 in Hf2, Hres2. exists f2, tok2. split; [|done].
        intros k Hk. apply Ok_inj. rewrite <- Hf2 by done.
        rewrite <- Hf by lia. f_equal.
        rewrite Nat2Z.inj_add, of_int_add. ring.
      - (* the next input buffer starts at a later input sample *)
        set (w := floor ((startPoint_ + of_int (Z.of_nat n1)) * sampleRates
                         - of_int (F - 1) / of_int P)) in *.
        set (s' := (frac ((startPoint_ + of_int (Z.of_nat n1)) * sampleRates
                          - of_int (F - 1) / of_int P)
                    + of_int (F - 1) / of_int P) / sampleRates) in *.
        pose proof (token_lower startPoint_ sampleRates (Z.of_nat n1) F P Hr HP 0
                      ltac:(lia)) as Hlow0.
        fold w in Hlow0. rewrite Z.add_0_r in Hlow0.
        assert ((startPoint_ + of_int (Z.of_nat n1)) * sampleRates * of_int P
                < of_int (N * P + F - 1)) as Hup0.
        { eapply Qcle_lt_trans; [|exact Hlen]. apply position_mono; [lia|done..]. }
        assert (w * P + F - 1 < N * P + F - 1)%Z as HwN.
        { apply of_int_lt. by eapply Qcle_lt_trans. }
        assert (0 <= w)%Z as Hw0.
        { apply floor_nonneg. apply Qclt_le_weak, Qcnot_le_lt.
          intros Hle. apply leb_le in Hle. congruence. }
        assert (w < N)%Z as HwN' by nia.
        rewrite (size_t_small w) by lia.
        assert (Z.of_nat (length (drop (Z.to_nat w) input)) = (N - w)%Z) as Hdrop
          by (rewrite length_drop; lia).
        assert (Resample_contract output2 (drop (Z.to_nat w) input) polyphase
                  sampleRates s' = Ok tt) as Hc2.
        { apply Resample_contract_iff; [done|done|done|rewrite Hdrop; nia|lia|].
          rewrite Hdrop. fold F P. rewrite Hn2. split.
          - rewrite of_int_0. by apply token_start_nonneg.
          - by apply token_upper. }
        destruct (Resample_completes output2 (drop (Z.to_nat w) input) polyphase
                    sampleRates s' Hr HP HF
                    ltac:(rewrite Hdrop; nia) ltac:(lia) Hc2)
          as (f2 & tok2 & Hf2 & _ & Hres2).
        rewrite Hn2 in Hf2, Hres2. exists f2, tok2. split; [|done].
        intros k Hk. apply Ok_inj. rewrite <- Hf2 by done.
        rewrite <- (Hf (n1 + k)%nat) by lia.
        apply Resample_sample_shift; fold N F P.
        + nia.
        + done.
        + nia.
        + lia.
        + rewrite Nat2Z.inj_add. by apply token_position.
        + rewrite Nat2Z.inj_add. apply token_lower; [done|done|lia].
        + eapply Qcle_lt_trans; [|exact Hlen]. apply position_mono; [lia|done..]. }
    exists (f1 <$> seq 0 n1), (f2 <$> seq 0 n2), tok1, tok2, tok.
    split_and!; [done..|].
    rewrite Hres. f_equal. by apply fmap_seq_split.
Qed.

End Streaming.

(** ** Resample: identity rate change *)

Section Identity.
Context {T : Type} `{Scalar T}.
Import Rational RationalFacts PhaseSelection ContractFacts StreamingFacts.
  Local Open Scope Qc_scope.

Lemma frac_of_int (n : Z) : frac (of_int n) = 0.
Proof. unfold frac. rewrite floor_of_int. ring. Qed.

Lemma DotProduct_single (x y : T) : DotProduct [x] [y] = mul x y.
Proof. unfold DotProduct. simpl. apply add_0_l. Qed.

(** The sample of the identity bank at the integer position [k] is the
      input sample [k]. *)
Lemma Resample_sample_identity (input : list T) (k : nat) (x : T) :
    (Z.of_nat (length input) < 2 ^ 60)%Z ->
    input !! k = Some x -> (S k < length input)%nat ->
    Resample_sample input (identity_bank_of one) (of_int 1)
      (of_int 0 + of_int (Z.of_nat k)) = Ok x.
Proof.
    intros Hsize Hk Hlt.
    rewrite Resample_sample_unfold.
    replace ((of_int 0 + of_int (Z.of_nat k)) * of_int 1) with (of_int (Z.of_nat k))
      by (rewrite of_int_0, of_int_1; ring).
    change (Z.of_nat (FilterCount (identity_bank_of one))) with 1%Z.
    rewrite InputIndex2Sample_spec by (done || lia). cbv zeta.
    rewrite frac_of_int, floor_of_int.
    replace (0 * of_int 1) with (of_int 0) by (rewrite of_int_0; ring).
    rewrite frac_of_int, floor_of_int. simpl.
    rewrite (size_t_small (Z.of_nat k)) by lia.
    rewrite (size_t_small (Z.of_nat k + 1)) by lia.
    change (phase (identity_bank_of one) (Z.to_nat 0)) with [one].
    change (phase (identity_bank_of one) (Z.to_nat ((0 + 1) `mod` 1))) with [one].
    rewrite (DotProductSample_eq input [one] (Z.of_nat k)) by (simpl; lia).
    cbv zeta. simpl length. rewrite decide_True by lia. simpl.
    rewrite (DotProductSample_eq input [one] (Z.of_nat k + 1)) by (simpl; lia).
    cbv zeta. simpl length. rewrite decide_True by lia. simpl.
    change (Z.of_nat 1) with 1%Z.
    replace (Z.to_nat (Z.of_nat (length input) `min` (Z.of_nat k + 1)
                       - 0 `max` (Z.of_nat k - 1 + 1)))
      with 1%nat by lia.
    replace (Z.to_nat (0 `max` (Z.of_nat k - 1 + 1))) with k by lia.
    replace (Z.to_nat (0 `max` (Z.of_nat k - 1 + 1) - (Z.of_nat k - 1 + 1)))
      with 0%nat by lia.
    f_equal.
    rewrite (drop_S input x k Hk). simpl. rewrite take_0.
    rewrite DotProduct_single.
    unfold blend. change (Numerator 0) with 0%Z. change (Denominator 0) with 1%Z.
    change (1 - 0)%Z with 1%Z.
    rewrite of_weight_0, of_weight_1, !mul_1_r, mul_0_r, !add_0_r.
    apply div_1_r.
Qed.

(** C8.  Identity rate change.  With [sampleRates = 1/1], [startPoint = 0]
      and the bank of a single phase with the single tap 1, every output
      buffer that the contract of [Resample] admits is filled with the first
      input samples: [output[k] = input[k]] for every output index [k]. *)
Theorem Resample_identity (output input : list T) :
    (Z.of_nat (length input) < 2 ^ 60)%Z ->
    (Z.of_nat (length output) < 2 ^ 63)%Z ->
    Resample_contract output input (identity_bank_of one) (of_int 1) (of_int 0)
      = Ok tt ->
    exists (output' : list T) (tok : ContinuationParams),
      Resample output input (identity_bank_of one) (of_int 1) (of_int 0)
        = (output', Ok tok)
      /\ length output' = length output
      /\ forall k, (k < length output)%nat ->
           exists x, input !! k = Some x /\ output' !! k = Some x.
Proof.
    intros Hin Hout Hcontract.
    assert (0 < of_int 1) as H1 by (by apply of_int_pos).
    pose proof Hcontract as Hc.
    assert (Z.of_nat (FilterCount (identity_bank_of one)) = 1%Z) as HP1 by done.
    assert (Z.of_nat (OriginalSize (identity_bank_of one)) = 1%Z) as HF1 by done.
    apply Resample_contract_iff in Hc as [_ Hlen];
      [|done|rewrite HP1; lia|rewrite HF1; lia|rewrite HP1, HF1; lia|done].
    rewrite HP1, HF1 in Hlen.
    replace ((of_int 0 + of_int (Z.of_nat (length output))) * of_int 1 * of_int 1)
      with (of_int (Z.of_nat (length output))) in Hlen
      by (rewrite of_int_0, of_int_1; ring).
    apply of_int_lt in Hlen.
    destruct (Resample_completes output input (identity_bank_of one) (of_int 1)
                (of_int 0) H1 ltac:(rewrite HP1; lia) ltac:(rewrite HF1; lia)
                ltac:(rewrite HP1, HF1; lia)
                Hout Hcontract) as (f & tok & Hf & _ & Hres).
    exists (f <$> seq 0 (length output)), tok.
    split_and!; [done|by rewrite length_fmap, length_seq|].
    intros k Hk.
    destruct (lookup_lt_is_Some_2 input k ltac:(lia)) as [x Hx].
    exists x. split; [done|].
    rewrite list_lookup_fmap. rewrite lookup_seq_lt by done. simpl. f_equal.
    apply Ok_inj. rewrite <- Hf by done.
    apply Resample_sample_identity; [lia|done|lia].
Qed.

End Identity.

Lemma Resample_identity_witness :
  exists (output' : list Z) (tok : ContinuationParams),
    Resample [0; 0]%Z [4; 5; 6]%Z (identity_bank_of one)
      (Rational.of_int 1) (Rational.of_int 0) = (output', Ok tok)
    /\ length output' = length [0; 0]%Z
    /\ forall k, (k < length [0; 0]%Z)%nat ->
         exists x, [4; 5; 6]%Z !! k = Some x /\ output' !! k = Some x.
Proof.
  apply (Resample_identity (T := Z) [0; 0]%Z [4; 5; 6]%Z);
    vm_compute; reflexivity.
Defined.

Lemma Resample_streaming_continuity_witness :
  exists (result1 result2 : list Z) (tok1 tok2 tok : ContinuationParams),
    Resample (replicate 7 0%Z) example_input example_bank (Q2Qc (2 # 3)) (Q2Qc 0)
      = (result1, Ok tok1)
    /\ Resample (replicate 3 0%Z)
         (drop (Z.to_nat (firstInputSample tok1)) example_input) example_bank
         (Q2Qc (2 # 3)) (startPoint tok1) = (result2, Ok tok2)
    /\ Resample (replicate 7 0%Z ++ replicate 3 0%Z) example_input example_bank
         (Q2Qc (2 # 3)) (Q2Qc 0) = (result1 ++ result2, Ok tok).
Proof.
  apply (Resample_streaming_continuity (T := Z) (replicate 7 0%Z) (replicate 3 0%Z)
           example_input example_bank (Q2Qc (2 # 3)) (Q2Qc 0));
    vm_compute; (reflexivity || (intros; discriminate)).
Defined.

(** ** Resample: the contract checks *)

Section ContractChecks.
Context {T : Type} `{Scalar T}.
Import Rational RationalFacts PhaseSelection ContractFacts StreamingFacts.
  Local Open Scope Qc_scope.

(** A failed contract check ends the call before the output loop: the
      output buffer is returned as it was passed. *)
Lemma Resample_contract_failure (output input : list T)
    (polyphase : PolyphaseView T) (sampleRates startPoint_ : Rational) (f : fault) :
    Resample_contract output input polyphase sampleRates startPoint_ = Fault f ->
    Resample output input polyphase sampleRates startPoint_ = (output, Fault f).
Proof. intros Hc. unfold Resample. by rewrite Hc. Qed.

Lemma leb_false_lt (x y : Rational) : y < x -> leb x y = false.
Proof.
    intros Hlt. apply not_true_iff_false. rewrite leb_le. by apply Qclt_not_le.
Qed.

(** A negative rate fails the first assertion. *)
Lemma Resample_rejects_negative_rate (output input : list T)
    (polyphase : PolyphaseView T) (sampleRates startPoint_ : Rational) :
    sampleRates < 0 ->
    Resample output input polyphase sampleRates startPoint_
    = (output, Fault AssertionFailure).
Proof.
    intros Hr. apply Resample_contract_failure. unfold Resample_contract.
    rewrite of_int_0. rewrite (leb_false_lt 0 sampleRates) by done. done.
Qed.

(** A negative start point fails the second assertion. *)
Lemma Resample_rejects_negative_start (output input : list T)
    (polyphase : PolyphaseView T) (sampleRates startPoint_ : Rational) :
    0 <= sampleRates -> startPoint_ < 0 ->
    Resample output input polyphase sampleRates startPoint_
    = (output, Fault AssertionFailure).
Proof.
    intros Hr Hs. apply Resample_contract_failure. unfold Resample_contract.
    rewrite of_int_0. rewrite (assert_true (leb 0 sampleRates)) by by apply leb_le.
    rewrite bind_Ok. rewrite (leb_false_lt 0 startPoint_) by done. done.
Qed.

(** A bank without phases fails the third assertion. *)
Lemma Resample_rejects_no_phase (output input : list T)
    (polyphase : PolyphaseView T) (sampleRates startPoint_ : Rational) :
    0 <= sampleRates -> 0 <= startPoint_ -> FilterCount polyphase = 0%nat ->
    Resample output input polyphase sampleRates startPoint_
    = (output, Fault AssertionFailure).
Proof.
    intros Hr Hs HP. apply Resample_contract_failure. unfold Resample_contract.
    rewrite of_int_0. rewrite (assert_true (leb 0 sampleRates)) by by apply leb_le.
    rewrite bind_Ok. rewrite (assert_true (leb 0 startPoint_)) by by apply leb_le.
    rewrite bind_Ok, HP. done.
Qed.

(** An output buffer that reaches the maximum resampled length fails the
      last assertion. *)
Lemma Resample_rejects_length (output input : list T)
    (polyphase : PolyphaseView T) (sampleRates startPoint_ : Rational) :
    let N := Z.of_nat (length input) in
    let F := Z.of_nat (OriginalSize polyphase) in
    let P := Z.of_nat (FilterCount polyphase) in
    0 < sampleRates -> 0 <= startPoint_ -> (1 <= P)%Z -> (1 <= F)%Z ->
    ((N + 1) * P + F < 2 ^ 61)%Z ->
    (Z.of_nat (length output) < 2 ^ 63)%Z ->
    of_int (N * P + F - 1) / sampleRates / of_int P
      <= startPoint_ + of_int (Z.of_nat (length output)) ->
    Resample output input polyphase sampleRates startPoint_
    = (output, Fault AssertionFailure).
Proof.
    intros N F P Hr Hs HP HF Hsize Hout Hlen.
    apply Resample_contract_failure. unfold Resample_contract.
    rewrite of_int_0.
    rewrite (assert_true (leb 0 sampleRates))
      by (apply leb_le; by apply Qclt_le_weak).
    rewrite bind_Ok. rewrite (assert_true (leb 0 startPoint_)) by by apply leb_le.
    rewrite bind_Ok.
    rewrite (assert_true (bool_decide _)) by (apply bool_decide_eq_true; lia).
    rewrite bind_Ok. fold N F P. rewrite ResamplingLength_eq by (done || lia).
    rewrite bind_Ok. rewrite (int64_t_small (Z.of_nat (length output))) by lia.
    apply assert_false, not_true_iff_false. rewrite ltb_lt. by apply Qcle_not_lt.
Qed.

End ContractChecks.

(** C5.  With [sampleRates = 0] the rate assertion [sampleRates >= 0] holds,
    so a zero rate is not rejected by the contract check for the rate; the
    call goes on to divide by the zero rate. *)
Lemma Resample_accepts_zero_rate :
  assert (Rational.leb (Rational.of_int 0) (Rational.of_int 0)) = Ok tt
  /\ Resample [0; 0]%Z [4; 5; 6]%Z identity_bank (Rational.of_int 0)
       (Rational.of_int 0)
     = ([0; 0]%Z, Fault DivisionByZero).
Proof. by vm_compute. Qed.

(** ** Interpolate: the polyphase dot product is the convolution *)

Section Convolution.
Context {T : Type} `{Scalar T}.

Lemma sum_from_app (acc : T) (g : nat -> T) (l k : list nat) :
    sum_from acc g (l ++ k) = sum_from (sum_from acc g l) g k.
Proof. apply foldl_app. Qed.

Lemma sum_from_zero (acc : T) (g : nat -> T) (l : list nat) :
    (forall m, m ∈ l -> g m = zero) -> sum_from acc g l = acc.
Proof.
    revert acc. induction l as [|m l IH]; intros acc Hz; [done|].
    cbn. rewrite (Hz m) by by left. rewrite add_0_r.
    apply IH. intros m' Hm'. apply Hz. by right.
Qed.

(** Only the multiples of [P] contribute to a sum over a zero-stuffed
      signal. *)
Lemma sum_from_blocks (g : nat -> T) (P : nat) :
    (1 <= P)%nat -> (forall m, (m mod P <> 0)%nat -> g m = zero) ->
    forall Q acc,
      sum_from acc g (seq 0 (Q * P)) = sum_from acc (fun j => g (j * P)%nat) (seq 0 Q).
Proof.
    intros HP Hz. induction Q as [|Q IH]; intros acc; [done|].
    replace (S Q * P)%nat with (Q * P + (1 + (P - 1)))%nat by lia.
    rewrite seq_app, sum_from_app, IH.
    replace (S Q) with (Q + 1)%nat by lia.
    rewrite (seq_app Q 1), sum_from_app. rewrite seq_app, sum_from_app. simpl.
    apply sum_from_zero. intros m Hm. apply Hz.
    apply elem_of_seq in Hm.
    replace m with ((m - Q * P) + Q * P)%nat by lia.
    rewrite Nat.Div0.mod_add. rewrite Nat.mod_small by lia. lia.
Qed.

Lemma sum_from_stuffed (g : nat -> T) (P n : nat) :
    (1 <= P)%nat -> (forall m, (m mod P <> 0)%nat -> g m = zero) ->
    sum_from zero g (seq 0 (S n))
    = sum_from zero (fun j => g (j * P)%nat) (seq 0 (S (n / P))).
Proof.
    intros HP Hz.
    pose proof (Nat.div_mod_eq n P) as Hn.
    pose proof (Nat.mod_upper_bound n P ltac:(lia)) as Hr.
    replace (S n) with (n / P * P + (1 + n mod P))%nat by lia.
    rewrite seq_app, sum_from_app, sum_from_blocks by done.
    replace (S (n / P)) with (n / P + 1)%nat by lia.
    rewrite (seq_app (n / P) 1), sum_from_app. rewrite seq_app, sum_from_app. simpl.
    apply sum_from_zero. intros m Hm. apply Hz.
    apply elem_of_seq in Hm.
    replace m with ((m - n / P * P) + n / P * P)%nat by lia.
    rewrite Nat.Div0.mod_add. rewrite Nat.mod_small by lia. lia.
Qed.

(** Terms outside [a, b) that vanish can be dropped. *)
Lemma sum_from_restrict (g : nat -> T) (a b len : nat) :
    (b <= len)%nat ->
    (forall j, (j < len)%nat -> (j < a \/ b <= j)%nat -> g j = zero) ->
    sum_from zero g (seq 0 len) = sum_from zero g (seq a (b - a)).
Proof.
    intros Hb Hz. destruct (decide (a <= b)%nat) as [Hab|Hab].
    - replace len with (a + ((b - a) + (len - b)))%nat at 1 by lia.
      rewrite seq_app, sum_from_app. rewrite seq_app, sum_from_app.
      rewrite (sum_from_zero zero g (seq 0 a)).
      2:{ intros m Hm. apply elem_of_seq in Hm. apply Hz; lia. }
      apply sum_from_zero. intros m Hm. apply elem_of_seq in Hm. apply Hz; lia.
    - replace (b - a)%nat with 0%nat by lia. simpl.
      apply sum_from_zero. intros m Hm. apply elem_of_seq in Hm. apply Hz; lia.
Qed.

(** A dot product of two windows is the sum of the products by index. *)
Lemma DotProduct_sum (a b : list T) (u v : nat -> T) (lo c : nat) :
    length a = c -> length b = c ->
    (forall i, (i < c)%nat -> a !! i = Some (u (lo + i)%nat)) ->
    (forall i, (i < c)%nat -> b !! i = Some (v (lo + i)%nat)) ->
    DotProduct a b = sum_from zero (fun j => mul (u j) (v j)) (seq lo c).
Proof.
    intros Ha Hb Hu Hv. unfold DotProduct, sum_from.
    assert (zip a b = (fun j => (u j, v j)) <$> seq lo c) as ->.
    { apply list_eq. intros i. rewrite lookup_zip_with, list_lookup_fmap.
      destruct (decide (i < c)%nat).
      - rewrite Hu, Hv, lookup_seq_lt by done. done.
      - rewrite (lookup_ge_None_2 a), lookup_seq_ge by lia. done. }
    by rewrite foldl_fmap.
Qed.

End Convolution.

Section PolyphaseConvolution.
Context {T : Type} `{Scalar T}.

(** The taps of a phase reach the end of the filter. *)
Lemma phase_taps_cover (F P r : nat) :
    (1 <= P)%nat -> (F <= phase_taps F P r * P + r)%nat.
Proof.
    intros HP. unfold phase_taps. case_decide; [|lia].
    pose proof (Nat.div_mod_eq (F - 1 - r) P) as Hd.
    pose proof (Nat.mod_upper_bound (F - 1 - r) P ltac:(lia)) as Hm.
    nia.
Qed.

Lemma phase_taps_le_PhaseSize (polyphase : PolyphaseView T) (i : nat) :
    (1 <= FilterCount polyphase)%nat ->
    (phase_taps (OriginalSize polyphase) (FilterCount polyphase) i
     <= PhaseSize polyphase)%nat.
Proof.
    intros HP. unfold phase_taps, PhaseSize.
    set (F := OriginalSize polyphase). set (P := FilterCount polyphase) in *.
    case_decide; [|lia].
    replace (F + P - 1)%nat with ((F - 1) + 1 * P)%nat by lia.
    rewrite Nat.div_add by lia.
    assert ((F - 1 - i) / P <= (F - 1) / P)%nat; [|lia].
    apply Nat.Div0.div_le_mono. lia.
Qed.

Lemma default_expanded (x : list T) (P m : nat) :
    (1 <= P)%nat ->
    default zero (expanded x P !! m) = zero_stuffed x P m.
Proof.
    intros HP. destruct (decide (m < length x * P)%nat) as [Hlt|Hge].
    - by rewrite lookup_expanded.
    - rewrite lookup_ge_None_2 by (rewrite length_expanded; lia).
      unfold zero_stuffed. case_decide; [|done].
      rewrite lookup_ge_None_2; [done|].
      apply Nat.div_le_lower_bound; lia.
Qed.

(** The sample of the full convolution of the zero-stuffed input with the
      filter, at the high-rate index [n], is the dot product of the clipped
      input window with the matching part of phase [n mod P]. *)
Lemma polyphase_convolution (x : list T) (polyphase : PolyphaseView T) (n : nat) :
    let P := FilterCount polyphase in
    let q := (n / P)%nat in
    let r := (n mod P)%nat in
    let ps := phase_taps (OriginalSize polyphase) P r in
    let lo := (q + 1 - ps)%nat in
    let hi := (length x `min` (q + 1))%nat in
    (1 <= P)%nat ->
    convolution (expanded x P) (bufferView polyphase) n
    = DotProduct (take (hi - lo) (drop lo x))
        (take (hi - lo) (drop (lo + ps - (q + 1)) (phase polyphase r))).
Proof.
    intros P q r ps lo hi HP. unfold convolution.
    pose proof (Nat.div_mod_eq n P) as Hn. fold q r in Hn.
    pose proof (Nat.mod_upper_bound n P ltac:(lia)) as Hr. fold r in Hr.
    pose proof (phase_taps_cover (OriginalSize polyphase) P r HP) as Hcover.
    fold ps in Hcover.
    rewrite sum_from_stuffed with (P := P); [|done|].
    2:{ intros m Hm. rewrite default_expanded by done.
        unfold zero_stuffed. rewrite decide_False by done. apply mul_0_l. }
    fold q.
    rewrite (sum_from_restrict _ lo hi (S q)); [|lia|].
    2:{ intros j Hj [Hlo|Hhi].
        - rewrite (lookup_ge_None_2 (bufferView polyphase));
            [apply mul_0_r|].
          fold (OriginalSize polyphase). nia.
        - rewrite (lookup_ge_None_2 (expanded x P));
            [apply mul_0_l|].
          rewrite length_expanded by done. nia. }
    symmetry.
    apply (DotProduct_sum _ _
             (fun j => default zero (expanded x P !! (j * P)%nat))
             (fun j => default zero (bufferView polyphase !! (n - j * P)%nat))).
    - rewrite length_take, length_drop. lia.
    - rewrite length_take, length_drop, length_phase. fold P r ps. lia.
    - intros i Hi. rewrite lookup_take_lt by done. rewrite lookup_drop.
      rewrite default_expanded by done. unfold zero_stuffed.
      rewrite Nat.Div0.mod_mul, Nat.div_mul by lia. rewrite decide_True by done.
      destruct (lookup_lt_is_Some_2 x (lo + i)%nat ltac:(lia)) as [v ->]. done.
    - intros i Hi. rewrite lookup_take_lt by done. rewrite lookup_drop.
      rewrite lookup_phase by (fold P r ps; lia). fold P r ps.
      do 3 f_equal. nia.
Qed.

End PolyphaseConvolution.

(** ** Interpolate *)

Section InterpolateProofs.
Context {T : Type} `{Scalar T}.

Lemma int64_t_size_t (z : Z) : int64_t (size_t z) = int64_t z.
Proof.
    unfold int64_t, size_t. f_equal.
    rewrite <- (Zplus_mod_idemp_l z). done.
Qed.

(** The body of the loop of [Interpolate], with its conversions resolved:
      the clipped window is [lo, hi), the part of the input that phase
      [n mod P] overlaps. *)
Lemma Interpolate_sample_eq (lrInput : list T) (polyphase : PolyphaseView T)
    (n : nat) :
    let P := FilterCount polyphase in
    let q := (n / P)%nat in
    let r := (n mod P)%nat in
    let ps := phase_taps (OriginalSize polyphase) P r in
    let lo := (q + 1 - ps)%nat in
    let hi := (length lrInput `min` (q + 1))%nat in
    (1 <= P)%nat ->
    (Z.of_nat (length lrInput) + Z.of_nat (OriginalSize polyphase)
     + Z.of_nat P + Z.of_nat n < 2 ^ 61)%Z ->
    Interpolate_sample lrInput polyphase (Z.of_nat n) =
      Ok (if decide (lo < hi)%nat
          then Some (DotProduct (take (hi - lo) (drop lo lrInput))
                       (take (hi - lo)
                          (drop (lo + ps - (q + 1)) (phase polyphase r))))
          else None).
Proof.
    intros P q r ps lo hi HP Hsize. unfold Interpolate_sample. cbv zeta.
    pose proof (phase_taps_le_PhaseSize polyphase r HP) as HpsL.
    pose proof (phase_taps_le (OriginalSize polyphase) P r) as HpsF.
    fold P ps in HpsL, HpsF.
    assert (PhaseSize polyphase <= OriginalSize polyphase + P)%nat as HL.
    { unfold PhaseSize. fold P.
      pose proof (Nat.div_mod_eq (OriginalSize polyphase + P - 1) P) as Hd. nia. }
    pose proof (Nat.div_mod_eq n P) as Hn. fold q r in Hn.
    pose proof (Nat.mod_upper_bound n P ltac:(lia)) as Hr. fold r in Hr.
    fold P.
    rewrite !(ptrdiff_t_small (Z.of_nat (OriginalSize polyphase))) by lia.
    rewrite !(ptrdiff_t_small (Z.of_nat P)) by lia.
    rewrite !(ptrdiff_t_small (Z.of_nat (PhaseSize polyphase))) by lia.
    rewrite !(ptrdiff_t_small (Z.of_nat (length lrInput))) by lia.
    rewrite !(ptrdiff_t_small (1 - Z.of_nat (OriginalSize polyphase) + Z.of_nat n))
      by lia.
    replace (1 - Z.of_nat (OriginalSize polyphase) + Z.of_nat n
             + Z.of_nat (OriginalSize polyphase) - 1)%Z with (Z.of_nat n) by lia.
    rewrite Z.quot_div_nonneg, Z.rem_mod_nonneg by lia.
    rewrite <- Nat2Z.inj_div, <- Nat2Z.inj_mod. fold q r.
    rewrite (size_t_small (Z.of_nat r)) by lia. rewrite Nat2Z.id.
    rewrite length_phase. fold P ps.
    rewrite !(ptrdiff_t_small (Z.of_nat ps)) by lia.
    unfold Intersection, Interval_minus, Interval_Size. cbn [first last].
    set (L := Z.of_nat (PhaseSize polyphase)) in *.
    assert (0 `max` ((Z.of_nat q - L + 1)
                     `max` (Z.of_nat q - L + 1 + L - Z.of_nat ps))
            = Z.of_nat lo)%Z as Hlo by lia.
    assert (Z.of_nat (length lrInput)
            `min` ((Z.of_nat q - L + 1 + L) `min` (Z.of_nat q - L + 1 + L))
            = Z.of_nat hi)%Z as Hhi by lia.
    rewrite Hlo, Hhi.
    destruct (decide (lo < hi)%nat) as [Hlt|Hge].
    - rewrite decide_True by lia.
      rewrite (size_t_small (Z.of_nat lo)) by lia.
      rewrite (size_t_small (Z.of_nat hi - Z.of_nat lo)) by lia.
      replace (Z.of_nat hi - (Z.of_nat q - L + 1) - (Z.of_nat lo - (Z.of_nat q - L + 1)))%Z
        with (Z.of_nat hi - Z.of_nat lo)%Z by lia.
      rewrite (size_t_small (Z.of_nat hi - Z.of_nat lo)) by lia.
      replace (Z.of_nat lo - (Z.of_nat q - L + 1) - L + Z.of_nat ps)%Z
        with (Z.of_nat (lo + ps - (q + 1))) by lia.
      rewrite (size_t_small (Z.of_nat (lo + ps - (q + 1)))) by lia.
      rewrite !SubSignal_ok by (rewrite ?length_phase; fold P ps; lia).
      simpl. rewrite !Nat2Z.id.
      replace (Z.to_nat (Z.of_nat hi - Z.of_nat lo)) with (hi - lo)%nat by lia.
      done.
    - rewrite decide_False by lia. done.
Qed.

Lemma Interpolate_sample_window (lrInput : list T) (polyphase : PolyphaseView T)
    (n : nat) :
    (1 <= FilterCount polyphase)%nat ->
    (Z.of_nat (length lrInput) + Z.of_nat (OriginalSize polyphase)
     + Z.of_nat (FilterCount polyphase) + Z.of_nat n < 2 ^ 61)%Z ->
    Interpolate_sample lrInput polyphase (Z.of_nat n) =
      Ok (if decide (fst (clipped_window lrInput polyphase n)
                     < snd (clipped_window lrInput polyphase n))%nat
          then Some (window_product lrInput polyphase n)
          else None).
Proof.
    intros HP Hsize. rewrite Interpolate_sample_eq by done. done.
Qed.

(** The convolution sample is the window product; for an empty window it
      is zero. *)
Lemma convolution_window_product (lrInput : list T) (polyphase : PolyphaseView T)
    (n : nat) :
    (1 <= FilterCount polyphase)%nat ->
    convolution (expanded lrInput (FilterCount polyphase)) (bufferView polyphase) n
    = window_product lrInput polyphase n.
Proof. intros HP. by rewrite polyphase_convolution. Qed.

Lemma window_product_empty (lrInput : list T) (polyphase : PolyphaseView T)
    (n : nat) :
    (snd (clipped_window lrInput polyphase n)
     <= fst (clipped_window lrInput polyphase n))%nat ->
    window_product lrInput polyphase n = zero.
Proof.
    unfold window_product. destruct (clipped_window _ _ _) as [lo hi]. simpl.
    intros Hle. replace (hi - lo)%nat with 0%nat by lia. done.
Qed.

(** The loop of [Interpolate] from iteration [j] on: the elements before
      [j] are left as they are, every later element is overwritten when its
      window is not empty. *)
Lemma Interpolate_loop_spec (lrInput : list T) (polyphase : PolyphaseView T)
    (hrOffset : nat) (remaining : nat) :
    forall (hrOutput : list T) (j : nat),
    (1 <= FilterCount polyphase)%nat ->
    (Z.of_nat (length lrInput) + Z.of_nat (OriginalSize polyphase)
     + Z.of_nat (FilterCount polyphase) + Z.of_nat hrOffset
     + Z.of_nat (length hrOutput) < 2 ^ 61)%Z ->
    (j + remaining = length hrOutput)%nat ->
    exists hrOutput',
      Interpolate_loop remaining hrOutput lrInput polyphase (Z.of_nat hrOffset)
        (Z.of_nat (hrOffset + j)) = Ok hrOutput'
      /\ length hrOutput' = length hrOutput
      /\ forall k, (k < length hrOutput)%nat ->
           hrOutput' !! k =
             if decide (k < j)%nat then hrOutput !! k
             else if decide (fst (clipped_window lrInput polyphase (hrOffset + k))
                             < snd (clipped_window lrInput polyphase (hrOffset + k)))%nat
                  then Some (window_product lrInput polyphase (hrOffset + k))
                  else hrOutput !! k.
Proof.
    induction remaining as [|remaining IH]; intros hrOutput j HP Hsize Hj.
    - exists hrOutput. split_and!; [done..|].
      intros k Hk. by rewrite decide_True by lia.
    - cbn [Interpolate_loop].
      rewrite Interpolate_sample_window by (done || lia). rewrite bind_Ok.
      replace (size_t (Z.of_nat (hrOffset + j) - Z.of_nat hrOffset)) with (Z.of_nat j)
        by (rewrite size_t_small; lia).
      rewrite Nat2Z.id.
      replace (size_t (Z.of_nat (hrOffset + j) + 1)) with (Z.of_nat (hrOffset + S j))
        by (rewrite size_t_small; lia).
      destruct (decide (fst (clipped_window lrInput polyphase (hrOffset + j))
                        < snd (clipped_window lrInput polyphase (hrOffset + j)))%nat)
        as [Hw|Hw].
      + rewrite write_ok by lia. rewrite bind_Ok.
        destruct (IH (<[j := window_product lrInput polyphase (hrOffset + j)]> hrOutput)
                    (S j) HP ltac:(rewrite length_insert; lia)
                    ltac:(rewrite length_insert; lia))
          as (out' & Hloop & Hlen & Hk).
        rewrite length_insert in Hlen, Hk.
        exists out'. split_and!; [done..|].
        intros k Hlt. rewrite Hk by done.
        destruct (decide (k = j)) as [->|Hne].
        * rewrite decide_True by lia. rewrite (decide_False (P := (j < j)%nat)) by lia.
          rewrite decide_True by done. apply list_lookup_insert_eq. lia.
        * rewrite list_lookup_insert_ne by done.
          destruct (decide (k < j)%nat);
            [rewrite decide_True by lia|rewrite decide_False by lia]; done.
      + rewrite bind_Ok.
        destruct (IH hrOutput (S j) HP Hsize ltac:(lia)) as (out' & Hloop & Hlen & Hk).
        exists out'. split_and!; [done..|].
        intros k Hlt. rewrite Hk by done.
        destruct (decide (k = j)) as [->|Hne].
        * rewrite decide_True by lia. rewrite (decide_False (P := (j < j)%nat)) by lia.
          by rewrite decide_False by done.
        * destruct (decide (k < j)%nat);
            [rewrite decide_True by lia|rewrite decide_False by lia]; done.
Qed.

End InterpolateProofs.

Section InterpolateClaims.
Context {T : Type} `{Scalar T}.

(** [Interpolate] under its contract, element by element. *)
Lemma Interpolate_spec (hrOutput lrInput : list T) (polyphase : PolyphaseView T)
    (hrOffset : nat) :
    let N := Z.of_nat (length lrInput) in
    let F := Z.of_nat (OriginalSize polyphase) in
    let P := Z.of_nat (FilterCount polyphase) in
    (1 <= P)%Z ->
    ((N + 1) * P + F + Z.of_nat hrOffset + Z.of_nat (length hrOutput) < 2 ^ 61)%Z ->
    (Z.of_nat hrOffset + Z.of_nat (length hrOutput) <= N * P + F - 1)%Z ->
    exists hrOutput',
      Interpolate hrOutput lrInput polyphase (Z.of_nat hrOffset) = Ok hrOutput'
      /\ length hrOutput' = length hrOutput
      /\ forall k, (k < length hrOutput)%nat ->
           hrOutput' !! k =
             if decide (fst (clipped_window lrInput polyphase (hrOffset + k))
                        < snd (clipped_window lrInput polyphase (hrOffset + k)))%nat
             then Some (window_product lrInput polyphase (hrOffset + k))
             else hrOutput !! k.
Proof.
    intros N F P HP Hsize Hlen. unfold Interpolate.
    rewrite decide_False by lia. cbv zeta.
    fold N F P.
    rewrite !(ptrdiff_t_small P), !(ptrdiff_t_small F), !(ptrdiff_t_small N) by nia.
    rewrite (ptrdiff_t_small (Z.of_nat hrOffset)) by nia.
    rewrite (ptrdiff_t_small (Z.of_nat (length hrOutput))) by nia.
    unfold ConvolutionLength, ptrdiff_t. rewrite int64_t_size_t.
    rewrite (int64_t_small (N * P + F - 1)) by nia.
    rewrite assert_true by (apply bool_decide_eq_true; lia).
    rewrite bind_Ok.
    destruct (Interpolate_loop_spec lrInput polyphase hrOffset (length hrOutput)
                hrOutput 0 ltac:(lia) ltac:(fold N F P; nia) ltac:(lia))
      as (out' & Hloop & Hl & Hk).
    rewrite Nat.add_0_r in Hloop.
    exists out'. split_and!; [done..|].
    intros k Hlt. rewrite Hk by done. by rewrite decide_False by lia.
Qed.

(** C9.  Frame property of [Interpolate].  Under the contract of the call,
      an output element whose clipped convolution window is empty keeps the
      value it had before the call, and every other output element of the
      requested range holds the dot product computed for it. *)
Theorem Interpolate_frame (hrOutput lrInput : list T) (polyphase : PolyphaseView T)
    (hrOffset : nat) :
    let N := Z.of_nat (length lrInput) in
    let F := Z.of_nat (OriginalSize polyphase) in
    let P := Z.of_nat (FilterCount polyphase) in
    (1 <= P)%Z ->
    ((N + 1) * P + F + Z.of_nat hrOffset + Z.of_nat (length hrOutput) < 2 ^ 61)%Z ->
    (Z.of_nat hrOffset + Z.of_nat (length hrOutput) <= N * P + F - 1)%Z ->
    exists hrOutput',
      Interpolate hrOutput lrInput polyphase (Z.of_nat hrOffset) = Ok hrOutput'
      /\ length hrOutput' = length hrOutput
      /\ forall k lo hi, (k < length hrOutput)%nat ->
           clipped_window lrInput polyphase (hrOffset + k) = (lo, hi) ->
           ((hi <= lo)%nat -> hrOutput' !! k = hrOutput !! k)
           /\ ((lo < hi)%nat ->
               hrOutput' !! k
               = Some (window_product lrInput polyphase (hrOffset + k))).
Proof.
    intros N F P HP Hsize Hlen.
    destruct (Interpolate_spec hrOutput lrInput polyphase hrOffset HP Hsize Hlen)
      as (out' & Hi & Hl & Hk).
    exists out'. split_and!; [done..|].
    intros k lo hi Hlt Hw. specialize (Hk k Hlt). rewrite Hw in Hk. simpl in Hk.
    split; intros Hcmp.
    - by rewrite decide_False in Hk by lia.
    - by rewrite decide_True in Hk by done.
Qed.

(** C2.  For every low-rate input, every polyphase view of a filter of [F]
      taps as [P >= 1] phases, and every offset and length with
      [hrOffset + hrLength] not above the full-convolution length of the
      zero-stuffed input, [Interpolate] returns [hrLength] samples, and sample
      [k] is the full convolution of the zero-stuffed input (the result of
      [Expand]) with the filter at index [hrOffset + k], samples outside
      either signal counting as zero. *)
Theorem Interpolate_is_convolution (lrInput : list T) (polyphase : PolyphaseView T)
    (hrOffset hrLength : nat) :
    let N := Z.of_nat (length lrInput) in
    let F := Z.of_nat (OriginalSize polyphase) in
    let P := Z.of_nat (FilterCount polyphase) in
    (1 <= P)%Z ->
    ((N + 1) * P + F + Z.of_nat hrOffset + Z.of_nat hrLength < 2 ^ 61)%Z ->
    (Z.of_nat hrOffset + Z.of_nat hrLength <= N * P + F - 1)%Z ->
    exists hrInput hrOutput,
      Expand_alloc lrInput (FilterCount polyphase) = Ok hrInput
      /\ Interpolate_alloc lrInput polyphase (Z.of_nat hrOffset) hrLength = Ok hrOutput
      /\ length hrOutput = hrLength
      /\ forall k, (k < hrLength)%nat ->
           hrOutput !! k
           = Some (convolution hrInput (bufferView polyphase) (hrOffset + k)).
Proof.
    intros N F P HP Hsize Hlen.
    exists (expanded lrInput (FilterCount polyphase)).
    unfold Interpolate_alloc.
    destruct (Interpolate_spec (replicate hrLength zero) lrInput polyphase hrOffset
                HP ltac:(rewrite length_replicate; done)
                ltac:(rewrite length_replicate; done)) as (out' & Hi & Hl & Hk).
    rewrite length_replicate in Hl, Hk.
    exists out'. split_and!; [|done..|].
    - unfold Expand_alloc. apply Expand_spec; [lia|]. by rewrite length_replicate.
    - intros k Hlt. rewrite Hk by done.
      rewrite convolution_window_product by lia.
      case_decide as Hw; [done|].
      rewrite lookup_replicate_2 by done.
      by rewrite window_product_empty by lia.
Qed.

End InterpolateClaims.

Lemma Interpolate_frame_witness :
  exists hrOutput',
    Interpolate [9; 9; 9; 9; 9; 9; 9; 9]%Z [1; 0; 1]%Z
      {| bufferView := [1; 2; 3]%Z; numFilters := 2 |} (Z.of_nat 0) = Ok hrOutput'
    /\ length hrOutput' = 8%nat
    /\ forall k lo hi, (k < 8)%nat ->
         clipped_window [1; 0; 1]%Z {| bufferView := [1; 2; 3]%Z; numFilters := 2 |}
           (0 + k) = (lo, hi) ->
         ((hi <= lo)%nat -> hrOutput' !! k = [9; 9; 9; 9; 9; 9; 9; 9]%Z !! k)
         /\ ((lo < hi)%nat ->
             hrOutput' !! k
             = Some (window_product [1; 0; 1]%Z
                       {| bufferView := [1; 2; 3]%Z; numFilters := 2 |} (0 + k))).
Proof.
  apply (Interpolate_frame (T := Z) [9; 9; 9; 9; 9; 9; 9; 9]%Z [1; 0; 1]%Z
           {| bufferView := [1; 2; 3]%Z; numFilters := 2 |} 0);
    vm_compute; (reflexivity || (intros; discriminate)).
Defined.

Lemma Interpolate_is_convolution_witness :
  exists hrInput hrOutput,
    Expand_alloc [1; 0; 1]%Z 2 = Ok hrInput
    /\ Interpolate_alloc [1; 0; 1]%Z {| bufferView := [1; 2; 3]%Z; numFilters := 2 |}
         (Z.of_nat 2) 6 = Ok hrOutput
    /\ length hrOutput = 6%nat
    /\ forall k, (k < 6)%nat ->
         hrOutput !! k = Some (convolution hrInput [1; 2; 3]%Z (2 + k)).
Proof.
  apply (Interpolate_is_convolution (T := Z) [1; 0; 1]%Z
           {| bufferView := [1; 2; 3]%Z; numFilters := 2 |} 2 6);
    vm_compute; (reflexivity || (intros; discriminate)).
Defined.

(** * Further properties of the rate changers *)

Section RateChangerComposition.
Context {T : Type} `{Scalar T}.

Lemma Decimate_alloc_spec (input : list T) (rate : nat) :
    (1 <= rate)%nat ->
    exists output,
      Decimate_alloc input rate = Ok output
      /\ length output = ((length input + rate - 1) / rate)%nat
      /\ forall i, (i < length output)%nat -> output !! i = input !! (i * rate)%nat.
Proof.
    intros Hr. unfold Decimate_alloc.
    destruct (Decimate_spec (replicate ((length input + rate - 1) / rate) zero)
                input rate Hr ltac:(by rewrite length_replicate))
      as (output & Hd & Hl & Hi).
    rewrite length_replicate in Hl, Hi.
    exists output. split_and!; [done..|]. intros i Hlt. apply Hi. lia.
Qed.

(** The length of a signal decimated twice. *)
Lemma ceiling_twice (n r1 r2 : nat) :
    (1 <= r1)%nat -> (1 <= r2)%nat ->
    (((n + r1 - 1) / r1 + r2 - 1) / r2 = (n + r1 * r2 - 1) / (r1 * r2))%nat.
Proof.
    intros H1 H2. destruct n as [|n].
    - rewrite !Nat.add_0_l. rewrite (Nat.div_small (r1 - 1)) by lia.
      rewrite !Nat.div_small; lia.
    - rewrite <- Nat.Div0.div_div.
      replace (S n + r1 - 1)%nat with (n + 1 * r1)%nat by lia.
      replace (S n + r1 * r2 - 1)%nat with (n + r2 * r1)%nat by lia.
      rewrite !Nat.div_add by lia. f_equal. lia.
Qed.

(** Decimating by [rate1] and then by [rate2] is decimating by
      [rate1 * rate2], as long as the size computation
      [input.Size() + rate - 1] stays in the range of [size_t]. *)
Theorem Decimate_twice (x : list T) (rate1 rate2 : nat) :
    (1 <= rate1)%nat -> (1 <= rate2)%nat ->
    (Z.of_nat (length x) + Z.of_nat rate1 * Z.of_nat rate2 < 2 ^ 64)%Z ->
    exists y z,
      Decimate_alloc x rate1 = Ok y
      /\ Decimate_alloc y rate2 = Ok z
      /\ Decimate_alloc x (rate1 * rate2) = Ok z.
Proof.
    intros H1 H2 _.
    destruct (Decimate_alloc_spec x rate1 H1) as (y & Hy & Hly & Hiy).
    destruct (Decimate_alloc_spec y rate2 H2) as (z & Hz & Hlz & Hiz).
    destruct (Decimate_alloc_spec x (rate1 * rate2) ltac:(nia)) as (z' & Hz' & Hlz' & Hiz').
    exists y, z. split_and!; [done..|]. rewrite Hz'. f_equal.
    assert (length z' = length z) as Hlen
      by (rewrite Hlz, Hlz', Hly; symmetry; by apply ceiling_twice).
    apply list_eq. intros i.
    destruct (decide (i < length z)%nat) as [Hlt|Hge].
    - rewrite Hiz', Hiz by lia. rewrite Hiy.
      + f_equal. lia.
      + apply Decimate_reads_in_range; [done|]. by rewrite <- Hlz.
    - rewrite !lookup_ge_None_2 by lia. done.
Qed.

Lemma Expand_alloc_eq (x : list T) (rate : nat) :
    (1 <= rate)%nat -> Expand_alloc x rate = Ok (expanded x rate).
Proof.
    intros Hr. unfold Expand_alloc. apply Expand_spec; [done|].
    by rewrite length_replicate.
Qed.

Lemma zero_stuffed_twice (x : list T) (rate1 rate2 j : nat) :
    (1 <= rate1)%nat -> (1 <= rate2)%nat ->
    zero_stuffed (expanded x rate1) rate2 j = zero_stuffed x (rate1 * rate2) j.
Proof.
    intros H1 H2. unfold zero_stuffed at 1.
    rewrite default_expanded by done. unfold zero_stuffed.
    rewrite (Nat.mul_comm rate1 rate2).
    rewrite Nat.Div0.mod_mul_r, Nat.Div0.div_div.
    destruct (decide (j mod rate2 = 0)%nat) as [H0|H0].
    - rewrite H0, Nat.add_0_l.
      destruct (decide ((j / rate2) mod rate1 = 0)%nat) as [H0'|H0'].
      + rewrite decide_True by lia. done.
      + rewrite decide_False by nia. done.
    - rewrite decide_False by lia. done.
Qed.

(** Expanding by [rate1] and then by [rate2] is expanding by
      [rate1 * rate2], as long as the output size stays in the range of
      [size_t]. *)
Theorem Expand_twice (x : list T) (rate1 rate2 : nat) :
    (1 <= rate1)%nat -> (1 <= rate2)%nat ->
    (Z.of_nat rate1 * Z.of_nat rate2 < 2 ^ 64)%Z ->
    (Z.of_nat (length x) * Z.of_nat rate1 * Z.of_nat rate2 < 2 ^ 64)%Z ->
    exists y z,
      Expand_alloc x rate1 = Ok y
      /\ Expand_alloc y rate2 = Ok z
      /\ Expand_alloc x (rate1 * rate2) = Ok z.
Proof.
    intros H1 H2 _ _.
    exists (expanded x rate1), (expanded (expanded x rate1) rate2).
    rewrite !Expand_alloc_eq by (done || nia). split_and!; [done..|]. f_equal.
    apply list_eq. intros j.
    destruct (decide (j < length x * (rate1 * rate2))%nat) as [Hlt|Hge].
    - rewrite !lookup_expanded by (rewrite ?length_expanded by done; done || nia).
      f_equal. symmetry. by apply zero_stuffed_twice.
    - rewrite !lookup_ge_None_2; [done|..];
        rewrite !length_expanded by (done || nia); nia.
Qed.

(** A rate of 1 changes nothing: [Decimate] and [Expand] by 1 return the
      input. *)
Theorem rate_one_identity (x : list T) :
    Decimate_alloc x 1 = Ok x /\ Expand_alloc x 1 = Ok x.
Proof.
    split.
    - destruct (Decimate_alloc_spec x 1 ltac:(lia)) as (y & -> & Hl & Hi).
      f_equal. rewrite Nat.div_1_r in Hl.
      apply list_eq. intros i. destruct (decide (i < length y)%nat).
      + rewrite Hi by done. f_equal. lia.
      + rewrite !lookup_ge_None_2 by lia. done.
    - rewrite Expand_alloc_eq by done. f_equal.
      unfold expanded. induction x as [|a x IH]; [done|].
      rewrite fmap_cons, concat_cons, IH. done.
Qed.

(** Decimating and expanding again by the same rate keeps the samples at
      the multiples of the rate and clears the others (sizes in the range of
      [size_t]). *)
Theorem Expand_Decimate (x : list T) (rate : nat) :
    (1 <= rate)%nat ->
    (Z.of_nat (length x) + Z.of_nat rate < 2 ^ 64)%Z ->
    exists d e,
      Decimate_alloc x rate = Ok d
      /\ Expand_alloc d rate = Ok e
      /\ length e = ((length x + rate - 1) / rate * rate)%nat
      /\ forall j, (j < length e)%nat ->
           e !! j = Some (if decide (j mod rate = 0)%nat
                          then default zero (x !! j) else zero).
Proof.
    intros Hr _.
    destruct (Decimate_alloc_spec x rate Hr) as (d & Hd & Hl & Hi).
    exists d, (expanded d rate). rewrite Expand_alloc_eq by done.
    split_and!; [done..| |].
    - rewrite length_expanded by done. by rewrite Hl.
    - intros j Hj. rewrite length_expanded in Hj by done.
      rewrite lookup_expanded by done. f_equal. unfold zero_stuffed.
      case_decide as H0; [|done].
      pose proof (Nat.div_mod_eq j rate) as Hdm.
      rewrite Hi by (apply Nat.Div0.div_lt_upper_bound; lia).
      do 2 f_equal. lia.
Qed.

(** Every outcome of the in-place [Decimate]: with a rate of at least 1 and
      an output of [ceil(length input / rate)] elements it returns what the
      allocating overload returns, whatever the buffer held; a buffer of
      another length fails the assertion; a rate of 0 divides by zero.  No
      call reads outside the input.  The size computation
      [input.Size() + rate - 1] is taken in the range of [size_t]. *)
Theorem Decimate_outcome (output input : list T) (rate : nat) :
    (Z.of_nat (length input) + Z.of_nat rate < 2 ^ 64)%Z ->
    (exists d, Decimate output input rate = Ok d
               /\ Decimate_alloc input rate = Ok d
               /\ (1 <= rate)%nat
               /\ length output = ((length input + rate - 1) / rate)%nat)
    \/ (Decimate output input rate = Fault AssertionFailure
        /\ (1 <= rate)%nat
        /\ length output <> ((length input + rate - 1) / rate)%nat)
    \/ (Decimate output input rate = Fault DivisionByZero /\ rate = 0%nat).
Proof.
    intros _.
    destruct (decide (rate = 0)%nat) as [->|Hr].
    { right; right. done. }
    destruct (decide (length output = (length input + rate - 1) / rate)%nat)
      as [Hl|Hl].
    - left.
      destruct (Decimate_spec output input rate ltac:(lia) Hl) as (d & Hd & Hld & Hid).
      destruct (Decimate_alloc_spec input rate ltac:(lia)) as (d' & Hd' & Hld' & Hid').
      exists d. split_and!; [done| |lia|done].
      rewrite Hd'. f_equal. apply list_eq. intros i.
      destruct (decide (i < length d)%nat).
      + rewrite Hid, Hid' by lia. done.
      + rewrite !lookup_ge_None_2 by lia. done.
    - right; left. split_and!; [|lia|done].
      unfold Decimate. rewrite decide_False by done.
      rewrite assert_false by (by apply bool_decide_eq_false). done.
Qed.

(** Every outcome of the in-place [Expand]: with an output of
      [length input * rate] elements and a rate of at least 1 (or nothing to
      expand) it returns what the allocating overload returns, whatever the
      buffer held; a buffer of another length fails the assertion; with a rate
      of 0 and a non-empty input the assertion admits the empty buffer and
      the first store lands outside it.  The size [input.Size() * rate] is
      taken in the range of [size_t]. *)
Theorem Expand_outcome (output input : list T) (rate : nat) :
    (Z.of_nat rate < 2 ^ 64)%Z ->
    (Z.of_nat (length input) * Z.of_nat rate < 2 ^ 64)%Z ->
    (exists e, Expand output input rate = Ok e
               /\ Expand_alloc input rate = Ok e
               /\ length output = (length input * rate)%nat
               /\ ((1 <= rate)%nat \/ input = []))
    \/ (Expand output input rate = Fault AssertionFailure
        /\ length output <> (length input * rate)%nat)
    \/ (Expand output input rate = Fault OutOfRange
        /\ rate = 0%nat /\ input <> [] /\ output = []).
Proof.
    intros _ _.
    destruct (decide (length output = length input * rate)%nat) as [Hl|Hl].
    - destruct (decide (1 <= rate)%nat) as [Hr|Hr].
      + left. exists (expanded input rate).
        rewrite Expand_alloc_eq, Expand_spec by done. split_and!; auto.
      + assert (rate = 0%nat) as -> by lia.
        rewrite Nat.mul_0_r in Hl. apply nil_length_inv in Hl as ->.
        destruct input as [|i input].
        * left. exists []. split_and!; auto.
        * right; right. split_and!; [|done..].
          unfold Expand. rewrite Nat.mul_0_r. done.
    - right; left. split; [|done].
      unfold Expand. rewrite assert_false by (by apply bool_decide_eq_false). done.
Qed.

End RateChangerComposition.

Lemma Decimate_twice_witness :
  exists y z,
    Decimate_alloc [1; 2; 3; 4; 5; 6; 7]%Z 2 = Ok y
    /\ Decimate_alloc y 3 = Ok z
    /\ Decimate_alloc [1; 2; 3; 4; 5; 6; 7]%Z (2 * 3) = Ok z.
Proof.
  apply (Decimate_twice (T := Z) [1; 2; 3; 4; 5; 6; 7]%Z 2 3);
    [lia | lia | vm_compute; reflexivity..].
Defined.

Lemma Expand_twice_witness :
  exists y z,
    Expand_alloc [1; 2; 3]%Z 2 = Ok y
    /\ Expand_alloc y 3 = Ok z
    /\ Expand_alloc [1; 2; 3]%Z (2 * 3) = Ok z.
Proof.
  apply (Expand_twice (T := Z) [1; 2; 3]%Z 2 3);
    [lia | lia | vm_compute; reflexivity..].
Defined.

Lemma Expand_Decimate_witness :
  exists d e,
    Decimate_alloc [1; 2; 3; 4; 5; 6; 7]%Z 3 = Ok d
    /\ Expand_alloc d 3 = Ok e
    /\ length e = ((length [1; 2; 3; 4; 5; 6; 7]%Z + 3 - 1) / 3 * 3)%nat
    /\ forall j, (j < length e)%nat ->
         e !! j = Some (if decide (j mod 3 = 0)%nat
                        then default zero ([1; 2; 3; 4; 5; 6; 7]%Z !! j) else zero).
Proof.
  apply (Expand_Decimate (T := Z) [1; 2; 3; 4; 5; 6; 7]%Z 3);
    [lia | vm_compute; reflexivity].
Defined.

Lemma Decimate_outcome_witness :
  (exists d, Decimate [9; 9; 9]%Z [1; 2; 3; 4; 5; 6; 7]%Z 3 = Ok d
             /\ Decimate_alloc [1; 2; 3; 4; 5; 6; 7]%Z 3 = Ok d
             /\ (1 <= 3)%nat
             /\ length [9; 9; 9]%Z
                = ((length [1; 2; 3; 4; 5; 6; 7]%Z + 3 - 1) / 3)%nat)
  \/ (Decimate [9; 9; 9]%Z [1; 2; 3; 4; 5; 6; 7]%Z 3 = Fault AssertionFailure
      /\ (1 <= 3)%nat
      /\ length [9; 9; 9]%Z <> ((length [1; 2; 3; 4; 5; 6; 7]%Z + 3 - 1) / 3)%nat)
  \/ (Decimate [9; 9; 9]%Z [1; 2; 3; 4; 5; 6; 7]%Z 3 = Fault DivisionByZero
      /\ 3%nat = 0%nat).
Proof.
  apply (Decimate_outcome (T := Z) [9; 9; 9]%Z [1; 2; 3; 4; 5; 6; 7]%Z 3).
  vm_compute. reflexivity.
Defined.

Lemma Expand_outcome_witness :
  (exists e, Expand [] [1; 2]%Z 0 = Ok e
             /\ Expand_alloc [1; 2]%Z 0 = Ok e
             /\ length (@nil Z) = (length [1; 2]%Z * 0)%nat
             /\ ((1 <= 0)%nat \/ [1; 2]%Z = []))
  \/ (Expand [] [1; 2]%Z 0 = Fault AssertionFailure
      /\ length (@nil Z) <> (length [1; 2]%Z * 0)%nat)
  \/ (Expand [] [1; 2]%Z 0 = Fault OutOfRange
      /\ 0%nat = 0%nat /\ [1; 2]%Z <> [] /\ @nil Z = []).
Proof.
  apply (Expand_outcome (T := Z) [] [1; 2]%Z 0); vm_compute; reflexivity.
Defined.
(** ** More on [Interpolate] *)

Section InterpolateMore.
Context {T : Type} `{Scalar T}.

(** The allocating overload, element by element. *)
Lemma Interpolate_alloc_spec (lrInput : list T) (polyphase : PolyphaseView T)
    (hrOffset hrLength : nat) :
    let N := Z.of_nat (length lrInput) in
    let F := Z.of_nat (OriginalSize polyphase) in
    let P := Z.of_nat (FilterCount polyphase) in
    (1 <= P)%Z ->
    ((N + 1) * P + F + Z.of_nat hrOffset + Z.of_nat hrLength < 2 ^ 61)%Z ->
    (Z.of_nat hrOffset + Z.of_nat hrLength <= N * P + F - 1)%Z ->
    Interpolate_alloc lrInput polyphase (Z.of_nat hrOffset) hrLength
    = Ok ((fun k => window_product lrInput polyphase (hrOffset + k))
            <$> seq 0 hrLength).
Proof.
    intros N F P HP Hsize Hlen. unfold Interpolate_alloc.
    destruct (Interpolate_spec (replicate hrLength zero) lrInput polyphase hrOffset
                HP ltac:(rewrite length_replicate; done)
                ltac:(rewrite length_replicate; done)) as (out' & -> & Hl & Hk).
    rewrite length_replicate in Hl, Hk. f_equal.
    apply list_eq. intros k.
    destruct (decide (k < hrLength)%nat) as [Hlt|Hge].
    - rewrite Hk by done. rewrite list_lookup_fmap, lookup_seq_lt by done.
      cbn -[clipped_window window_product].
      case_decide as Hw; [done|].
      rewrite lookup_replicate_2 by done.
      by rewrite window_product_empty by lia.
    - rewrite !lookup_ge_None_2; [done|..].
      + rewrite length_fmap, length_seq. lia.
      + lia.
Qed.

(** An output range can be computed in pieces: the samples of
      [hrOffset, hrOffset + m + n) are those of [hrOffset, hrOffset + m)
      followed by those of [hrOffset + m, hrOffset + m + n). *)
Theorem Interpolate_chunks (lrInput : list T) (polyphase : PolyphaseView T)
    (hrOffset m n : nat) :
    let N := Z.of_nat (length lrInput) in
    let F := Z.of_nat (OriginalSize polyphase) in
    let P := Z.of_nat (FilterCount polyphase) in
    (1 <= P)%Z ->
    ((N + 1) * P + F + Z.of_nat hrOffset + Z.of_nat (m + n) < 2 ^ 61)%Z ->
    (Z.of_nat hrOffset + Z.of_nat (m + n) <= N * P + F - 1)%Z ->
    exists a b,
      Interpolate_alloc lrInput polyphase (Z.of_nat hrOffset) m = Ok a
      /\ Interpolate_alloc lrInput polyphase (Z.of_nat (hrOffset + m)) n = Ok b
      /\ Interpolate_alloc lrInput polyphase (Z.of_nat hrOffset) (m + n)
         = Ok (a ++ b).
Proof.
    intros N F P HP Hsize Hlen.
    rewrite !Interpolate_alloc_spec by (fold N F P; lia).
    eexists _, _. split_and!; [done..|]. f_equal.
    rewrite seq_app, fmap_app. f_equal.
    replace (seq (0 + m) n) with (Nat.add m <$> seq 0 n)
      by (rewrite fmap_add_seq; f_equal; lia).
    rewrite <- list_fmap_compose.
    apply list_fmap_ext. intros i k _. simpl. f_equal. lia.
Qed.

(** A range that ends past the full-convolution length [N * P + F - 1] is
      refused by the assertion, before anything is stored. *)
Theorem Interpolate_rejects_range (hrOutput lrInput : list T)
    (polyphase : PolyphaseView T) (hrOffset : nat) :
    let N := Z.of_nat (length lrInput) in
    let F := Z.of_nat (OriginalSize polyphase) in
    let P := Z.of_nat (FilterCount polyphase) in
    (1 <= P)%Z ->
    ((N + 1) * P + F + Z.of_nat hrOffset + Z.of_nat (length hrOutput) < 2 ^ 61)%Z ->
    (N * P + F - 1 < Z.of_nat hrOffset + Z.of_nat (length hrOutput))%Z ->
    Interpolate hrOutput lrInput polyphase (Z.of_nat hrOffset)
    = Fault AssertionFailure.
Proof.
    intros N F P HP Hsize Hlen. unfold Interpolate.
    rewrite decide_False by lia. cbv zeta. fold N F P.
    rewrite !(ptrdiff_t_small P), !(ptrdiff_t_small F), !(ptrdiff_t_small N) by nia.
    rewrite (ptrdiff_t_small (Z.of_nat hrOffset)) by nia.
    rewrite (ptrdiff_t_small (Z.of_nat (length hrOutput))) by nia.
    unfold ConvolutionLength, ptrdiff_t. rewrite int64_t_size_t.
    rewrite (int64_t_small (N * P + F - 1)) by nia.
    rewrite assert_false by (apply bool_decide_eq_false; lia). done.
Qed.

(** With no input sample every convolution window is empty: a call that
      passes the assertion stores nothing and returns the buffer as it
      was. *)
Theorem Interpolate_empty_input (hrOutput : list T) (polyphase : PolyphaseView T)
    (hrOffset : nat) :
    let F := Z.of_nat (OriginalSize polyphase) in
    let P := Z.of_nat (FilterCount polyphase) in
    (1 <= P)%Z ->
    (P + F + Z.of_nat hrOffset + Z.of_nat (length hrOutput) < 2 ^ 61)%Z ->
    (Z.of_nat hrOffset + Z.of_nat (length hrOutput) <= F - 1)%Z ->
    Interpolate hrOutput [] polyphase (Z.of_nat hrOffset) = Ok hrOutput.
Proof.
    intros F P HP Hsize Hlen.
    destruct (Interpolate_spec hrOutput [] polyphase hrOffset HP
                ltac:(simpl; fold F P; lia) ltac:(simpl; fold F P; lia))
      as (out' & -> & Hl & Hk).
    f_equal. apply list_eq. intros k.
    destruct (decide (k < length hrOutput)%nat) as [Hlt|Hge].
    - rewrite Hk by done. unfold clipped_window. simpl. done.
    - rewrite !lookup_ge_None_2 by lia. done.
Qed.

(** The window of the identity-like bank holds one sample. *)
Lemma window_product_identity (lrInput : list T) (n : nat) (x : T) :
    lrInput !! n = Some x ->
    window_product lrInput (identity_bank_of one) n = x.
Proof.
    intros Hx. pose proof (lookup_lt_Some _ _ _ Hx) as Hn.
    unfold window_product, clipped_window, identity_bank_of, FilterCount,
      OriginalSize, phase. cbn [numFilters bufferView length].
    rewrite Nat.div_1_r, Nat.mod_1_r.
    change (phase_taps 1 1 0) with 1%nat.
    replace (length lrInput `min` (n + 1))%nat with (n + 1)%nat by lia.
    replace (n + 1 - 1)%nat with n by lia.
    replace (n + 1 - n)%nat with 1%nat by lia.
    replace (n + 1 - (n + 1))%nat with 0%nat by lia.
    rewrite (drop_S _ x) by done.
    unfold DotProduct. simpl. by rewrite mul_1_r, add_0_l.
Qed.

(** With the identity-like bank (one phase, one tap equal to 1)
      [Interpolate] copies the input: the samples of [hrOffset, hrOffset +
      hrLength) are the input samples at these indices. *)
Theorem Interpolate_identity (lrInput : list T) (hrOffset hrLength : nat) :
    (Z.of_nat (length lrInput) < 2 ^ 59)%Z ->
    (hrOffset + hrLength <= length lrInput)%nat ->
    Interpolate_alloc lrInput (identity_bank_of one) (Z.of_nat hrOffset) hrLength
    = Ok (take hrLength (drop hrOffset lrInput)).
Proof.
    intros Hsize Hlen.
    rewrite Interpolate_alloc_spec
      by (cbv zeta; unfold identity_bank_of, FilterCount, OriginalSize;
          cbn [numFilters bufferView length]; lia).
    f_equal. apply list_eq. intros k.
    destruct (decide (k < hrLength)%nat) as [Hlt|Hge].
    - rewrite list_lookup_fmap, lookup_seq_lt by done.
      rewrite lookup_take, decide_True by done. rewrite lookup_drop.
      destruct (lookup_lt_is_Some_2 lrInput (hrOffset + k) ltac:(lia)) as [x Hx].
      rewrite Hx. cbn [fmap option_fmap option_map]. f_equal.
      by apply window_product_identity.
    - rewrite !lookup_ge_None_2; [done|..].
      + rewrite length_take, length_drop. lia.
      + rewrite length_fmap, length_seq. lia.
Qed.

End InterpolateMore.

Lemma Interpolate_chunks_witness :
  exists a b,
    Interpolate_alloc [1; 0; 1]%Z {| bufferView := [1; 2; 3]%Z; numFilters := 2 |}
      (Z.of_nat 1) 2 = Ok a
    /\ Interpolate_alloc [1; 0; 1]%Z {| bufferView := [1; 2; 3]%Z; numFilters := 2 |}
         (Z.of_nat (1 + 2)) 3 = Ok b
    /\ Interpolate_alloc [1; 0; 1]%Z {| bufferView := [1; 2; 3]%Z; numFilters := 2 |}
         (Z.of_nat 1) (2 + 3) = Ok (a ++ b).
Proof.
  apply (Interpolate_chunks (T := Z) [1; 0; 1]%Z
           {| bufferView := [1; 2; 3]%Z; numFilters := 2 |} 1 2 3);
    vm_compute; (reflexivity || (intros; discriminate)).
Defined.

Lemma Interpolate_rejects_range_witness :
  Interpolate [9; 9; 9; 9]%Z [1; 0; 1]%Z
    {| bufferView := [1; 2; 3]%Z; numFilters := 2 |} (Z.of_nat 5)
  = Fault AssertionFailure.
Proof.
  apply (Interpolate_rejects_range (T := Z) [9; 9; 9; 9]%Z [1; 0; 1]%Z
           {| bufferView := [1; 2; 3]%Z; numFilters := 2 |} 5);
    vm_compute; (reflexivity || (intros; discriminate)).
Defined.

Lemma Interpolate_empty_input_witness :
  Interpolate [9; 9]%Z [] {| bufferView := [1; 2; 3]%Z; numFilters := 2 |}
    (Z.of_nat 0) = Ok [9; 9]%Z.
Proof.
  apply (Interpolate_empty_input (T := Z) [9; 9]%Z
           {| bufferView := [1; 2; 3]%Z; numFilters := 2 |} 0);
    vm_compute; (reflexivity || (intros; discriminate)).
Defined.

Lemma Interpolate_identity_witness :
  Interpolate_alloc [4; 5; 6; 7]%Z (identity_bank_of one) (Z.of_nat 1) 2
  = Ok (take 2 (drop 1 [4; 5; 6; 7]%Z)).
Proof.
  apply (Interpolate_identity (T := Z) [4; 5; 6; 7]%Z 1 2);
    [vm_compute; reflexivity | simpl; lia].
Defined.
(** ** Least common multiple *)

(** In exact arithmetic the fold is the least common multiple of all
    arguments. *)
Lemma impl_lcm_is_lcm (head second : Z) (rest : list Z) :
  (0 <= impl_lcm head second rest)%Z
  /\ Forall (fun a => (a | impl_lcm head second rest)%Z) (head :: second :: rest)
  /\ forall m, Forall (fun a => (a | m)%Z) (head :: second :: rest) ->
       (impl_lcm head second rest | m)%Z.
Proof.
  revert head second. induction rest as [|third rest IH]; intros head second.
  - cbn [impl_lcm]. split_and!.
    + apply Z.lcm_nonneg.
    + repeat constructor; [apply Z.divide_lcm_l | apply Z.divide_lcm_r].
    + intros m Hm. apply Forall_cons_1 in Hm as [H1 Hm].
      apply Forall_cons_1 in Hm as [H2 _]. by apply Z.lcm_least.
  - cbn [impl_lcm]. destruct (IH second third) as (H0 & Hall & Hleast). split_and!.
    + apply Z.lcm_nonneg.
    + constructor; [apply Z.divide_lcm_l|].
      apply Forall_forall. intros a Ha.
      eapply Z.divide_trans; [|apply Z.divide_lcm_r].
      by apply (proj1 (Forall_forall _ _) Hall).
    + intros m Hm. apply Forall_cons_1 in Hm as [H1 Hm].
      apply Z.lcm_least; [done | by apply Hleast].
Qed.

(** The variadic overload [impl::lcm(head, tail...)], for three or more
    arguments: when every argument and the result of every [std::lcm] call
    on the way is representable (absolute value at most [bound], the
    largest value of the common type), the call returns the least common
    multiple of all its arguments: a representable number that is not
    negative, that every argument divides, and that divides every common
    multiple of the arguments. *)
Theorem impl_lcm_least (bound head second third : Z) (rest : list Z) :
  Forall (fun v => (Z.abs v <= bound)%Z)
    (impl_lcm_values head second (third :: rest)) ->
  (0 <= impl_lcm head second (third :: rest) <= bound)%Z
  /\ Forall (fun a => (a | impl_lcm head second (third :: rest))%Z)
       (head :: second :: third :: rest)
  /\ forall m, Forall (fun a => (a | m)%Z) (head :: second :: third :: rest) ->
       (impl_lcm head second (third :: rest) | m)%Z.
Proof.
  intros Hfit.
  destruct (impl_lcm_is_lcm head second (third :: rest)) as (H0 & Hall & Hleast).
  split_and!; [done| |done..].
  cbn [impl_lcm_values] in Hfit.
  apply Forall_cons_1 in Hfit as [_ Hfit].
  apply Forall_cons_1 in Hfit as [Hres _].
  cbn [impl_lcm] in *. lia.
Qed.

(** ** Delay, rate changes and the continuation *)

Section DelayAndRates.
Import Rational RationalFacts ContractFacts StreamingFacts.
  Local Open Scope Qc_scope.

Lemma of_int_nonzero (n : Z) : n <> 0%Z -> of_int n <> 0.
Proof.
    intros Hn. rewrite <- of_int_0. intros Heq. apply (f_equal floor) in Heq.
    by rewrite !floor_of_int in Heq.
Qed.

(** [ResamplingDelay] is the delay in output samples: the position
      conversion of [Resample] maps it to [(filterSize - 1) / (2 numPhases)]
      input samples, the middle of the filter, and twice the delay is the
      convolution offset that [Continuation] subtracts. *)
Theorem ResamplingDelay_position (filterSize numPhases : Z)
    (sampleRates : Rational) :
    0 < sampleRates -> (1 <= numPhases < 2 ^ 62)%Z -> (0 <= filterSize < 2 ^ 63)%Z ->
    exists delay,
      ResamplingDelay filterSize numPhases sampleRates = Ok delay
      /\ Resample_position sampleRates delay
         = Ok (of_int (filterSize - 1) / of_int (2 * numPhases))
      /\ (delay + delay) * sampleRates
         = of_int (filterSize - 1) / of_int numPhases.
Proof.
    intros Hr HP HF. unfold ResamplingDelay.
    rewrite !int64_t_small by lia.
    rewrite make_ok by lia. rewrite bind_Ok.
    rewrite quot_ok by (by apply pos_nonzero).
    eexists. split; [done|].
    rewrite Resample_position_eq.
    assert (sampleRates <> 0) as Hr0 by (by apply pos_nonzero).
    assert (of_int numPhases <> 0) as HP0 by (apply of_int_nonzero; lia).
    assert (of_int 2 <> 0) as H20 by (by apply of_int_nonzero).
    rewrite (of_int_mul 2 numPhases).
    split; [f_equal|].
    - field. done.
    - replace (of_int 2) with (1 + 1) by (by apply Qc_is_canon).
      field. split_and!; done.
Qed.

(** Changing the rate from [sourceRate] to [targetRate] and back returns
      the sample position. *)
Theorem ChangeSampleRate_round_trip (sourceRate targetRate : Z) (sample : Rational) :
    sourceRate <> 0%Z -> targetRate <> 0%Z ->
    exists sample',
      ChangeSampleRate sourceRate targetRate sample = Ok sample'
      /\ ChangeSampleRate targetRate sourceRate sample' = Ok sample.
Proof.
    intros Hs Ht. unfold ChangeSampleRate.
    rewrite !make_ok by done. rewrite bind_Ok.
    eexists. split; [done|]. rewrite bind_Ok. f_equal.
    pose proof (of_int_nonzero _ Hs). pose proof (of_int_nonzero _ Ht).
    field. done.
Qed.

(** The continuation of a call that ended at [nextOutputSample]: the input
      samples it tells the caller to drop are whole and not negative, the
      new start point is not negative and addresses, in the shortened input,
      the same position as [nextOutputSample] in the input of the call, and
      it lies less than one input sample past the reach of the filter. *)
Theorem Continuation_alignment (nextOutputSample : Rational) (F P : Z)
    (sampleRates : Rational) :
    0 < sampleRates -> (1 <= P < 2 ^ 63)%Z -> (1 <= F < 2 ^ 63)%Z ->
    0 <= nextOutputSample ->
    nextOutputSample * sampleRates < of_int (2 ^ 63) ->
    exists tok,
      Continuation nextOutputSample F P sampleRates = Ok tok
      /\ (0 <= firstInputSample tok)%Z
      /\ 0 <= startPoint tok
      /\ startPoint tok * sampleRates + of_int (firstInputSample tok)
         = nextOutputSample * sampleRates
      /\ startPoint tok * sampleRates * of_int P < of_int (F - 1 + P).
Proof.
    intros Hr HP HF Hnext Hbound.
    rewrite Continuation_eq by done. cbv zeta.
    assert (0 < of_int P) as HPq by (apply of_int_pos; lia).
    pose proof (offset_nonneg F P ltac:(lia) ltac:(lia)) as Hoff.
    pose proof (offset_scaled F P ltac:(lia)) as Hoffs.
    set (X := nextOutputSample * sampleRates) in *.
    set (off := of_int (F - 1) / of_int P) in *.
    assert (of_int (F - 1) < of_int (F - 1 + P)) as HFP by (apply -> of_int_lt; lia).
    destruct (leb (X - off) (of_int 0)) eqn:Hle.
    - eexists. split; [done|]. cbn [firstInputSample startPoint].
      apply leb_le in Hle. rewrite of_int_0 in *.
      split_and!; [done|done|unfold X; ring|].
      fold X. apply (Qcplus_le_mono_r _ _ off) in Hle.
      replace (X - off + off) with X in Hle by ring.
      rewrite Qcplus_0_l in Hle.
      eapply Qcle_lt_trans; [|exact HFP]. rewrite <- Hoffs.
      by apply scaled_mono.
    - assert (of_int 0 < X - off) as Hpos.
      { apply Qcnot_le_lt. intros Hc. apply leb_le in Hc. congruence. }
      pose proof (floor_nonneg (X - off) (Qclt_le_weak _ _ Hpos)) as Hw0.
      assert (X - off < of_int (2 ^ 63)) as Hup.
      { eapply Qcle_lt_trans; [|exact Hbound].
        apply (Qcplus_le_mono_r _ _ off). replace (X - off + off) with X by ring.
        rewrite <- (Qcplus_0_r X) at 1. by apply Qcplus_le_mono_l. }
      pose proof (floor_lt_int _ _ Hup) as Hw1.
      rewrite size_t_small by lia.
      eexists. split; [done|]. cbn [firstInputSample startPoint].
      assert (sampleRates <> 0) as Hr0 by (by apply pos_nonzero).
      assert ((frac (X - off) + off) / sampleRates * sampleRates
              = frac (X - off) + off) as Hs.
      { set (f := frac _). field. done. }
      pose proof (frac_nonneg (X - off)) as Hf0. rewrite of_int_0 in Hf0.
      pose proof (frac_lt_1 (X - off)) as Hf1. rewrite of_int_1 in Hf1.
      split_and!.
      + done.
      + apply (Qcmult_le_mono_pos_r _ _ sampleRates Hr).
        rewrite Qcmult_0_l, Hs. by apply Qcplus_nonneg_nonneg.
      + rewrite Hs. unfold frac. set (fl := of_int (floor _)). ring.
      + rewrite Hs. rewrite Qcmult_plus_distr_l, Hoffs.
        rewrite (Z.add_comm (F - 1) P), of_int_add.
        apply Qcplus_lt_mono_r.
        rewrite <- (Qcmult_1_l (of_int P)) at 2.
        by apply Qcmult_lt_mono_pos_r.
Qed.

(** [ResamplingLength] is the bound of the output positions whose input
      position lies inside the full convolution of the expanded input with
      the filter: an output position is below it exactly when its high-rate
      position is below [N P + F - 1]. *)
Theorem ResamplingLength_bound (N F P : Z) (sampleRates position : Rational) :
    0 < sampleRates -> (1 <= P)%Z -> (1 <= F)%Z -> (0 <= N)%Z ->
    ((N + 1) * P + F < 2 ^ 61)%Z ->
    exists maxLength,
      ResamplingLength N F P sampleRates = Ok maxLength
      /\ maxLength * sampleRates * of_int P = of_int (N * P + F - 1)
      /\ (position < maxLength
          <-> position * sampleRates * of_int P < of_int (N * P + F - 1)).
Proof.
    intros Hr HP HF HN Hsize.
    rewrite ResamplingLength_eq by done.
    assert (0 < of_int P) as HPq by (apply of_int_pos; lia).
    eexists. split; [done|]. split.
    - field. split; by apply pos_nonzero.
    - by apply lt_quotients.
Qed.

End DelayAndRates.

Lemma ResamplingDelay_position_witness :
  exists delay,
    ResamplingDelay 7 2 (Q2Qc (2 # 3)) = Ok delay
    /\ Resample_position (Q2Qc (2 # 3)) delay
       = Ok (Rational.of_int (7 - 1) / Rational.of_int (2 * 2))%Qc
    /\ ((delay + delay) * Q2Qc (2 # 3)
        = Rational.of_int (7 - 1) / Rational.of_int 2)%Qc.
Proof.
  apply (ResamplingDelay_position 7 2 (Q2Qc (2 # 3)));
    vm_compute; repeat split; (reflexivity || (intros; discriminate)).
Defined.

Lemma ChangeSampleRate_round_trip_witness :
  exists sample',
    ChangeSampleRate 3 2 (Q2Qc (7 # 2)) = Ok sample'
    /\ ChangeSampleRate 2 3 sample' = Ok (Q2Qc (7 # 2)).
Proof.
  apply (ChangeSampleRate_round_trip 3 2 (Q2Qc (7 # 2))); intros; discriminate.
Defined.

Lemma Continuation_alignment_witness :
  exists tok,
    Continuation (Q2Qc 7) 6 2 (Q2Qc (2 # 3)) = Ok tok
    /\ (0 <= firstInputSample tok)%Z
    /\ (0 <= startPoint tok)%Qc
    /\ (startPoint tok * Q2Qc (2 # 3) + Rational.of_int (firstInputSample tok)
        = Q2Qc 7 * Q2Qc (2 # 3))%Qc
    /\ (startPoint tok * Q2Qc (2 # 3) * Rational.of_int 2
        < Rational.of_int (6 - 1 + 2))%Qc.
Proof.
  apply (Continuation_alignment (Q2Qc 7) 6 2 (Q2Qc (2 # 3)));
    vm_compute; repeat split; (reflexivity || (intros; discriminate)).
Defined.

Lemma ResamplingLength_bound_witness :
  exists maxLength,
    ResamplingLength 8 6 2 (Q2Qc (2 # 3)) = Ok maxLength
    /\ (maxLength * Q2Qc (2 # 3) * Rational.of_int 2
        = Rational.of_int (8 * 2 + 6 - 1))%Qc
    /\ ((Q2Qc 10 < maxLength)%Qc
        <-> (Q2Qc 10 * Q2Qc (2 # 3) * Rational.of_int 2
             < Rational.of_int (8 * 2 + 6 - 1))%Qc).
Proof.
  apply (ResamplingLength_bound 8 6 2 (Q2Qc (2 # 3)) (Q2Qc 10));
    vm_compute; repeat split; (reflexivity || (intros; discriminate)).
Defined.

Lemma impl_lcm_least_witness :
  (0 <= impl_lcm 4 6 [10; 15]%Z <= 2 ^ 63 - 1)%Z
  /\ Forall (fun a => (a | impl_lcm 4 6 [10; 15]%Z)%Z) [4; 6; 10; 15]%Z
  /\ forall m, Forall (fun a => (a | m)%Z) [4; 6; 10; 15]%Z ->
       (impl_lcm 4 6 [10; 15]%Z | m)%Z.
Proof.
  apply (impl_lcm_least (2 ^ 63 - 1) 4 6 10 [15]%Z).
  cbn [impl_lcm_values].
  repeat apply List.Forall_cons; try apply List.Forall_nil;
    vm_compute; intros; discriminate.
Defined.
(** ** More on [Resample] *)

Section ResampleMore.
Context {T : Type} `{Scalar T}.
Import Rational RationalFacts PhaseSelection ContractFacts StreamingFacts.
  Local Open Scope Qc_scope.

(** On the grid of the polyphase filter the weights are 1 and 0. *)
Lemma blend_on_grid (v1 v2 : T) : blend v1 v2 1 0 = v1.
Proof.
    unfold blend.
    by rewrite of_weight_1, of_weight_0, mul_1_r, mul_0_r, !add_0_r, div_1_r.
Qed.

(** A position on the grid: the high-rate index [n] splits into the input
      index [n / P] and the phase [n mod P], and nothing is left over. *)
Lemma grid_position (pos : Rational) (P : Z) (n : Z) :
    (1 <= P)%Z -> pos * of_int P = of_int n ->
    floor pos = (n / P)%Z
    /\ floor (frac pos * of_int P) = (n mod P)%Z
    /\ frac (frac pos * of_int P) = 0.
Proof.
    intros HP Hn.
    pose proof (floor_scaled pos P) as Hfs. rewrite Hn, floor_of_int in Hfs.
    pose proof (scaled_frac_range pos P ltac:(lia)) as Hfp.
    assert (frac pos * of_int P = of_int (floor (frac pos * of_int P))) as Hint.
    { replace (floor (frac pos * of_int P)) with (n + - floor pos * P)%Z by lia.
      rewrite of_int_add, of_int_mul, of_int_opp, <- Hn. unfold frac. ring. }
    split_and!.
    - apply (Z.div_unique n P _ (floor (frac pos * of_int P))); lia.
    - apply (Z.mod_unique n P (floor pos)); lia.
    - rewrite Hint. apply frac_of_int.
Qed.

Lemma Resample_sample_on_grid (input : list T) (polyphase : PolyphaseView T)
    (sampleRates outputIndex : Rational) (n : nat) :
    let N := Z.of_nat (length input) in
    let F := Z.of_nat (OriginalSize polyphase) in
    let P := Z.of_nat (FilterCount polyphase) in
    (1 <= P < 2 ^ 62)%Z -> (N + F < 2 ^ 61)%Z ->
    outputIndex * sampleRates * of_int P = of_int (Z.of_nat n) ->
    (Z.of_nat n < N * P + F - 1)%Z ->
    Resample_sample input polyphase sampleRates outputIndex
    = Ok (window_product input polyphase n).
Proof.
    intros N F P HP Hsize Hn Hlt.
    rewrite Resample_sample_unfold. fold P.
    rewrite InputIndex2Sample_phases by lia. cbv zeta.
    set (pos := outputIndex * sampleRates) in *.
    destruct (grid_position pos P (Z.of_nat n) ltac:(lia) Hn) as (Hidx & Hfp & Ht).
    rewrite Ht, Hidx, Hfp.
    change (size_t (Denominator 0 - Numerator 0)) with 1%Z.
    change (size_t (Numerator 0)) with 0%Z.
    cbn [mbind result_bind inputIndex phaseIndex weight].
    set (idx := (Z.of_nat n / P)%Z). set (fp := (Z.of_nat n mod P)%Z).
    assert (0 <= fp < P)%Z as Hfpr by (apply Z.mod_pos_bound; lia).
    assert (Z.of_nat n = idx * P + fp)%Z as Hdm.
    { unfold idx, fp. rewrite (Z.div_mod (Z.of_nat n) P) at 1 by lia. lia. }
    destruct (second_location P idx fp Hfpr) as (Hsp & Hidx2 & Hrange).
    cbv zeta in Hsp, Hidx2, Hrange.
    set (sp := ((fp + 1) mod P)%Z) in *.
    assert (0 <= idx)%Z as Hidx0 by (apply Z.div_pos; lia).
    assert (idx < N + F)%Z as HidxN by nia.
    rewrite (size_t_small idx) by lia. rewrite (size_t_small (idx + 1)) by lia.
    set (idx2 := if decide (sp = 0%Z) then (idx + 1)%Z else idx) in *.
    assert (Z.of_nat (length input) = N) as HN by done.
    assert (Z.of_nat (OriginalSize polyphase) = F) as HF by done.
    pose proof (phase_taps_le (OriginalSize polyphase) (FilterCount polyphase)
                  (Z.to_nat fp)) as Hl1.
    pose proof (phase_taps_le (OriginalSize polyphase) (FilterCount polyphase)
                  (Z.to_nat sp)) as Hl2.
    pose proof (window_upper (length input) (OriginalSize polyphase)
                  (FilterCount polyphase) idx fp Hfpr ltac:(fold N F P; lia)) as Hw1.
    pose proof (window_upper (length input) (OriginalSize polyphase)
                  (FilterCount polyphase) idx2 sp Hsp ltac:(fold N F P; lia)) as Hw2.
    rewrite (DotProductSample_eq input (phase polyphase (Z.to_nat fp)) idx)
      by (rewrite ?length_phase; lia).
    cbv zeta. rewrite length_phase. rewrite decide_True by lia.
    rewrite bind_Ok.
    rewrite (DotProductSample_eq input (phase polyphase (Z.to_nat sp)) idx2)
      by (rewrite ?length_phase; lia).
    cbv zeta. rewrite length_phase. rewrite decide_True by lia.
    rewrite bind_Ok, blend_on_grid. f_equal.
    unfold window_product, clipped_window.
    assert (Z.to_nat fp = n mod FilterCount polyphase)%nat as ->.
    { unfold fp, P. rewrite <- Nat2Z.inj_mod. apply Nat2Z.id. }
    assert (idx = Z.of_nat (n / FilterCount polyphase)) as Hq.
    { unfold idx, P. by rewrite <- Nat2Z.inj_div. }
    rewrite Hq.
    set (q := (n / FilterCount polyphase)%nat).
    set (taps := phase_taps _ _ _).
    f_equal; f_equal; try lia; f_equal; lia.
Qed.

Lemma fmap_seq_ext (f g : nat -> T) (n : nat) :
    (forall k, (k < n)%nat -> f k = g k) -> f <$> seq 0 n = g <$> seq 0 n.
Proof.
    intros Hfg. apply list_eq. intros i. rewrite !list_lookup_fmap.
    destruct (decide (i < n)%nat).
    - rewrite lookup_seq_lt by done. simpl. by rewrite Hfg.
    - by rewrite lookup_seq_ge by lia.
Qed.

(** The contract looks at the output buffer only through its length, and
      so does the result of a call that meets it. *)
Lemma Resample_any_buffer (output output' input : list T)
    (polyphase : PolyphaseView T) (sampleRates startPoint_ : Rational) :
    let N := Z.of_nat (length input) in
    let F := Z.of_nat (OriginalSize polyphase) in
    let P := Z.of_nat (FilterCount polyphase) in
    0 < sampleRates -> (1 <= P)%Z -> (1 <= F)%Z ->
    ((N + 1) * P + F < 2 ^ 61)%Z ->
    (Z.of_nat (length output) < 2 ^ 63)%Z ->
    length output' = length output ->
    Resample_contract output input polyphase sampleRates startPoint_ = Ok tt ->
    exists result tok,
      Resample output input polyphase sampleRates startPoint_ = (result, Ok tok)
      /\ Resample output' input polyphase sampleRates startPoint_ = (result, Ok tok)
      /\ length result = length output.
Proof.
    intros N F P Hr HP HF Hsize Hout Hlen Hc.
    assert (Resample_contract output' input polyphase sampleRates startPoint_ = Ok tt)
      as Hc' by (unfold Resample_contract in *; by rewrite Hlen).
    destruct (Resample_completes output input polyphase sampleRates startPoint_
                Hr HP HF Hsize Hout Hc) as (f & tok & Hf & Htok & Hres).
    destruct (Resample_completes output' input polyphase sampleRates startPoint_
                Hr HP HF Hsize ltac:(lia) Hc') as (f' & tok' & Hf' & Htok' & Hres').
    rewrite Hlen in Hf', Htok', Hres'.
    exists (f <$> seq 0 (length output)), tok. split_and!; [done| |].
    - rewrite Hres'. f_equal.
      + apply fmap_seq_ext. intros k Hk. apply Ok_inj.
        by rewrite <- Hf', <- Hf by done.
      + by rewrite <- Htok, <- Htok'.
    - by rewrite length_fmap, length_seq.
Qed.

(** A call that meets the contract overwrites the whole buffer: the result
      does not depend on what the buffer held, it has the length of the
      buffer, and the allocating overload returns the same samples. *)
Theorem Resample_overwrites (output1 output2 input : list T)
    (polyphase : PolyphaseView T) (sampleRates startPoint_ : Rational) :
    let N := Z.of_nat (length input) in
    let F := Z.of_nat (OriginalSize polyphase) in
    let P := Z.of_nat (FilterCount polyphase) in
    0 < sampleRates -> (1 <= P)%Z -> (1 <= F)%Z ->
    ((N + 1) * P + F < 2 ^ 61)%Z ->
    (Z.of_nat (length output1) < 2 ^ 63)%Z ->
    length output2 = length output1 ->
    Resample_contract output1 input polyphase sampleRates startPoint_ = Ok tt ->
    exists result tok,
      Resample output1 input polyphase sampleRates startPoint_ = (result, Ok tok)
      /\ Resample output2 input polyphase sampleRates startPoint_ = (result, Ok tok)
      /\ Resample_alloc input polyphase sampleRates startPoint_ (length output1)
         = result
      /\ length result = length output1.
Proof.
    intros N F P Hr HP HF Hsize Hout Hlen Hc.
    destruct (Resample_any_buffer output1 output2 input polyphase sampleRates
                startPoint_ Hr HP HF Hsize Hout Hlen Hc)
      as (result & tok & Hres1 & Hres2 & Hl).
    destruct (Resample_any_buffer output1 (replicate (length output1) zero) input
                polyphase sampleRates startPoint_ Hr HP HF Hsize Hout
                ltac:(by rewrite length_replicate) Hc)
      as (result' & tok' & Hres1' & Hres3 & _).
    exists result, tok. split_and!; [done..| |done].
    unfold Resample_alloc. rewrite Hres3. simpl. congruence.
Qed.

(** The output can be computed in pieces over the same input: the call
      for the first part of the buffer, and the call for the second part
      started where the first one ended, give the samples of the single
      call, and the second call returns the continuation of the single
      call. *)
Theorem Resample_chunks (output1 output2 input : list T)
    (polyphase : PolyphaseView T) (sampleRates startPoint_ : Rational) :
    let N := Z.of_nat (length input) in
    let F := Z.of_nat (OriginalSize polyphase) in
    let P := Z.of_nat (FilterCount polyphase) in
    0 < sampleRates -> (1 <= P)%Z -> (1 <= F)%Z ->
    ((N + 1) * P + F < 2 ^ 61)%Z ->
    (Z.of_nat (length (output1 ++ output2)) < 2 ^ 63)%Z ->
    Resample_contract (output1 ++ output2) input polyphase sampleRates startPoint_
      = Ok tt ->
    exists (result1 result2 : list T) (tok1 tok : ContinuationParams),
      Resample output1 input polyphase sampleRates startPoint_ = (result1, Ok tok1)
      /\ Resample output2 input polyphase sampleRates
           (startPoint_ + of_int (Z.of_nat (length output1))) = (result2, Ok tok)
      /\ Resample (output1 ++ output2) input polyphase sampleRates startPoint_
         = (result1 ++ result2, Ok tok).
Proof.
    intros N F P Hr HP HF Hsize Hout Hcontract.
    assert (0 < of_int P) as HPq by (apply of_int_pos; lia).
    destruct (Resample_completes _ _ _ _ _ Hr HP HF Hsize Hout Hcontract)
      as (f & tok & Hf & Htok & Hres).
    apply Resample_contract_iff in Hcontract as [Hs Hlen]; [|done..].
    rewrite length_app in Hf, Htok, Hres, Hlen, Hout.
    rewrite Nat2Z.inj_add in Hlen, Hout, Htok.
    set (n1 := length output1) in *. set (n2 := length output2) in *.
    assert (length output1 = n1) as Hn1 by done.
    assert (length output2 = n2) as Hn2 by done.
    clearbody n1 n2.
    fold N F P in Hlen.
    assert (Resample_contract output1 input polyphase sampleRates startPoint_ = Ok tt)
      as Hc1.
    { apply Resample_contract_iff; [done|done|done|done|lia|].
      split; [done|]. fold N F P. rewrite Hn1. eapply Qcle_lt_trans; [|exact Hlen].
      apply position_mono; [lia|done..]. }
    destruct (Resample_completes output1 input polyphase sampleRates startPoint_
                Hr HP HF Hsize ltac:(lia) Hc1)
      as (f1 & tok1 & Hf1 & _ & Hres1).
    rewrite Hn1 in Hf1, Hres1.
    assert (Resample_contract output2 input polyphase sampleRates
              (startPoint_ + of_int (Z.of_nat n1)) = Ok tt) as Hc2.
    { apply Resample_contract_iff; [done|done|done|done|lia|].
      split.
      - rewrite of_int_0 in *. apply Qcplus_nonneg_nonneg; [done|].
        apply of_int_nonneg. lia.
      - fold N F P. rewrite Hn2. rewrite of_int_add in Hlen.
        by replace (startPoint_ + of_int (Z.of_nat n1) + of_int (Z.of_nat n2))
          with (startPoint_ + (of_int (Z.of_nat n1) + of_int (Z.of_nat n2)))
          by ring. }
    destruct (Resample_completes output2 input polyphase sampleRates
                (startPoint_ + of_int (Z.of_nat n1)) Hr HP HF Hsize ltac:(lia) Hc2)
      as (f2 & tok2 & Hf2 & Htok2 & Hres2).
    rewrite Hn2 in Hf2, Htok2, Hres2.
    assert (tok2 = tok) as ->.
    { apply Ok_inj. rewrite <- Htok2, <- Htok. f_equal.
      rewrite of_int_add. ring. }
    exists (f1 <$> seq 0 n1), (f2 <$> seq 0 n2), tok1, tok.
    split_and!; [done..|].
    rewrite Hres. f_equal. apply fmap_seq_split.
    - intros k Hk. apply Ok_inj. rewrite <- Hf1 by done. apply Hf. lia.
    - intros k Hk. apply Ok_inj. rewrite <- Hf2 by done.
      rewrite <- Hf by lia. f_equal.
      rewrite Nat2Z.inj_add, of_int_add. ring.
Qed.

(** Each of the first three assertions refuses its argument: a negative
      rate, a negative start point or a bank without phases ends the call
      with a failed assertion and leaves the output buffer as it was. *)
Theorem Resample_contract_violations (output input : list T)
    (polyphase : PolyphaseView T) (sampleRates startPoint_ : Rational) :
    sampleRates < 0 \/ startPoint_ < 0 \/ FilterCount polyphase = 0%nat ->
    Resample output input polyphase sampleRates startPoint_
    = (output, Fault AssertionFailure).
Proof.
    intros Hbad.
    destruct (Qclt_le_dec sampleRates 0) as [Hr|Hr].
    { by apply Resample_rejects_negative_rate. }
    destruct (Qclt_le_dec startPoint_ 0) as [Hs|Hs].
    { by apply Resample_rejects_negative_start. }
    destruct Hbad as [Hbad|[Hbad|Hbad]].
    - by apply Qclt_not_le in Hbad.
    - by apply Qclt_not_le in Hbad.
    - by apply Resample_rejects_no_phase.
Qed.

(** With one output sample per high-rate sample ([sampleRates = 1 / P])
      and a whole start point, every position lies on the grid of the
      polyphase filter and [Resample] returns the samples of [Interpolate]
      for the same range. *)
Theorem Resample_interpolates (input : list T) (polyphase : PolyphaseView T)
    (hrOffset hrLength : nat) :
    let N := Z.of_nat (length input) in
    let F := Z.of_nat (OriginalSize polyphase) in
    let P := Z.of_nat (FilterCount polyphase) in
    (1 <= P)%Z -> (1 <= F)%Z ->
    ((N + 1) * P + F < 2 ^ 60)%Z ->
    (Z.of_nat hrOffset + Z.of_nat hrLength < N * P + F - 1)%Z ->
    exists hrOutput tok,
      Interpolate_alloc input polyphase (Z.of_nat hrOffset) hrLength = Ok hrOutput
      /\ Resample (replicate hrLength zero) input polyphase (1 / of_int P)
           (of_int (Z.of_nat hrOffset)) = (hrOutput, Ok tok)
      /\ Resample_alloc input polyphase (1 / of_int P) (of_int (Z.of_nat hrOffset))
           hrLength = hrOutput.
Proof.
    intros N F P HP HF Hsize Hlen.
    assert (0 < of_int P) as HPq by (apply of_int_pos; lia).
    assert (of_int P <> 0) as HP0 by (by apply pos_nonzero).
    set (r := 1 / of_int P).
    assert (r * of_int P = 1) as Hrate by (unfold r; by field).
    assert (0 < r) as Hr.
    { apply (Qcmult_lt_mono_pos_r _ _ (of_int P) HPq).
      by rewrite Qcmult_0_l, Hrate. }
    assert (forall a : Rational, a * r * of_int P = a) as Hgrid.
    { intros a. rewrite <- Qcmult_assoc, Hrate. ring. }
    assert (Resample_contract (replicate hrLength zero) input polyphase r
              (of_int (Z.of_nat hrOffset)) = Ok tt) as Hc.
    { apply Resample_contract_iff;
        [done|done|done|fold N F P; lia|rewrite length_replicate; lia|].
      rewrite length_replicate. split.
      - apply -> of_int_le. lia.
      - fold N F P. rewrite Hgrid, <- of_int_add. apply -> of_int_lt. lia. }
    destruct (Resample_completes (replicate hrLength zero) input polyphase r
                (of_int (Z.of_nat hrOffset)) Hr HP HF ltac:(fold N F P; lia)
                ltac:(rewrite length_replicate; lia) Hc)
      as (f & tok & Hf & _ & Hres).
    rewrite length_replicate in Hf, Hres.
    rewrite Interpolate_alloc_spec by (cbv zeta; fold N F P; lia).
    eexists _, tok. split; [done|].
    assert (f <$> seq 0 hrLength
            = (fun k => window_product input polyphase (hrOffset + k))
                <$> seq 0 hrLength) as Heq.
    { apply fmap_seq_ext. intros k Hk. apply Ok_inj. rewrite <- Hf by done.
      apply Resample_sample_on_grid; fold N F P; [lia|nia| |lia].
      by rewrite Hgrid, <- of_int_add, Nat2Z.inj_add. }
    unfold Resample_alloc. rewrite Hres, Heq. done.
Qed.

(** With the identity-like bank and a whole rate [M >= 1], [Resample]
      from position 0 returns every [M]th input sample: its output is the
      beginning of the output of [Decimate] by [M]. *)
Theorem Resample_decimates (input : list T) (M orLength : nat) :
    (1 <= M)%nat -> (Z.of_nat (length input) < 2 ^ 59)%Z ->
    (orLength * M < length input)%nat ->
    exists decimated output tok,
      Decimate_alloc input M = Ok decimated
      /\ Resample (replicate orLength zero) input (identity_bank_of one)
           (of_int (Z.of_nat M)) (of_int 0) = (output, Ok tok)
      /\ output = take orLength decimated.
Proof.
    intros HM Hsize Hlen.
    destruct (Decimate_alloc_spec input M HM) as (d & Hd & Hld & Hid).
    set (bank := identity_bank_of one).
    assert (Z.of_nat (FilterCount bank) = 1%Z) as HP by done.
    assert (Z.of_nat (OriginalSize bank) = 1%Z) as HF by done.
    assert (0 < of_int (Z.of_nat M)) as Hr by (apply of_int_pos; lia).
    assert (forall k : nat,
              (of_int 0 + of_int (Z.of_nat k)) * of_int (Z.of_nat M) * of_int 1
              = of_int (Z.of_nat (k * M))) as Hgrid.
    { intros k. rewrite Nat2Z.inj_mul, of_int_mul, of_int_0, of_int_1. ring. }
    assert (Resample_contract (replicate orLength zero) input bank
              (of_int (Z.of_nat M)) (of_int 0) = Ok tt) as Hc.
    { apply Resample_contract_iff;
        [done|lia|lia|rewrite HP, HF; lia|rewrite length_replicate; lia|].
      rewrite length_replicate, HP, HF. split; [by apply -> of_int_le|].
      rewrite Hgrid. apply -> of_int_lt. lia. }
    destruct (Resample_completes (replicate orLength zero) input bank
                (of_int (Z.of_nat M)) (of_int 0) Hr ltac:(lia) ltac:(lia)
                ltac:(rewrite HP, HF; lia)
                ltac:(rewrite length_replicate; lia) Hc)
      as (f & tok & Hf & _ & Hres).
    rewrite length_replicate in Hf, Hres.
    exists d, (f <$> seq 0 orLength), tok. split_and!; [done..|].
    assert (orLength <= length d)%nat as Hle.
    { rewrite Hld. apply Nat.div_le_lower_bound; lia. }
    apply list_eq. intros k. rewrite list_lookup_fmap.
    destruct (decide (k < orLength)%nat) as [Hk|Hk].
    - rewrite lookup_seq_lt by done. rewrite lookup_take, decide_True by done.
      rewrite Hid by lia.
      assert (k * M < length input)%nat as HkM by nia.
      destruct (lookup_lt_is_Some_2 input (k * M) HkM) as [x Hx].
      rewrite Hx. cbn [fmap option_fmap option_map]. f_equal.
      apply Ok_inj. rewrite <- Hf by done.
      rewrite (Resample_sample_on_grid input bank _ _ (k * M));
        [|cbv zeta; rewrite ?HP, ?HF; try lia..].
      + f_equal. by apply window_product_identity.
      + apply Hgrid.
    - rewrite lookup_seq_ge by lia. rewrite lookup_take, decide_False by done.
      done.
Qed.

(** Every outcome of [Resample] for a positive rate and a bank with at
      least one phase and one tap: either the start point is not negative
      and the last requested position lies before the end of the filtered
      input, and the call stores every sample and returns a continuation;
      or the call ends with a failed assertion and the buffer untouched.
      Past the assertions nothing fails: no window is read outside the input
      or a phase, no [count >= 0] check fails and nothing is divided by
      zero. *)
Theorem Resample_outcome (output input : list T) (polyphase : PolyphaseView T)
    (sampleRates startPoint_ : Rational) :
    let N := Z.of_nat (length input) in
    let F := Z.of_nat (OriginalSize polyphase) in
    let P := Z.of_nat (FilterCount polyphase) in
    0 < sampleRates -> (1 <= P)%Z -> (1 <= F)%Z ->
    ((N + 1) * P + F < 2 ^ 61)%Z ->
    (Z.of_nat (length output) < 2 ^ 63)%Z ->
    (exists result tok,
       Resample output input polyphase sampleRates startPoint_ = (result, Ok tok)
       /\ length result = length output
       /\ 0 <= startPoint_
       /\ (startPoint_ + of_int (Z.of_nat (length output))) * sampleRates * of_int P
          < of_int (N * P + F - 1))
    \/ (Resample output input polyphase sampleRates startPoint_
        = (output, Fault AssertionFailure)
        /\ (startPoint_ < 0
            \/ of_int (N * P + F - 1)
               <= (startPoint_ + of_int (Z.of_nat (length output)))
                  * sampleRates * of_int P)).
Proof.
    intros N F P Hr HP HF Hsize Hout.
    assert (0 < of_int P) as HPq by (apply of_int_pos; lia).
    destruct (Qclt_le_dec startPoint_ 0) as [Hs|Hs].
    { right. split; [|by left].
      apply Resample_rejects_negative_start; [by apply Qclt_le_weak|done]. }
    destruct (Qclt_le_dec
                ((startPoint_ + of_int (Z.of_nat (length output)))
                 * sampleRates * of_int P)
                (of_int (N * P + F - 1))) as [Hlt|Hge].
    - left.
      assert (Resample_contract output input polyphase sampleRates startPoint_
              = Ok tt) as Hc.
      { apply Resample_contract_iff; [done..|]. by rewrite of_int_0. }
      destruct (Resample_any_buffer output output input polyphase sampleRates
                  startPoint_ Hr HP HF Hsize Hout eq_refl Hc)
        as (result & tok & Hres & _ & Hl).
      exists result, tok. done.
    - right. split; [|by right].
      apply Resample_rejects_length; [done..|].
      apply Qcnot_lt_le. intros Hc.
      apply lt_quotients in Hc; [|done..].
      by apply Qclt_not_le in Hc.
Qed.

End ResampleMore.

Lemma Resample_overwrites_witness :
  exists result tok,
    Resample [0; 0; 0]%Z example_input example_bank (Q2Qc (2 # 3)) (Q2Qc 0)
      = (result, Ok tok)
    /\ Resample [7; 8; 9]%Z example_input example_bank (Q2Qc (2 # 3)) (Q2Qc 0)
       = (result, Ok tok)
    /\ Resample_alloc example_input example_bank (Q2Qc (2 # 3)) (Q2Qc 0)
         (length [0; 0; 0]%Z) = result
    /\ length result = length [0; 0; 0]%Z.
Proof.
  apply (Resample_overwrites (T := Z) [0; 0; 0]%Z [7; 8; 9]%Z example_input
           example_bank (Q2Qc (2 # 3)) (Q2Qc 0));
    vm_compute; (reflexivity || (intros; discriminate)).
Defined.

Lemma Resample_chunks_witness :
  exists (result1 result2 : list Z) (tok1 tok : ContinuationParams),
    Resample (replicate 7 0%Z) example_input example_bank (Q2Qc (2 # 3)) (Q2Qc 0)
      = (result1, Ok tok1)
    /\ Resample (replicate 3 0%Z) example_input example_bank (Q2Qc (2 # 3))
         (Q2Qc 0 + Rational.of_int (Z.of_nat (length (replicate 7 0%Z))))%Qc
       = (result2, Ok tok)
    /\ Resample (replicate 7 0%Z ++ replicate 3 0%Z) example_input example_bank
         (Q2Qc (2 # 3)) (Q2Qc 0) = (result1 ++ result2, Ok tok).
Proof.
  apply (Resample_chunks (T := Z) (replicate 7 0%Z) (replicate 3 0%Z)
           example_input example_bank (Q2Qc (2 # 3)) (Q2Qc 0));
    vm_compute; (reflexivity || (intros; discriminate)).
Defined.

Lemma Resample_contract_violations_witness :
  Resample [0; 0]%Z [4; 5; 6]%Z identity_bank (Q2Qc (-1 # 2)) (Q2Qc 0)
  = ([0; 0]%Z, Fault AssertionFailure).
Proof.
  apply (Resample_contract_violations (T := Z) [0; 0]%Z [4; 5; 6]%Z identity_bank
           (Q2Qc (-1 # 2)) (Q2Qc 0)).
  left. vm_compute. reflexivity.
Defined.

Lemma Resample_interpolates_witness :
  exists hrOutput tok,
    Interpolate_alloc [1; 0; 1]%Z {| bufferView := [1; 2; 3]%Z; numFilters := 2 |}
      (Z.of_nat 1) 5 = Ok hrOutput
    /\ Resample (replicate 5 zero) [1; 0; 1]%Z
         {| bufferView := [1; 2; 3]%Z; numFilters := 2 |}
         (1 / Rational.of_int
                (Z.of_nat (FilterCount
                             {| bufferView := [1; 2; 3]%Z; numFilters := 2 |})))%Qc
         (Rational.of_int (Z.of_nat 1)) = (hrOutput, Ok tok)
    /\ Resample_alloc [1; 0; 1]%Z {| bufferView := [1; 2; 3]%Z; numFilters := 2 |}
         (1 / Rational.of_int
                (Z.of_nat (FilterCount
                             {| bufferView := [1; 2; 3]%Z; numFilters := 2 |})))%Qc
         (Rational.of_int (Z.of_nat 1)) 5 = hrOutput.
Proof.
  apply (Resample_interpolates (T := Z) [1; 0; 1]%Z
           {| bufferView := [1; 2; 3]%Z; numFilters := 2 |} 1 5);
    vm_compute; (reflexivity || (intros; discriminate)).
Defined.

Lemma Resample_decimates_witness :
  exists decimated output tok,
    Decimate_alloc [1; 2; 3; 4; 5; 6; 7]%Z 3 = Ok decimated
    /\ Resample (replicate 2 zero) [1; 2; 3; 4; 5; 6; 7]%Z (identity_bank_of one)
         (Rational.of_int (Z.of_nat 3)) (Rational.of_int 0) = (output, Ok tok)
    /\ output = take 2 decimated.
Proof.
  apply (Resample_decimates (T := Z) [1; 2; 3; 4; 5; 6; 7]%Z 3 2);
    [lia | vm_compute; reflexivity | simpl; lia].
Defined.

Lemma Resample_outcome_witness :
  (exists result tok,
     Resample [0; 0; 0]%Z example_input example_bank (Q2Qc (2 # 3)) (Q2Qc 0)
       = (result, Ok tok)
     /\ length result = length [0; 0; 0]%Z
     /\ (0 <= Q2Qc 0)%Qc
     /\ ((Q2Qc 0 + Rational.of_int (Z.of_nat (length [0; 0; 0]%Z)))
         * Q2Qc (2 # 3) * Rational.of_int (Z.of_nat (FilterCount example_bank))
         < Rational.of_int
             (Z.of_nat (length example_input) * Z.of_nat (FilterCount example_bank)
              + Z.of_nat (OriginalSize example_bank) - 1))%Qc)
  \/ (Resample [0; 0; 0]%Z example_input example_bank (Q2Qc (2 # 3)) (Q2Qc 0)
      = ([0; 0; 0]%Z, Fault AssertionFailure)
      /\ ((Q2Qc 0 < 0)%Qc
          \/ (Rational.of_int
                (Z.of_nat (length example_input) * Z.of_nat (FilterCount example_bank)
                 + Z.of_nat (OriginalSize example_bank) - 1)
              <= (Q2Qc 0 + Rational.of_int (Z.of_nat (length [0; 0; 0]%Z)))
                 * Q2Qc (2 # 3)
                 * Rational.of_int (Z.of_nat (FilterCount example_bank)))%Qc)).
Proof.
  apply (Resample_outcome (T := Z) [0; 0; 0]%Z example_input example_bank
           (Q2Qc (2 # 3)) (Q2Qc 0));
    vm_compute; (reflexivity || (intros; discriminate)).
Defined.
(** ** The candidates of [InputIndex2Sample] and the windows of [DotProductSample] *)

Section SampleSelection.
Context {T : Type} `{Scalar T}.
Import Rational RationalFacts PhaseSelection ContractFacts StreamingFacts.

(** [DotProductSample] is the dot product of the filter with the window of
      the input that ends at [inputReverseFirst], where the input counts as
      zero outside its range.  The one failure is the assertion, when the
      window starts after the end of the input. *)
Theorem DotProductSample_zero_padded (input filter : list T)
    (inputReverseFirst : Z) :
    let N := Z.of_nat (length input) in
    let L := Z.of_nat (length filter) in
    let desiredFirst := (inputReverseFirst - L + 1)%Z in
    (0 <= inputReverseFirst < 2 ^ 62)%Z -> (L < 2 ^ 62)%Z -> (N < 2 ^ 62)%Z ->
    ((N < desiredFirst)%Z
     /\ DotProductSample input filter inputReverseFirst = Fault AssertionFailure)
    \/ ((desiredFirst <= N)%Z
        /\ DotProductSample input filter inputReverseFirst
           = Ok (sum_from zero
                   (fun j => mul (zero_padded input (desiredFirst + Z.of_nat j))
                                 (default zero (filter !! j)))
                   (seq 0 (length filter)))).
Proof.
    intros N L desiredFirst Hidx HL HN.
    rewrite DotProductSample_eq by done. cbv zeta. fold N L desiredFirst.
    destruct (decide (N < desiredFirst)%Z) as [Hpast|Hin].
    { left. split; [done|]. by rewrite decide_False by lia. }
    right. split; [lia|]. rewrite decide_True by lia. f_equal.
    set (possibleFirst := Z.max 0 desiredFirst).
    set (possibleLast := Z.min N (inputReverseFirst + 1)).
    set (a := Z.to_nat (possibleFirst - desiredFirst)).
    set (c := Z.to_nat (possibleLast - possibleFirst)).
    rewrite (sum_from_restrict _ a (a + c) (length filter)).
    - replace (a + c - a)%nat with c by lia.
      apply (DotProduct_sum _ _
               (fun j => zero_padded input (desiredFirst + Z.of_nat j))
               (fun j => default zero (filter !! j))).
      + rewrite length_take, length_drop. lia.
      + rewrite length_take, length_drop. lia.
      + intros i Hi. rewrite lookup_take, decide_True by done. rewrite lookup_drop.
        destruct (lookup_lt_is_Some_2 input (Z.to_nat possibleFirst + i) ltac:(lia))
          as [x Hx].
        rewrite Hx. f_equal. unfold zero_padded. rewrite decide_True by lia.
        replace (Z.to_nat (desiredFirst + Z.of_nat (a + i)))
          with (Z.to_nat possibleFirst + i)%nat by lia.
        by rewrite Hx.
      + intros i Hi. rewrite lookup_take, decide_True by done. rewrite lookup_drop.
        destruct (lookup_lt_is_Some_2 filter (a + i) ltac:(lia)) as [v Hv].
        by rewrite Hv.
    - lia.
    - intros j Hj Hout. unfold zero_padded.
      case_decide as Hneg; [|by rewrite mul_0_l].
      rewrite lookup_ge_None_2 by lia. simpl. by rewrite mul_0_l.
Qed.

  Local Open Scope Qc_scope.

(** The two candidates of [InputIndex2Sample] are the high-rate samples
      next to the position: with [h = floor (x P)] the first one is sample
      [h] and the second one sample [h + 1] of the input expanded by [P],
      and their weights are those of the linear interpolation between the
      two: the weighted mean of [h] and [h + 1] is the position [x P]. *)
Theorem InputIndex2Sample_linear (x : Rational) (P : Z) :
    (1 <= P < 2 ^ 62)%Z -> 0 <= x -> x < of_int (2 ^ 62) ->
    (Denominator x < 2 ^ 63)%Z ->
    exists firstSampleLoc secondSampleLoc,
      InputIndex2Sample x P = Ok (firstSampleLoc, secondSampleLoc)
      /\ (inputIndex firstSampleLoc * P + phaseIndex firstSampleLoc
          = floor (x * of_int P))%Z
      /\ (inputIndex secondSampleLoc * P + phaseIndex secondSampleLoc
          = floor (x * of_int P) + 1)%Z
      /\ of_int (weight firstSampleLoc) * of_int (floor (x * of_int P))
         + of_int (weight secondSampleLoc) * of_int (floor (x * of_int P) + 1)
         = of_int (weight firstSampleLoc + weight secondSampleLoc)
           * (x * of_int P).
Proof.
    intros HP Hx0 Hx1 Hden.
    rewrite InputIndex2Sample_spec by (done || lia). cbv zeta.
    eexists _, _. split; [done|]. cbn [inputIndex phaseIndex weight].
    assert (0 <= floor x)%Z as Hidx0 by (apply floor_nonneg; by rewrite of_int_0).
    pose proof (floor_lt_int _ _ Hx1) as Hidx1.
    pose proof (scaled_frac_range x P ltac:(lia)) as Hfp.
    rewrite (size_t_small (floor x)) by lia.
    rewrite (size_t_small (floor x + 1)) by lia.
    destruct (second_location P (floor x) (floor (frac x * of_int P)) Hfp)
      as (Hsp & Hidx2 & _).
    cbv zeta in Hsp, Hidx2.
    rewrite (floor_scaled x P).
    set (h := (floor x * P + floor (frac x * of_int P))%Z) in *.
    set (t := frac (frac x * of_int P)).
    assert (frac x * of_int P = x * of_int P + of_int (- (floor x * P))) as Heq.
    { rewrite of_int_opp, of_int_mul. unfold frac. ring. }
    assert (t = frac (x * of_int P)) as Ht.
    { unfold t. rewrite Heq. apply frac_add_int. }
    assert (x * of_int P = of_int h + t) as Hxp.
    { rewrite Ht. unfold frac at 1. rewrite (floor_scaled x P). fold h. ring. }
    assert (t * of_int (Denominator t) = of_int (Numerator t)) as HtD.
    { rewrite (components t) at 1. field.
      apply pos_nonzero, of_int_pos, Denominator_pos. }
    split_and!; [done|done|].
    rewrite Hxp.
    replace (Denominator t - Numerator t + Numerator t)%Z with (Denominator t)
      by lia.
    replace (Denominator t - Numerator t)%Z with (Denominator t + - Numerator t)%Z
      by lia.
    rewrite (of_int_add h 1), (of_int_add (Denominator t)), of_int_opp, of_int_1.
    rewrite <- HtD. ring.
Qed.

End SampleSelection.

Lemma DotProductSample_zero_padded_witness :
  ((Z.of_nat (length [4; 5; 6]%Z) < 3 - Z.of_nat (length [1; 2]%Z) + 1)%Z
   /\ DotProductSample [4; 5; 6]%Z [1; 2]%Z 3 = Fault AssertionFailure)
  \/ ((3 - Z.of_nat (length [1; 2]%Z) + 1 <= Z.of_nat (length [4; 5; 6]%Z))%Z
      /\ DotProductSample [4; 5; 6]%Z [1; 2]%Z 3
         = Ok (sum_from zero
                 (fun j => mul (zero_padded [4; 5; 6]%Z
                                  (3 - Z.of_nat (length [1; 2]%Z) + 1 + Z.of_nat j))
                               (default zero ([1; 2]%Z !! j)))
                 (seq 0 (length [1; 2]%Z)))).
Proof.
  apply (DotProductSample_zero_padded (T := Z) [4; 5; 6]%Z [1; 2]%Z 3);
    vm_compute; repeat split; (reflexivity || (intros; discriminate)).
Defined.

Lemma InputIndex2Sample_linear_witness :
  exists firstSampleLoc secondSampleLoc,
    InputIndex2Sample (Q2Qc (7 # 3)) 4 = Ok (firstSampleLoc, secondSampleLoc)
    /\ (inputIndex firstSampleLoc * 4 + phaseIndex firstSampleLoc
        = Rational.floor (Q2Qc (7 # 3) * Rational.of_int 4)%Qc)%Z
    /\ (inputIndex secondSampleLoc * 4 + phaseIndex secondSampleLoc
        = Rational.floor (Q2Qc (7 # 3) * Rational.of_int 4)%Qc + 1)%Z
    /\ (Rational.of_int (weight firstSampleLoc)
        * Rational.of_int (Rational.floor (Q2Qc (7 # 3) * Rational.of_int 4))
        + Rational.of_int (weight secondSampleLoc)
          * Rational.of_int (Rational.floor (Q2Qc (7 # 3) * Rational.of_int 4) + 1)
        = Rational.of_int (weight firstSampleLoc + weight secondSampleLoc)
          * (Q2Qc (7 # 3) * Rational.of_int 4))%Qc.
Proof.
  apply (InputIndex2Sample_linear (Q2Qc (7 # 3)) 4);
    vm_compute; repeat split; (reflexivity || (intros; discriminate)).
Defined.
(** ** Band transforms: [MirrorResponse] *)

Section MirrorResponseProofs.
Context {T : Type} `{Scalar T}.

Lemma MirrorResponse_loop_spec (filter : list T) (remaining : nat) :
    forall (mirrored : list T) (i : nat),
    (i + remaining = length filter)%nat -> length mirrored = length filter ->
    MirrorResponse_loop remaining mirrored filter i (alternating_sign i)
    = Ok (take i mirrored
          ++ ((fun j => mul (alternating_sign j) (default zero (filter !! j)))
                <$> seq i remaining)).
Proof.
    induction remaining as [|remaining IH]; intros mirrored i Hi Hl.
    - cbn. rewrite app_nil_r, firstn_all2 by lia. done.
    - cbn [MirrorResponse_loop].
      destruct (lookup_lt_is_Some_2 filter i ltac:(lia)) as [v Hv].
      rewrite (read_lookup _ _ _ Hv), bind_Ok.
      rewrite write_ok by lia. rewrite bind_Ok.
      change (mul (alternating_sign i) (of_weight (-1)))
        with (alternating_sign (S i)).
      rewrite IH by (rewrite ?length_insert; lia).
      f_equal. cbn [seq fmap list_fmap]. rewrite Hv. cbn [default].
      rewrite (take_S_r _ _ (mul (alternating_sign i) v))
        by (apply list_lookup_insert_eq; lia).
      rewrite take_insert_ge by lia. by rewrite <- app_assoc.
Qed.

(** Every outcome of [MirrorResponse]: with an output of the length of
      the filter, tap [j] of the result is tap [j] of the filter times the
      sign that the loop carries, [T(1)] multiplied [j] times by [T(-1)],
      whatever the output held; an output of another length fails the
      assertion. *)
Theorem MirrorResponse_outcome (mirrored filter : list T) :
    (length mirrored = length filter
     /\ exists result,
          MirrorResponse mirrored filter = Ok result
          /\ length result = length filter
          /\ forall j x, filter !! j = Some x ->
               result !! j = Some (mul (alternating_sign j) x))
    \/ (length mirrored <> length filter
        /\ MirrorResponse mirrored filter = Fault AssertionFailure).
Proof.
    unfold MirrorResponse.
    destruct (decide (length mirrored = length filter)) as [Hl|Hl].
    - left. split; [done|].
      rewrite assert_true by (by apply bool_decide_eq_true).
      rewrite bind_Ok.
      change (of_weight 1) with (alternating_sign 0).
      rewrite (MirrorResponse_loop_spec filter (length filter) mirrored 0)
        by (done || lia).
      eexists. split; [done|]. rewrite take_0, app_nil_l. split.
      + by rewrite length_fmap, length_seq.
      + intros j x Hj. pose proof (lookup_lt_Some _ _ _ Hj) as Hlt.
        rewrite list_lookup_fmap, lookup_seq_lt by done.
        cbn. by rewrite Hj.
    - right. split; [done|].
      rewrite assert_false by (by apply bool_decide_eq_false). done.
Qed.

Section Involution.
Hypothesis mul_assoc : forall a b c : T, mul a (mul b c) = mul (mul a b) c.
Hypothesis mul_comm : forall a b : T, mul a b = mul b a.
Hypothesis minus_one_squared : mul (of_weight (-1)) (of_weight (-1)) = one.

Lemma alternating_sign_squared (j : nat) :
      mul (alternating_sign j) (alternating_sign j) = one.
Proof.
      induction j as [|j IH]; cbn [alternating_sign].
      - by rewrite of_weight_1, mul_1_r.
      - set (s := alternating_sign j) in *. set (m := of_weight (-1)) in *.
        rewrite (mul_assoc (mul s m) s m), <- (mul_assoc s m s), (mul_comm m s).
        rewrite (mul_assoc s s m), IH, <- (mul_assoc one m m), minus_one_squared.
        apply mul_1_r.
Qed.

(** Where the multiplication of samples is associative and commutative
        and [T(-1)] squares to 1, mirroring twice returns the filter. *)
Theorem MirrorResponse_involution (buffer1 buffer2 filter : list T) :
      length buffer1 = length filter -> length buffer2 = length filter ->
      exists mirrored,
        MirrorResponse buffer1 filter = Ok mirrored
        /\ MirrorResponse buffer2 mirrored = Ok filter.
Proof.
      intros Hl1 Hl2. unfold MirrorResponse.
      rewrite assert_true by (by apply bool_decide_eq_true).
      rewrite bind_Ok.
      change (of_weight 1) with (alternating_sign 0).
      rewrite (MirrorResponse_loop_spec filter (length filter) buffer1 0)
        by (done || lia).
      eexists. split; [done|]. rewrite take_0, app_nil_l.
      set (mirrored := _ <$> seq 0 (length filter)).
      assert (length mirrored = length filter) as Hlm
        by (unfold mirrored; by rewrite length_fmap, length_seq).
      rewrite assert_true by (apply bool_decide_eq_true; lia).
      rewrite bind_Ok.
      rewrite (MirrorResponse_loop_spec mirrored (length mirrored) buffer2 0)
        by (done || lia).
      f_equal. rewrite take_0, app_nil_l. apply list_eq. intros j.
      rewrite list_lookup_fmap, Hlm.
      destruct (decide (j < length filter)%nat) as [Hj|Hj].
      - rewrite lookup_seq_lt by done. cbn [fmap option_fmap option_map].
        unfold mirrored. rewrite list_lookup_fmap, lookup_seq_lt by done.
        destruct (lookup_lt_is_Some_2 filter j Hj) as [x Hx].
        cbn. rewrite Hx. cbn. f_equal.
        rewrite mul_assoc, alternating_sign_squared, mul_comm. apply mul_1_r.
      - rewrite lookup_seq_ge by lia. by rewrite lookup_ge_None_2 by lia.
Qed.

End Involution.

End MirrorResponseProofs.

Lemma MirrorResponse_involution_witness :
  exists mirrored,
    MirrorResponse [0; 0; 0]%Z [3; 5; 7]%Z = Ok mirrored
    /\ MirrorResponse [9; 9; 9]%Z mirrored = Ok [3; 5; 7]%Z.
Proof.
  apply (MirrorResponse_involution (T := Z));
    [intros; cbn; lia | intros; cbn; lia | reflexivity..].
Defined.
